(** * PII detector: a shallow embedding of [app.js] and its properties

    The development follows the class [PIITool] of [app.js]:
    - a string is the list of its characters ([jsString]), a character
      being a code unit of 8 bits; the numbers that index strings are
      naturals;
    - the regular expressions of the pattern catalogue are terms of a small
      syntax, run by a backtracking matcher that follows the ECMAScript
      semantics of the constructs the catalogue uses;
    - the state of the tool ([detectedPII], [enabledTypes], [processedText],
      [processedData]) is passed explicitly, and a loop that may not end
      returns an option;
    - the browser (DOM, toasts, timers, Web Crypto) is outside the model:
      the toast that ends a call is returned as a value, the two functions
      that go through Web Crypto are parameters of the transformer; the code
      around the calls (hexadecimal and base64 text, cuts, fallbacks) is
      modelled with what the calls return as arguments. *)

From Stdlib Require Import Ascii String Arith NArith ZArith Lia Bool Permutation
  Sorted.
From Stdlib Require Import DecimalString DecimalNat.
From stdpp Require Import base list gmap strings.


(** ** JavaScript strings *)

Module JS.

(** A string value: its sequence of characters. *)
Definition jsString : Type := list ascii.

Definition str (s : string) : jsString := list_ascii_of_string s.

(** The double quote character (code 34). *)
Definition dquote : ascii := "034"%char.

(** [s.substring(a, b)] for non-negative integers: both ends are clamped to
    the length and swapped when out of order. *)
Definition substring (s : jsString) (a b : nat) : jsString :=
  take (Nat.max a b - Nat.min a b) (drop (Nat.min a b) s).

(** [s.slice(a, b)] for non-negative integers: empty when [b <= a]. *)
Definition slice (s : jsString) (a b : nat) : jsString := take (b - a) (drop a s).

(** [s.slice(a)]. *)
Definition sliceFrom (s : jsString) (a : nat) : jsString := drop a s.

(** [s.startsWith(p)]. *)
Fixpoint startsWith (s p : jsString) {struct p} : bool :=
  match p, s with
  | [], _ => true
  | _ :: _, [] => false
  | x :: p', y :: s' => Ascii.eqb x y && startsWith s' p'
  end.

(** [s.endsWith(p)]. *)
Definition endsWith (s p : jsString) : bool := startsWith (rev s) (rev p).

(** [c.repeat(n)] for a one-character string. *)
Definition repeatChar (c : ascii) (n : nat) : jsString := replicate n c.

(** The code of a character. *)
Definition code (c : ascii) : N := N_of_ascii c.

(** A class of characters, as a test on the code. *)
Definition charClass : Type := N -> bool.

Definition inRange (lo hi : ascii) : charClass :=
  let a := code lo in
  let b := code hi in
  fun n => (a <=? n)%N && (n <=? b)%N.

(** [toLowerCase] on the characters a [jsString] can hold: the ASCII capitals
    and the capitals of the Latin-1 supplement (the multiplication sign,
    code 215, is not a letter). *)
Definition lowerChar (c : ascii) : ascii :=
  let n := code c in
  if ((65 <=? n) && (n <=? 90))%N then ascii_of_N (n + 32)
  else if ((192 <=? n) && (n <=? 222))%N && negb (n =? 215)%N
  then ascii_of_N (n + 32)
  else c.

Definition toLowerCase (s : jsString) : jsString := map lowerChar s.

(** White space and line terminators, as [trim] and [\s] see them. *)
Definition isSpace : charClass :=
  fun n => ((9 <=? n) && (n <=? 13))%N || (n =? 32)%N || (n =? 160)%N.

Fixpoint trimStart (s : jsString) : jsString :=
  match s with
  | [] => []
  | c :: s' => if isSpace (code c) then trimStart s' else s
  end.

Definition trimEnd (s : jsString) : jsString := rev (trimStart (rev s)).

(** [s.trim()]. *)
Definition trim (s : jsString) : jsString := trimEnd (trimStart s).

End JS.

(** ** Regular expressions

    The syntax covers what the catalogue of [PIITool] uses: character
    classes, sequences, alternatives, bounded and unbounded repetition
    (greedy or lazy), the word boundary [\b] and negative lookahead [(?!r)].
    Groups are all non-capturing in the catalogue, so a match is determined
    by where it starts and ends. *)

Module Regex.
Import JS.

Inductive regex : Type :=
| Empty
| Chars (cls : charClass)
| Cat (r1 r2 : regex)
| Or (r1 r2 : regex)
| Repeat (greedy : bool) (lo : nat) (hi : option nat) (r : regex)
| WordBoundary
| NotAhead (r : regex).

(** A position in the subject string: the characters from there on, the
    character just before (for [\b]) and the index. *)
Record cursor : Type := Cursor {
  before : option ascii;
  rest : jsString;
  pos : nat
}.

Definition startOf (s : jsString) : cursor := Cursor None s 0.

(** [\w]: the basic word characters. *)
Definition isWordChar : charClass :=
  fun n => ((97 <=? n) && (n <=? 122))%N || ((65 <=? n) && (n <=? 90))%N
           || ((48 <=? n) && (n <=? 57))%N || (n =? 95)%N.

Definition wordBefore (c : cursor) : bool :=
  match before c with Some a => isWordChar (code a) | None => false end.

Definition wordAfter (c : cursor) : bool :=
  match rest c with a :: _ => isWordChar (code a) | [] => false end.

Definition belowMax (n : nat) (hi : option nat) : bool :=
  match hi with None => true | Some h => n <? h end.

(** A matcher takes a continuation and a position: it hands every candidate
    end position of its pattern to the continuation, first candidate first,
    and the first one the continuation accepts is the result. *)
Definition continuation : Type := cursor -> option cursor.
Definition matcher : Type := continuation -> cursor -> option cursor.

(** The matcher of a repetition of [m] between [lo] and [hi] times, [n]
    iterations being done: below the lower bound it must iterate; above, a
    greedy repetition tries another iteration before it tries to stop, a
    lazy one the other way round; an iteration that consumes nothing once
    the lower bound is met is rejected.  [fuel] bounds the number of
    iterations. *)
Fixpoint repeatMatcher (m : matcher) (greedy : bool) (lo : nat)
    (hi : option nat) (k : continuation) (fuel n : nat) (x : cursor)
  : option cursor :=
  match fuel with
  | 0 => None
  | S fuel' =>
      let again (_ : unit) :=
        if belowMax n hi then
          m (fun y => if (lo <=? n) && (pos y <=? pos x) then None
                      else repeatMatcher m greedy lo hi k fuel' (S n) y) x
        else None in
      if n <? lo then again tt
      else if greedy then
        match again tt with
        | Some e => Some e
        | None => k x
        end
      else
        match k x with
        | Some e => Some e
        | None => again tt
        end
  end.

(** The backtracking matcher of a pattern.  [F] is the fuel of its
    repetitions beyond their lower bound; the length of the subject
    suffices, since each such iteration consumes a character. *)
Fixpoint run (F : nat) (r : regex) : matcher :=
  fun k c =>
  match r with
  | Empty => k c
  | Chars cls =>
      match rest c with
      | a :: s =>
          if cls (code a) then k (Cursor (Some a) s (S (pos c))) else None
      | [] => None
      end
  | Cat r1 r2 => run F r1 (run F r2 k) c
  | Or r1 r2 =>
      match run F r1 k c with
      | Some e => Some e
      | None => run F r2 k c
      end
  | Repeat greedy lo hi r1 =>
      repeatMatcher (run F r1) greedy lo hi k (lo + F) 0 c
  | WordBoundary => if xorb (wordBefore c) (wordAfter c) then k c else None
  | NotAhead r1 =>
      match run F r1 Some c with
      | Some _ => None
      | None => k c
      end
  end.

(** The leftmost match at or after a position: the cursors at its start and
    at its end. *)
Fixpoint search (F : nat) (r : regex) (prev : option ascii) (s : jsString)
    (i : nat) : option (cursor * cursor) :=
  match run F r Some (Cursor prev s i) with
  | Some e => Some (Cursor prev s i, e)
  | None =>
      match s with
      | [] => None
      | a :: s' => search F r (Some a) s' (S i)
      end
  end.

(** A [RegExp] object: the pattern and the [g] flag.  The [i] flag is part
    of the pattern (its classes are closed under case). *)
Record RegExp : Type := {
  source : regex;
  global : bool
}.

(** [re.exec(subject)] with [re.lastIndex] at cursor [c] of [subject]:
    [None] is [null]; otherwise the match, given by its start and end, and
    [lastIndex] moves to the end when the regex is global. *)
Definition exec (re : RegExp) (subject : jsString) (c : cursor)
  : option (cursor * cursor) :=
  search (S (length subject)) (source re) (before c) (rest c) (pos c).

(** [match.index] and [match[0]]. *)
Definition matchIndex (m : cursor * cursor) : nat := pos (fst m).

Definition matchText (m : cursor * cursor) : jsString :=
  take (pos (snd m) - pos (fst m)) (rest (fst m)).

(** *** Building patterns *)

Definition only (a : ascii) : charClass := let n := code a in N.eqb n.

Definition chr (a : ascii) : regex := Chars (only a).

Definition oneOf (s : string) : charClass :=
  let l := map code (str s) in fun n => existsb (N.eqb n) l.

Definition digit : charClass := inRange "0" "9".
Definition upper : charClass := inRange "A" "Z".
Definition lower : charClass := inRange "a" "z".

Definition either (p q : charClass) : charClass := fun n => p n || q n.

(** A class under the [i] flag: a character matches when it, its lower-case
    form or its upper-case form is in the class.  The classes of the
    catalogue hold ASCII characters only, so only ASCII letters fold. *)
Definition upperCode (n : N) : N :=
  if ((97 <=? n) && (n <=? 122))%N then (n - 32)%N else n.

Definition lowerCode (n : N) : N :=
  if ((65 <=? n) && (n <=? 90))%N then (n + 32)%N else n.

Definition anyCase (p : charClass) : charClass :=
  fun n => p n || p (lowerCode n) || p (upperCode n).

Fixpoint lit_chars (s : jsString) : regex :=
  match s with
  | [] => Empty
  | [a] => chr a
  | a :: s' => Cat (chr a) (lit_chars s')
  end.

(** A literal run of characters. *)
Definition lit (s : string) : regex := lit_chars (str s).

Fixpoint lit_chars_i (s : jsString) : regex :=
  match s with
  | [] => Empty
  | [a] => Chars (anyCase (only a))
  | a :: s' => Cat (Chars (anyCase (only a))) (lit_chars_i s')
  end.

(** A literal under the [i] flag. *)
Definition lit_i (s : string) : regex := lit_chars_i (str s).

(** An alternative of literals, first one first. *)
Fixpoint alts (l : list regex) : regex :=
  match l with
  | [] => Empty
  | [r] => r
  | r :: l' => Or r (alts l')
  end.

Definition star (r : regex) : regex := Repeat true 0 None r.
Definition plus (r : regex) : regex := Repeat true 1 None r.
Definition opt (r : regex) : regex := Repeat true 0 (Some 1) r.
Definition times (lo hi : nat) (r : regex) : regex := Repeat true lo (Some hi) r.
Definition exactly (n : nat) (r : regex) : regex := Repeat true n (Some n) r.
Definition atLeast (n : nat) (r : regex) : regex := Repeat true n None r.

End Regex.

(** ** The tool *)

Import JS Regex.

Declare Scope re_scope.
Delimit Scope re_scope with re.
Infix "+>" := Cat (at level 60, right associativity) : re_scope.
Local Open Scope re_scope.

(** *** Validators *)

(** [numberStr.replace(/\D/g, '').split('').map(Number)]. *)
Definition digitsOf (numberStr : jsString) : list nat :=
  map (fun c => N.to_nat (code c - 48))
    (List.filter (fun c => digit (code c)) numberStr).

(** The [for] loop of [luhnCheck]: [i] is the loop index, [checksum] the
    running sum. *)
Fixpoint luhnLoop (parity i : nat) (digits : list nat) (checksum : nat) : nat :=
  match digits with
  | [] => checksum
  | d :: digits' =>
      let digit :=
        if i mod 2 =? parity then
          (if 9 <? d * 2 then d * 2 - 9 else d * 2)
        else d in
      luhnLoop parity (S i) digits' (checksum + digit)
  end.

Definition luhnCheck (numberStr : jsString) : bool :=
  let digits := digitsOf numberStr in
  if (length digits <? 13) || (19 <? length digits) then false
  else
    let parity := length digits mod 2 in
    luhnLoop parity 0 digits 0 mod 10 =? 0.

(** [words.includes(s)]. *)
Definition includes (words : list string) (s : jsString) : bool :=
  existsb (fun w => bool_decide (str w = s)) words.

Definition jsonStructureWords : list string := [
    "timestamp"; "data_source"; "purpose"; "records"; "metadata";
    "test_dataset"; "record_id"; "data_classification"; "contains_pii";
    "pii_types"; "compliance_notes"; "gdpr_applicable"; "ccpa_applicable";
    "hipaa_applicable"; "total_records"; "order_number"; "external_order_id";
    "order_date"; "order_status"; "order_total"; "tax_amount";
    "shipping_amount"; "discount_amount"; "customer_id"; "loyalty_member";
    "loyalty_tier"; "billing_address"; "shipping_address"; "address_line_1";
    "address_line_2"; "postal_code"; "country"; "shipments"; "shipment_id";
    "tracking_number"; "carrier"; "carrier_service"; "ship_date";
    "estimated_delivery_date"; "actual_delivery_date"; "shipment_status";
    "tracking_url"; "shipped_from"; "facility_name"; "tracking_events";
    "event_date"; "event_type"; "location"; "description";
    "carrier_event_code"; "delivery_instructions"; "signature_required";
    "insurance_value"; "returns"; "return_id"; "return_date";
    "return_status"; "return_reason"; "return_type"; "refund_amount";
    "return_shipping_label"; "notifications"; "order_confirmation_sent";
    "shipping_notification_sent"; "delivery_notification_sent";
    "sms_enabled"; "email_enabled"; "push_notifications_enabled";
    "custom_attributes"; "source_channel"; "marketing_campaign";
    "gift_order"; "priority_shipping"; "customer_notes"; "internal_notes";
    "payment_info"; "payment_method"; "card_type"; "last_four";
    "payment_status"; "transaction_id"; "fulfillment_location";
    "warehouse_id"; "warehouse_name"; "created_at"; "updated_at"; "tags";
    "api_version"; "request_id"; "retailer_id"; "environment"; "items";
    "sku"; "product_id"; "name"; "description"; "quantity"; "unit_price";
    "total_price"; "category"; "subcategory"; "brand"; "size"; "color";
    "weight"; "dimensions"; "length"; "width"; "height"; "unit"; "image_url";
    "product_url"; "gift_message"; "customization"; "monogram";
    "thread_color"; "condition"; "label_url"; "amount"; "currency"; "value";
    "shipped"; "in_transit"; "delivered"; "pending"; "approved"; "rejected";
    "completed"; "processing"; "canceled"; "returned"; "exchange"; "refund";
    "website"; "mobile_app"; "phone"; "email"; "chat"; "false"; "true";
    "inches"; "lbs"; "kg"; "cm"; "cotton"; "classic"; "premium"; "medium";
    "large"; "small"; "blue"; "navy"; "indigo"; "black"; "white"; "red";
    "green"; "front"; "back"; "door"; "facility"; "package"; "arrived";
    "departed"; "wrong"; "size"; "color"; "style"; "fit"; "button"; "down";
    "shirt"; "jeans"; "denim"; "straight"; "production"; "development";
    "staging"
  ].

Definition isJsonStructure (before match_ after : jsString) : bool :=
  if endsWith before [dquote] && startsWith after [dquote; ":"%char] then true
  else if includes jsonStructureWords (toLowerCase match_)
          && endsWith before [dquote] && startsWith after [dquote; ":"%char]
  then true
  else false.

Definition commonWords : list string := [
    "Visa"; "Card"; "Type"; "Status"; "Date"; "Code"; "Number"; "Amount";
    "Total"; "Order"; "Customer"; "Address"; "Phone"; "Email"; "Payment";
    "Shipping"; "Product"; "Items"; "Description"; "Category"; "Brand";
    "Size"; "Color"; "Weight"; "Value"; "Unit"; "Quantity"; "Price"; "Image";
    "Location"; "Classic"; "Blue"; "Cotton"; "Shirt"; "Navy"; "Medium";
    "Large"; "Small"; "Indigo"; "Denim"; "Jeans"; "Premium"; "Black";
    "White"; "Red"; "Green"; "Gold"; "Silver"; "Style"; "Clothing"; "Shirts";
    "Button"; "Down"; "Straight"; "Fit"; "Thread"; "Fabric"; "Material";
    "Design"; "Shipped"; "Delivered"; "Pending"; "Approved"; "Completed";
    "Processing"; "Canceled"; "Returned"; "Transit"; "Ground"; "Express";
    "Standard"; "Distribution"; "Center"; "East"; "West"; "North"; "South";
    "Warehouse"; "Facility"; "Package"; "Carrier"; "Service"; "Ground";
    "Air"; "Inches"; "Pounds"; "Ounces"; "Grams"; "Kilograms"; "Length";
    "Width"; "Height"; "Gift"; "Message"; "Notes"; "Tags"; "Summer";
    "Winter"; "Collection"; "Sale"; "Campaign"; "Website"; "Mobile"; "App";
    "Chat"; "Support"; "Help"; "Production"; "Development"; "Staging";
    "Environment"; "Version"; "Request"
  ].

Definition isCommonWord (word : jsString) : bool := includes commonWords word.

(** *** The pattern catalogue

    Each entry is the regular expression of [piiPatterns] in the
    constructor, translated construct by construct; all of them carry the
    [g] flag. *)

Record PIIPattern : Type := {
  pattern : RegExp;
  name : string;
  color : string;
  priority : nat;
  requiresLuhn : bool;
  contextAware : bool
}.

Definition wb : regex := WordBoundary.
Definition dgt : regex := Chars digit.
Definition alnum : charClass := either (either upper lower) digit.
Definition capsDigits : charClass := either upper digit.
Definition hexDigit : charClass :=
  either (either digit (inRange "A" "F")) (inRange "a" "f").
(** [\s], and the separator class written [-.\s] or [-\s.] in the source. *)
Definition sp : regex := Chars isSpace.
Definition sep : regex := Chars (either (oneOf "-.") isSpace).
Definition dashSlash : regex := Chars (oneOf "/-").

Definition globalRe (r : regex) : RegExp := {| source := r; global := true |}.

(** email: \b[A-Za-z0-9._%+-]+@[A-Za-z0-9.-]+\.[A-Z|a-z]{2,}\b *)
Definition emailRe : regex :=
  wb +> plus (Chars (either alnum (oneOf "._%+-"))) +> chr "@"
    +> plus (Chars (either alnum (oneOf ".-"))) +> chr "."
    +> atLeast 2 (Chars (either (either upper (oneOf "|")) lower)) +> wb.

(** ssn: \b(?!000|666|9\d\d)\d{3}[-\s.]?(?!00)\d{2}[-\s.]?(?!0000)\d{4}\b *)
Definition ssnRe : regex :=
  wb +> NotAhead (alts [lit "000"; lit "666"; chr "9" +> dgt +> dgt])
    +> exactly 3 dgt +> opt sep
    +> NotAhead (lit "00") +> exactly 2 dgt +> opt sep
    +> NotAhead (lit "0000") +> exactly 4 dgt +> wb.

(** phone: \b(?:\+1[-.\s]?)?(?:\(?\d{3}\)?[-.\s]?)\d{3}[-.\s]?\d{4}\b *)
Definition phoneRe : regex :=
  wb +> opt (lit "+1" +> opt sep)
    +> (opt (chr "(") +> exactly 3 dgt +> opt (chr ")") +> opt sep)
    +> exactly 3 dgt +> opt sep +> exactly 4 dgt +> wb.

(** creditCard: \b(?:\d[ -]*?){13,19}\b, the inner star being lazy. *)
Definition creditCardRe : regex :=
  wb +> times 13 19 (dgt +> Repeat false 0 None (Chars (oneOf " -"))) +> wb.

(** url: the scheme, host characters, an optional port, and an optional
    path followed by an optional query and an optional fragment. *)
Definition urlRe : regex :=
  lit "http" +> opt (chr "s") +> lit "://"
    +> plus (Chars (either (oneOf "-.") isWordChar))
    +> opt (plus (Chars (either (oneOf ":") digit)))
    +> opt (chr "/" +> star (Chars (either isWordChar (oneOf "/_.")))
            +> opt (chr "?" +> star (Chars (either isWordChar (oneOf "&=%."))))
            +> opt (chr "#" +> star (Chars isWordChar))).

(** One number of a dotted quad: 25[0-5]|2[0-4]\d|1?\d?\d *)
Definition octet : regex :=
  alts [lit "25" +> Chars (inRange "0" "5");
        chr "2" +> Chars (inRange "0" "4") +> dgt;
        opt (chr "1") +> opt dgt +> dgt].

Definition ipv4AddressRe : regex :=
  wb +> exactly 3 (octet +> chr ".") +> octet +> wb.

(** ipv6Address: \b(?:[A-Fa-f0-9]{1,4}:){7}[A-Fa-f0-9]{1,4}\b *)
Definition ipv6AddressRe : regex :=
  wb +> exactly 7 (times 1 4 (Chars hexDigit) +> chr ":")
    +> times 1 4 (Chars hexDigit) +> wb.

(** taxId: \b\d{2}-\d{7}\b *)
Definition taxIdRe : regex := wb +> exactly 2 dgt +> chr "-" +> exactly 7 dgt +> wb.

(** employeeId: \b(?:EMP|STU|PAT|CS|GOV)-\d{4}-\d{3,5}\b *)
Definition employeeIdRe : regex :=
  wb +> alts [lit "EMP"; lit "STU"; lit "PAT"; lit "CS"; lit "GOV"]
    +> chr "-" +> exactly 4 dgt +> chr "-" +> times 3 5 dgt +> wb.

(** alphanumericId: \b[A-Z]{2,4}-\d{5,10}\b *)
Definition alphanumericIdRe : regex :=
  wb +> times 2 4 (Chars upper) +> chr "-" +> times 5 10 dgt +> wb.

(** accountNumber: \b[A-Z0-9]{8,16}\b *)
Definition accountNumberRe : regex := wb +> times 8 16 (Chars capsDigits) +> wb.

(** routingNumber: \b\d{9}\b *)
Definition routingNumberRe : regex := wb +> exactly 9 dgt +> wb.

(** A capitalised word of at least three letters: [A-Z][a-z]{2,} *)
Definition capWord : regex := Chars upper +> atLeast 2 (Chars lower).

Definition title (t : string) : regex := lit t +> opt (chr ".") +> plus sp.

(** name: a title, two or more capitalised words, an optional suffix. *)
Definition nameRe : regex :=
  wb +> alts [title "Dr"; title "Mr"; title "Mrs"; title "Ms"; title "Prof"]
    +> capWord +> plus (plus sp +> capWord) +> star (plus sp +> capWord)
    +> opt (plus sp +> alts [lit "Jr" +> opt (chr "."); lit "Sr" +> opt (chr ".");
                             lit "II" +> opt (chr "I"); lit "IV"])
    +> wb.

(** firstName: \b[A-Z][a-z]{2,15}\b *)
Definition firstNameRe : regex := wb +> Chars upper +> times 2 15 (Chars lower) +> wb.

Definition companySuffixes : list string := [
    "LLC"; "Inc"; "Corp"; "Corporation"; "Company"; "Co"; "Ltd"; "Limited";
    "University"; "Institute"; "College"; "Hospital"; "Medical"; "Center";
    "Health"; "Bank"; "Insurance"; "Group"; "Board"; "Technology"; "Academy";
    "School"
  ].

(** companyName: capitalised words followed by one of the suffixes. *)
Definition companyNameRe : regex :=
  wb +> Chars upper +> plus (Chars lower)
    +> star (plus sp +> Chars upper +> plus (Chars lower))
    +> plus sp +> alts (map lit companySuffixes) +> wb.

Definition streetWords : list string := [
    "Street"; "St"; "Avenue"; "Ave"; "Road"; "Rd"; "Boulevard"; "Blvd";
    "Drive"; "Dr"; "Lane"; "Ln"; "Way"; "Circle"; "Cir"; "Plaza"; "Court";
    "Ct"; "Highway"; "Hwy"
  ].

(** address: \b\d+\s+[A-Za-z0-9\s,]+(?:Street|St|...|Hwy)\b *)
Definition addressRe : regex :=
  wb +> plus dgt +> plus sp
    +> plus (Chars (either (either alnum isSpace) (oneOf ",")))
    +> alts (map lit streetWords) +> wb.

Definition months : list string := [
    "Jan"; "Feb"; "Mar"; "Apr"; "May"; "Jun"; "Jul"; "Aug"; "Sep"; "Oct";
    "Nov"; "Dec"
  ].

(** date (flags [gi]): numeric day-month-year, numeric year-month-day, or a
    month name, a day and a year. *)
Definition dateRe : regex :=
  wb +> alts [times 1 2 dgt +> dashSlash +> times 1 2 dgt +> dashSlash +> times 2 4 dgt;
             exactly 4 dgt +> dashSlash +> times 1 2 dgt +> dashSlash +> times 1 2 dgt;
             alts (map lit_i months) +> star (Chars (anyCase lower))
               +> plus sp +> times 1 2 dgt +> opt (chr ",") +> plus sp
               +> exactly 4 dgt]
    +> wb.

(** zipCode: \b\d{5}(?:-\d{4})?\b *)
Definition zipCodeRe : regex :=
  wb +> exactly 5 dgt +> opt (chr "-" +> exactly 4 dgt) +> wb.

(** extension (flags [gi]): \bextension\s+\d{3,4}\b *)
Definition extensionRe : regex :=
  wb +> lit_i "extension" +> plus sp +> times 3 4 dgt +> wb.

(** cityState: \b[A-Z][a-z]{4,},\s*[A-Z][a-z]{4,},\s*USA\b *)
Definition cityStateRe : regex :=
  wb +> Chars upper +> atLeast 4 (Chars lower) +> chr "," +> star sp
    +> Chars upper +> atLeast 4 (Chars lower) +> chr "," +> star sp
    +> lit "USA" +> wb.

(** passport: \b[A-Z]{2,3}\d{8,9}\b *)
Definition passportRe : regex :=
  wb +> times 2 3 (Chars upper) +> times 8 9 dgt +> wb.

(** macAddress: six pairs of hexadecimal digits separated by colons. *)
Definition hexPair : regex := exactly 2 (Chars hexDigit).

Definition macAddressRe : regex :=
  wb +> hexPair +> chr ":" +> hexPair +> chr ":" +> hexPair +> chr ":"
    +> hexPair +> chr ":" +> hexPair +> chr ":" +> hexPair +> wb.

(** username: \b[a-z][a-z0-9_\.]{6,25}(?:\.[a-z]{2,15})?\b *)
Definition usernameRe : regex :=
  wb +> Chars lower
    +> times 6 25 (Chars (either (either lower digit) (oneOf "_.")))
    +> opt (chr "." +> times 2 15 (Chars lower)) +> wb.

(** medicalLicense: \b[A-Z]{2}-[A-Z]{2}-\d{6,12}\b *)
Definition medicalLicenseRe : regex :=
  wb +> exactly 2 (Chars upper) +> chr "-" +> exactly 2 (Chars upper)
    +> chr "-" +> times 6 12 dgt +> wb.

(** deaNumber: \b[A-Z]{2}\d{7}\b *)
Definition deaNumberRe : regex := wb +> exactly 2 (Chars upper) +> exactly 7 dgt +> wb.

(** deviceId: \b[A-Z]{3}-[A-Z0-9]{3,12}[A-Z0-9]{3,12}\b *)
Definition deviceIdRe : regex :=
  wb +> exactly 3 (Chars upper) +> chr "-" +> times 3 12 (Chars capsDigits)
    +> times 3 12 (Chars capsDigits) +> wb.

(** fingerprint: \b[A-Z]{2}-\d{12,18}\b *)
Definition fingerprintRe : regex :=
  wb +> exactly 2 (Chars upper) +> chr "-" +> times 12 18 dgt +> wb.

(** licenseNumber: \b[A-Z]{2}-[A-Z]{2,3}-[A-Z0-9]{6,12}\b *)
Definition licenseNumberRe : regex :=
  wb +> exactly 2 (Chars upper) +> chr "-" +> times 2 3 (Chars upper)
    +> chr "-" +> times 6 12 (Chars capsDigits) +> wb.

(** apartment (flags [gi]): \b(?:Apt|Suite|Unit|Apartment|Room)\s+[A-Z0-9]{1,5}\b *)
Definition apartmentRe : regex :=
  wb +> alts (map lit_i ["Apt"; "Suite"; "Unit"; "Apartment"; "Room"])
    +> plus sp +> times 1 5 (Chars (anyCase capsDigits)) +> wb.

(** trackingNumber: \b1Z[A-Z0-9]{16}\b|\b[A-Z0-9]{10,30}\b *)
Definition trackingNumberRe : regex :=
  Or (wb +> lit "1Z" +> exactly 16 (Chars capsDigits) +> wb)
     (wb +> times 10 30 (Chars capsDigits) +> wb).

(** orderID: \b(?:ORD|SHOP|CUST|RET|SHIP|TXN|WH)[-_][A-Z0-9]{4,20}\b *)
Definition orderIDRe : regex :=
  wb +> alts (map lit ["ORD"; "SHOP"; "CUST"; "RET"; "SHIP"; "TXN"; "WH"])
    +> Chars (oneOf "-_") +> times 4 20 (Chars capsDigits) +> wb.

(** poBox (flags [gi]): \bPO\s+Box\s+\d{3,6}\b *)
Definition poBoxRe : regex :=
  wb +> lit_i "PO" +> plus sp +> lit_i "Box" +> plus sp +> times 3 6 dgt +> wb.

Definition entry (key : string) (r : regex) (nm col : string) (prio : nat)
    (luhn ctx : bool) : string * PIIPattern :=
  (key, {| pattern := globalRe r; name := nm; color := col; priority := prio;
           requiresLuhn := luhn; contextAware := ctx |}).

(** [this.piiPatterns], in declaration order. *)
Definition piiPatterns : list (string * PIIPattern) := [
    entry "email" emailRe "Email Address" "#FF6B6B" 1 false false;
    entry "ssn" ssnRe "Social Security Number" "#45B7D1" 2 false false;
    entry "phone" phoneRe "Phone Number" "#4ECDC4" 3 false false;
    entry "creditCard" creditCardRe "Credit Card" "#F9CA24" 4 true false;
    entry "url" urlRe "URL" "#FD79A8" 5 false false;
    entry "ipv4Address" ipv4AddressRe "IPv4 Address" "#A55EEA" 6 false false;
    entry "ipv6Address" ipv6AddressRe "IPv6 Address" "#A0522D" 7 false false;
    entry "taxId" taxIdRe "Tax ID" "#6C5CE7" 8 false false;
    entry "employeeId" employeeIdRe "ID Number" "#A0E7E5" 9 false false;
    entry "alphanumericId" alphanumericIdRe "Alphanumeric ID" "#00B894" 10 false false;
    entry "accountNumber" accountNumberRe "Account Number" "#FF9F43" 11 false false;
    entry "routingNumber" routingNumberRe "Routing Number" "#FDCB6E" 11 false false;
    entry "name" nameRe "Full Name" "#FF7675" 13 false false;
    entry "firstName" firstNameRe "First Name" "#FF6B9D" 12 false true;
    entry "companyName" companyNameRe "Organization Name" "#74B9FF" 14 false false;
    entry "address" addressRe "Street Address" "#00B894" 15 false false;
    entry "date" dateRe "Date" "#FDCB6E" 16 false false;
    entry "zipCode" zipCodeRe "US ZIP Code" "#26DE81" 17 false false;
    entry "extension" extensionRe "Extension" "#B2BEC3" 18 false false;
    entry "cityState" cityStateRe "City/State" "#C44569" 20 false false;
    entry "passport" passportRe "Passport Number" "#6C5CE7" 21 false false;
    entry "macAddress" macAddressRe "MAC Address" "#A0E7E5" 22 false false;
    entry "username" usernameRe "Username" "#FD79A8" 23 false false;
    entry "medicalLicense" medicalLicenseRe "Medical License" "#E84393" 24 false false;
    entry "deaNumber" deaNumberRe "DEA Number" "#00B894" 25 false false;
    entry "deviceId" deviceIdRe "Device ID" "#FDCB6E" 26 false false;
    entry "fingerprint" fingerprintRe "Biometric ID" "#E17055" 27 false false;
    entry "licenseNumber" licenseNumberRe "License Number" "#A29BFE" 29 false false;
    entry "apartment" apartmentRe "Apartment/Suite" "#74B9FF" 34 false false;
    entry "trackingNumber" trackingNumberRe "Tracking Number" "#8E44AD" 35 false false;
    entry "orderID" orderIDRe "Order/Transaction ID" "#E67E22" 36 false false;
    entry "poBox" poBoxRe "PO Box" "#E17055" 35 false false
  ].

(** *** Detection results *)

(** A recorded match: [{text: match[0], index: match.index}]. *)
Record PIIMatch : Type := {
  text : jsString;
  index : nat
}.

(** A value of [detectedPII]: [{matches, count, ...pii}]. *)
Record PIIData : Type := {
  matches : list PIIMatch;
  count : nat;
  info : PIIPattern
}.

(** [this.detectedPII], an object used as a map from category keys: its
    entries in property order, which for these keys is insertion order
    ([Object.entries], [Object.keys] and [Object.values] enumerate in it). *)
Definition Detected : Type := list (string * PIIData).

Fixpoint getEntry (key : string) (o : Detected) : option PIIData :=
  match o with
  | [] => None
  | (k, v) :: o' => if String.eqb k key then Some v else getEntry key o'
  end.

(** [o[key] = v]: replaces the value of an existing key in place, appends a
    new key. *)
Fixpoint setEntry (key : string) (v : PIIData) (o : Detected) : Detected :=
  match o with
  | [] => [(key, v)]
  | (k, w) :: o' =>
      if String.eqb k key then (k, v) :: o' else (k, w) :: setEntry key v o'
  end.

(** [Array.prototype.sort] with a comparator: the sort is stable, so with a
    comparator that orders by a key the result is the one of a stable
    insertion sort.  [after a b] says that the comparator is positive on
    [(a, b)]. *)
Fixpoint insertSorted {A : Type} (after : A -> A -> bool) (x : A) (l : list A)
  : list A :=
  match l with
  | [] => [x]
  | y :: l' => if after x y then y :: insertSorted after x l' else x :: l
  end.

Definition stableSort {A : Type} (after : A -> A -> bool) (l : list A) : list A :=
  foldr (insertSorted after) [] l.

(** [p || 99]. *)
Definition orElse99 (p : nat) : nat := if p =? 0 then 99 else p.

(** [Object.entries(this.piiPatterns).sort((a, b) =>
      (a[1].priority || 99) - (b[1].priority || 99))]. *)
Definition sortedPatterns : list (string * PIIPattern) :=
  stableSort
    (fun a b => orElse99 (priority (snd b)) <? orElse99 (priority (snd a)))
    piiPatterns.

(** The [while] loop of [processStandardText] for one category.  [lastIndex]
    is the state of the regex object, [found] the array [matches].  The loop
    ends when [exec] returns [null] or, for a regex without the [g] flag,
    after the first round; [None] stands for a loop that does not end (a
    global regex that keeps matching the empty string at the same place). *)
Fixpoint scanStandard (fuel : nat) (key : string) (pii : PIIPattern)
    (inputText : jsString) (lastIndex : cursor) (found : list PIIMatch)
  : option (list PIIMatch) :=
  match fuel with
  | 0 => None
  | S fuel' =>
      match exec (pattern pii) inputText lastIndex with
      | None => Some found
      | Some m =>
          let again (found' : list PIIMatch) :=
            if global (pattern pii)
            then scanStandard fuel' key pii inputText (snd m) found'
            else Some found' in
          let beforeMatch :=
            substring inputText (Nat.max 0 (matchIndex m - 10)) (matchIndex m) in
          let afterMatch :=
            substring inputText (matchIndex m + length (matchText m))
              (matchIndex m + length (matchText m) + 10) in
          if isJsonStructure beforeMatch (matchText m) afterMatch then again found
          else if contextAware pii && isCommonWord (matchText m) then again found
          else if String.eqb key "creditCard" && requiresLuhn pii then
            if luhnCheck (matchText m)
            then again (found ++ [{| text := matchText m; index := matchIndex m |}])
            else again found
          else again (found ++ [{| text := matchText m; index := matchIndex m |}])
      end
  end.

(** The rounds a scan of [s] can need: one per character and the last,
    failing one. *)
Definition rounds (s : jsString) : nat := S (length s).

(** The body of [sortedPatterns.forEach] in [processStandardText]; the state
    is [detectedPII] and [totalCount]. *)
Fixpoint forEachStandard (patterns : list (string * PIIPattern))
    (inputText : jsString) (st : Detected * nat) : option (Detected * nat) :=
  match patterns with
  | [] => Some st
  | (key, pii) :: patterns' =>
      match scanStandard (rounds inputText) key pii inputText (startOf inputText) [] with
      | None => None
      | Some found =>
          forEachStandard patterns' inputText
            (if 0 <? length found
             then (setEntry key {| matches := found; count := length found;
                                   info := pii |} (fst st),
                   snd st + length found)
             else st)
      end
  end.

(** [processStandardText(inputText)]: the new [detectedPII] and the total
    that is handed to [displayResults]. *)
Definition processStandardText (detectedPII : Detected) (inputText : jsString)
  : option (Detected * nat) :=
  forEachStandard sortedPatterns inputText (detectedPII, 0).

(** *** Large documents: chunks *)

(** A chunk [{text, offset}] of [processLargeText]. *)
Record Chunk : Type := {
  chunkText : jsString;
  offset : nat
}.

(** The [while] loop of [processChunk] for one category: as in
    [processStandardText], on the text of the chunk, with the offset of the
    chunk added to the index that is recorded. *)
Fixpoint scanChunk (fuel : nat) (key : string) (pii : PIIPattern)
    (chunk : Chunk) (lastIndex : cursor) (found : list PIIMatch)
  : option (list PIIMatch) :=
  match fuel with
  | 0 => None
  | S fuel' =>
      match exec (pattern pii) (chunkText chunk) lastIndex with
      | None => Some found
      | Some m =>
          let again (found' : list PIIMatch) :=
            if global (pattern pii)
            then scanChunk fuel' key pii chunk (snd m) found'
            else Some found' in
          let beforeMatch :=
            substring (chunkText chunk) (Nat.max 0 (matchIndex m - 10))
              (matchIndex m) in
          let afterMatch :=
            substring (chunkText chunk) (matchIndex m + length (matchText m))
              (matchIndex m + length (matchText m) + 10) in
          if isJsonStructure beforeMatch (matchText m) afterMatch then again found
          else if contextAware pii && isCommonWord (matchText m) then again found
          else if String.eqb key "creditCard" && requiresLuhn pii then
            if luhnCheck (matchText m)
            then again (found ++ [{| text := matchText m;
                                     index := matchIndex m + offset chunk |}])
            else again found
          else again (found ++ [{| text := matchText m;
                                   index := matchIndex m + offset chunk |}])
      end
  end.

(** [this.detectedPII[key].matches.push(...found)] and
    [this.detectedPII[key].count += found.length]. *)
Fixpoint pushMatches (key : string) (found : list PIIMatch) (o : Detected)
  : Detected :=
  match o with
  | [] => []
  | (k, v) :: o' =>
      if String.eqb k key
      then (k, {| matches := matches v ++ found;
                  count := count v + length found;
                  info := info v |}) :: o'
      else (k, v) :: pushMatches key found o'
  end.

(** The body of [sortedPatterns.forEach] in [processChunk]. *)
Fixpoint forEachChunk (patterns : list (string * PIIPattern)) (chunk : Chunk)
    (detectedPII : Detected) : option Detected :=
  match patterns with
  | [] => Some detectedPII
  | (key, pii) :: patterns' =>
      match scanChunk (rounds (chunkText chunk)) key pii chunk
              (startOf (chunkText chunk)) [] with
      | None => None
      | Some found =>
          forEachChunk patterns' chunk
            (if 0 <? length found then
               pushMatches key found
                 (match getEntry key detectedPII with
                  | Some _ => detectedPII
                  | None =>
                      setEntry key {| matches := []; count := 0; info := pii |}
                        detectedPII
                  end)
             else detectedPII)
      end
  end.

(** [processChunk(chunk, resetData)]. *)
Definition processChunk (detectedPII : Detected) (chunk : Chunk)
    (resetData : bool) : option Detected :=
  forEachChunk sortedPatterns chunk (if resetData then [] else detectedPII).

(** The first [for] loop of [processLargeText], for a window of [size]
    characters that advances by [step]: [i] is the loop variable.  The loop
    runs while [i < inputText.length]; [fuel] bounds its rounds. *)
Fixpoint chunkLoop (size step : nat) (inputText : jsString) (fuel i : nat)
  : list Chunk :=
  match fuel with
  | 0 => []
  | S fuel' =>
      if i <? length inputText then
        {| chunkText := slice inputText i (Nat.min (i + size) (length inputText));
           offset := i |}
        :: chunkLoop size step inputText fuel' (i + step)
      else []
  end.

Definition chunkSize : nat := 10 * 1000.
Definition overlap : nat := 500.

Definition makeChunks (inputText : jsString) : list Chunk :=
  chunkLoop chunkSize (chunkSize - overlap) inputText (length inputText) 0.

(** The second [for] loop of [processLargeText]: [processChunk(chunks[i],
    i === 0)] for each chunk in turn. *)
Fixpoint forChunks (chunks : list Chunk) (i : nat) (detectedPII : Detected)
  : option Detected :=
  match chunks with
  | [] => Some detectedPII
  | chunk :: chunks' =>
      match processChunk detectedPII chunk (i =? 0) with
      | None => None
      | Some detectedPII' => forChunks chunks' (S i) detectedPII'
      end
  end.

(** [n.toString()] for a non-negative integer. *)
Definition showNat (n : nat) : jsString :=
  str (NilEmpty.string_of_uint (Nat.to_uint n)).

(** The key of [deduplicateMatches]: the template [index-text]. *)
Definition identifier (m : PIIMatch) : jsString :=
  showNat (index m) ++ "-"%char :: text m.

(** [data.matches.forEach] in [deduplicateMatches]: [seen] is the set of
    identifiers met so far. *)
Fixpoint uniqueLoop (ms : list PIIMatch) (seen : gset jsString)
    (uniqueMatches : list PIIMatch) : list PIIMatch :=
  match ms with
  | [] => uniqueMatches
  | m :: ms' =>
      if decide (identifier m ∈ seen) then uniqueLoop ms' seen uniqueMatches
      else uniqueLoop ms' ({[identifier m]} ∪ seen) (uniqueMatches ++ [m])
  end.

Definition deduplicateMatches (detectedPII : Detected) : Detected :=
  map (fun kv =>
         let uniqueMatches := uniqueLoop (matches (snd kv)) ∅ [] in
         (fst kv, {| matches := uniqueMatches;
                     count := length uniqueMatches;
                     info := info (snd kv) |}))
      detectedPII.

(** [Object.values(this.detectedPII).reduce((sum, data) => sum + data.count, 0)]. *)
Definition sumCounts (detectedPII : Detected) : nat :=
  foldl (fun sum kv => sum + count (snd kv)) 0 detectedPII.

(** [processLargeText(inputText)]: the new [detectedPII] and the total. *)
Definition processLargeText (detectedPII : Detected) (inputText : jsString)
  : option (Detected * nat) :=
  match forChunks (makeChunks inputText) 0 detectedPII with
  | None => None
  | Some found =>
      Some (deduplicateMatches found, sumCounts (deduplicateMatches found))
  end.

(** *** The tool and its entry points *)

(** A value read out of an object by a computed key: a string of the
    object's own, or what the key finds on [Object.prototype] (a function,
    or the prototype itself for [__proto__]). *)
Inductive JSValue : Type :=
| JSString (s : string)
| Inherited (property : string).

(** The properties every plain object inherits. *)
Definition objectPrototypeKeys : list string := [
    "constructor"; "__defineGetter__"; "__defineSetter__"; "hasOwnProperty";
    "__lookupGetter__"; "__lookupSetter__"; "isPrototypeOf";
    "propertyIsEnumerable"; "toString"; "valueOf"; "__proto__";
    "toLocaleString"
  ].

(** The object literal [levels] of [getSecurityLevel]. *)
Definition levels : list (string * string) := [
    ("encrypt", "High (Demo Only)");
    ("hash", "High");
    ("redact", "Medium");
    ("mask", "Low")
  ].

Fixpoint ownProperty (o : list (string * string)) (key : string) : option string :=
  match o with
  | [] => None
  | (k, v) :: o' => if String.eqb k key then Some v else ownProperty o' key
  end.

(** [levels[method] || 'None']: the four levels are non-empty strings and
    inherited values are objects, all of them truthy. *)
Definition getSecurityLevel (method : string) : JSValue :=
  match ownProperty levels method with
  | Some level => JSString level
  | None =>
      if existsb (String.eqb method) objectPrototypeKeys then Inherited method
      else JSString "None"
  end.

(** [this.processedData] after [applyEncryption]. *)
Record ProcessedData : Type := {
  originalCount : nat;
  processedCount : nat;
  method : string;
  securityLevel : JSValue
}.

(** The state of a [PIITool]; [processedData] is [None] for the empty
    object of the constructor. *)
Record PIITool : Type := {
  detectedPII : Detected;
  enabledTypes : gset string;
  processedText : jsString;
  processedData : option ProcessedData
}.

(** [new PIITool()]: every category is enabled. *)
Definition newTool : PIITool :=
  {| detectedPII := [];
     enabledTypes := list_to_set (map fst piiPatterns);
     processedText := [];
     processedData := None |}.

(** The state with another set of enabled categories. *)
Definition withEnabled (tool : PIITool) (types : gset string) : PIITool :=
  {| detectedPII := detectedPII tool;
     enabledTypes := types;
     processedText := processedText tool;
     processedData := processedData tool |}.

(** [togglePIIType(type, toggleElement)], on the state. *)
Definition togglePIIType (tool : PIITool) (type : string) : PIITool :=
  withEnabled tool
    (if decide (type ∈ enabledTypes tool) then enabledTypes tool ∖ {[type]}
     else {[type]} ∪ enabledTypes tool).

(** [selectAllPIITypes()]. *)
Definition selectAllPIITypes (tool : PIITool) : PIITool :=
  withEnabled tool (list_to_set (map fst piiPatterns) ∪ enabledTypes tool).

(** [unselectAllPIITypes()]. *)
Definition unselectAllPIITypes (tool : PIITool) : PIITool :=
  withEnabled tool ∅.

(** What [showToast] is called with. *)
Inductive ToastType : Type := error | warning | success.

Inductive Message : Type :=
| EnterTextToAnalyze        (* "Please enter some text to analyze." *)
| AnalysisComplete (totalCount : nat)
| NoTextToProcess           (* "No text to process. Please analyze text first." *)
| NoPIIDetected             (* "No PII detected. Please analyze text first ..." *)
| PasswordRequired          (* "Password required for encryption." *)
| PasswordTooShort          (* "Password must be at least 8 characters long ..." *)
| NoTypesSelected           (* "No PII types selected for processing." *)
| Processed (count : nat) (how : string).

Definition Toast : Type := (Message * ToastType)%type.

(** Above this length [analyzeText] goes through chunks. *)
Definition largeTextLimit : nat := 50 * 1000.

(** [analyzeText()], on the value of the input field.  The result is the
    new state and the toast that ends the call. *)
Definition analyzeText (tool : PIITool) (inputValue : jsString)
  : option (PIITool * Toast) :=
  let inputText := trim inputValue in
  if bool_decide (inputText = []) then Some (tool, (EnterTextToAnalyze, error))
  else
    match (if largeTextLimit <? length inputText
           then processLargeText [] inputText
           else processStandardText [] inputText) with
    | None => None
    | Some (found, totalCount) =>
        Some ({| detectedPII := found;
                 enabledTypes := enabledTypes tool;
                 processedText := processedText tool;
                 processedData := processedData tool |},
              (AnalysisComplete totalCount, success))
    end.

Section Transformer.

(** The two functions that go through the Web Crypto interface of the
    browser: [secureHash(text)], and [secureEncrypt(text, password)] whose
    result also depends on a fresh salt and IV, here the number of the
    call. *)
Variable secureHash : jsString -> jsString.
Variable secureEncrypt : nat -> jsString -> jsString -> jsString.

(** The [switch] of [applyEncryption]. *)
Definition replacementFor (how : string) (password : jsString) (call : nat)
    (m : PIIMatch) : jsString :=
  if String.eqb how "mask" then repeatChar "*" (length (text m))
  else if String.eqb how "hash" then str "[HASH:" ++ secureHash (text m) ++ str "]"
  else if String.eqb how "encrypt" then secureEncrypt call (text m) password
  else if String.eqb how "redact" then str "[REDACTED]"
  else text m.

(** The [for ... of] loop of [applyEncryption]; the state is [processedText]
    and [processedCount]. *)
Fixpoint replaceLoop (how : string) (password : jsString)
    (allMatches : list PIIMatch) (processed : jsString) (processedCount : nat)
  : jsString * nat :=
  match allMatches with
  | [] => (processed, processedCount)
  | m :: allMatches' =>
      let start := index m in
      let end_ := start + length (text m) in
      let replacement := replacementFor how password processedCount m in
      replaceLoop how password allMatches'
        (slice processed 0 start ++ replacement ++ sliceFrom processed end_)
        (S processedCount)
  end.

(** The matches of the enabled categories, in the order of the entries. *)
Definition enabledMatches (tool : PIITool) : list PIIMatch :=
  concat (map (fun kv => if bool_decide (fst kv ∈ enabledTypes tool)
                         then matches (snd kv) else [])
              (detectedPII tool)).

(** [allMatches.sort((a, b) => b.index - a.index)]. *)
Definition sortDescending (allMatches : list PIIMatch) : list PIIMatch :=
  stableSort (fun a b => index a <? index b) allMatches.

(** [applyEncryption(text, method, password)]: the new state and the
    processed text. *)
Definition applyEncryption (tool : PIITool) (original : jsString)
    (how : string) (password : jsString) : PIITool * jsString :=
  let originalCount := sumCounts (detectedPII tool) in
  let allMatches := sortDescending (enabledMatches tool) in
  let result := replaceLoop how password allMatches original 0 in
  ({| detectedPII := detectedPII tool;
      enabledTypes := enabledTypes tool;
      processedText := processedText tool;
      processedData :=
        Some {| originalCount := originalCount;
                processedCount := snd result;
                method := how;
                securityLevel := getSecurityLevel how |} |},
   fst result).

(** [processText()], on the values of the input field, the method selector
    and the password field. *)
Definition processText (tool : PIITool) (inputValue : jsString)
    (methodValue : string) (passwordValue : jsString) : PIITool * Toast :=
  let inputText := trim inputValue in
  let how := if String.eqb methodValue "" then "mask"%string else methodValue in
  let password := passwordValue in
  if bool_decide (inputText = []) then (tool, (NoTextToProcess, error))
  else if length (detectedPII tool) =? 0 then (tool, (NoPIIDetected, error))
  else if String.eqb how "encrypt" && bool_decide (password = [])
  then (tool, (PasswordRequired, error))
  else if String.eqb how "encrypt" && (length password <? 8)
  then (tool, (PasswordTooShort, error))
  else
    let enabledCount :=
      foldl (fun n type =>
               n + match getEntry type (detectedPII tool) with
                   | Some data => count data
                   | None => 0
                   end)
            0 (elements (enabledTypes tool)) in
    if enabledCount =? 0 then (tool, (NoTypesSelected, warning))
    else
      let out := applyEncryption tool inputText how password in
      ({| detectedPII := detectedPII (fst out);
          enabledTypes := enabledTypes (fst out);
          processedText := snd out;
          processedData := processedData (fst out) |},
       (Processed (match processedData (fst out) with
                   | Some data => processedCount data
                   | None => 0
                   end) how, success)).

End Transformer.

(** *** Hashes and tokens

    The functions behind the methods hash and encrypt.  The calls into the
    Web Crypto interface are arguments here: the digest that
    [crypto.subtle.digest] returns, the bytes that [crypto.getRandomValues]
    fills in, and the ciphertext of [crypto.subtle.encrypt]; [None] stands
    for a call that throws, which the [catch] blocks turn into the
    fallbacks. *)

(** [ToInt32] on an integer. *)
Definition toInt32 (z : Z) : Z := ((z + 2 ^ 31) mod 2 ^ 32 - 2 ^ 31)%Z.

(** The [for] loop of [fallbackHash]: [hash << 5] is the product by 32 in
    32 bits, [hash & hash] brings the sum back to 32 bits. *)
Fixpoint hashLoop (chars : jsString) (hash : Z) : Z :=
  match chars with
  | [] => hash
  | c :: chars' =>
      let char := Z.of_N (code c) in
      let hash1 := (toInt32 (Z.shiftl hash 5) - hash + char)%Z in
      hashLoop chars' (toInt32 hash1)
  end.

Definition hexChar (n : N) : ascii :=
  nth (N.to_nat n) (str "0123456789abcdef") "0"%char.

(** The digits of [n.toString(16)] for a positive integer, last one first
    computed; [fuel] bounds the rounds, the number of bits of [n]
    suffices. *)
Fixpoint hexLoop (fuel : nat) (n : N) (digits : jsString) : jsString :=
  match fuel with
  | 0 => digits
  | S fuel' =>
      if (n =? 0)%N then digits
      else hexLoop fuel' (n / 16) (hexChar (n mod 16) :: digits)
  end.

(** [n.toString(16)] for a non-negative integer. *)
Definition toString16 (n : N) : jsString :=
  if (n =? 0)%N then str "0" else hexLoop (N.size_nat n) n [].

(** [fallbackHash(text)]. *)
Definition fallbackHash (text : jsString) : jsString :=
  substring (toString16 (Z.abs_N (hashLoop text 0))) 0 8.

(** [b.toString(16).padStart(2, '0')] for a byte. *)
Definition byteHex (b : ascii) : jsString :=
  [hexChar (code b / 16); hexChar (code b mod 16)].

(** [secureHash(text)], given what the digest of the text is. *)
Definition secureHashWith (digest : option jsString) (text : jsString)
  : jsString :=
  match digest with
  | Some hashBuffer => substring (concat (map byteHex hashBuffer)) 0 16
  | None => fallbackHash text
  end.

Definition base64Char (n : N) : ascii :=
  nth (N.to_nat n)
    (str "ABCDEFGHIJKLMNOPQRSTUVWXYZabcdefghijklmnopqrstuvwxyz0123456789+/")
    "="%char.

(** [btoa(s)] for a string of bytes. *)
Fixpoint btoa (s : jsString) : jsString :=
  match s with
  | [] => []
  | [a] =>
      let n := (code a * 65536)%N in
      [base64Char (n / 262144); base64Char (n / 4096 mod 64); "="%char;
       "="%char]
  | [a; b] =>
      let n := (code a * 65536 + code b * 256)%N in
      [base64Char (n / 262144); base64Char (n / 4096 mod 64);
       base64Char (n / 64 mod 64); "="%char]
  | a :: b :: c :: s' =>
      let n := (code a * 65536 + code b * 256 + code c)%N in
      base64Char (n / 262144) :: base64Char (n / 4096 mod 64)
      :: base64Char (n / 64 mod 64) :: base64Char (n mod 64) :: btoa s'
  end.

(** [a ^ b] on character codes. *)
Definition xorChar (a b : ascii) : ascii := ascii_of_N (N.lxor (code a) (code b)).

(** The loop of [demoEncrypt]: with an empty password [i % 0] is [NaN],
    [charCodeAt] gives [NaN] and the character stays as it is. *)
Definition demoXor (text password : jsString) : jsString :=
  imap (fun i c =>
          match password !! (i mod length password) with
          | Some k => xorChar c k
          | None => c
          end)
       text.

(** [demoEncrypt(text, password)]. *)
Definition demoEncrypt (text password : jsString) : jsString :=
  str "[DEMO:" ++ substring (btoa (demoXor text password)) 0 12 ++ str "...]".

(** [secureEncrypt(text, password)], given the salt and the IV drawn and
    what the cipher returns for them. *)
Definition secureEncryptWith (salt iv : jsString) (encrypted : option jsString)
    (text password : jsString) : jsString :=
  match encrypted with
  | Some bytes =>
      let combined := salt ++ iv ++ bytes in
      str "[ENC:" ++ substring (btoa combined) 0 24 ++ str "...]"
  | None => demoEncrypt text password
  end.

(** ** Specification-level definitions

    What the specification says in words, to be compared with the code. *)

(** The value of a decimal digit, none for any other character: the
    library's reading of a character as a digit. *)
Definition digitValue (c : ascii) : option nat := Ascii.is_nat c.

(** "Strip all non-digit characters." *)
Definition strippedDigits (s : jsString) : list nat := omap digitValue s.

(** "When [i % 2 == parity], double the digit and subtract 9 if the doubled
    value exceeds 9." *)
Definition luhnTerm (parity i digit : nat) : nat :=
  if i mod 2 =? parity then
    (if 9 <? 2 * digit then 2 * digit - 9 else 2 * digit)
  else digit.

(** "Sum all (possibly transformed) digits", [parity] being the number of
    digits modulo 2 and [i] the 0-based index from the left. *)
Definition luhnSum (digits : list nat) : nat :=
  sum_list (imap (luhnTerm (length digits mod 2)) digits).

(** "Reject if the resulting digit count is outside [13,19] ... accept iff
    [sum % 10 == 0]." *)
Definition luhnAccepts (s : jsString) : Prop :=
  13 <= length (strippedDigits s) <= 19
  /\ luhnSum (strippedDigits s) mod 10 = 0.

(** The least number of characters a match of a pattern consumes. *)
Fixpoint minLen (r : regex) : nat :=
  match r with
  | Empty => 0
  | Chars _ => 1
  | Cat r1 r2 => minLen r1 + minLen r2
  | Or r1 r2 => Nat.min (minLen r1) (minLen r2)
  | Repeat _ lo _ r1 => lo * minLen r1
  | WordBoundary => 0
  | NotAhead _ => 0
  end.

(** The invariant of a match with respect to the document it is a match in:
    the document holds the text of the match at its index. *)
Definition matchIn (D : jsString) (m : PIIMatch) : Prop :=
  substring D (index m) (index m + length (text m)) = text m.

(** The invariants of a detection result over a document: every match is in
    the document and every count is the length of its list of matches. *)
Definition entryIn (D : jsString) (kv : string * PIIData) : Prop :=
  Forall (matchIn D) (matches (snd kv)) /\ count (snd kv) = length (matches (snd kv)).

Definition detectedIn (D : jsString) (o : Detected) : Prop := Forall (entryIn D) o.

(** The identity of a match for the deduplicator: the pair of its index
    and its text. *)
Definition identity (m : PIIMatch) : nat * jsString := (index m, text m).

(** "Matches are merged preserving first-seen order; duplicate identity keys
    are dropped after the first occurrence": [earlier] holds the identities
    met so far. *)
Fixpoint dropRepeats (earlier : list (nat * jsString)) (ms : list PIIMatch)
  : list PIIMatch :=
  match ms with
  | [] => []
  | m :: ms' =>
      if decide (identity m ∈ earlier) then dropRepeats earlier ms'
      else m :: dropRepeats (identity m :: earlier) ms'
  end.

(** The triples [(categoryId, startOffset, text)] of a detection result. *)
Definition triples (o : Detected) : list (string * nat * jsString) :=
  concat (map (fun kv => map (fun m => (fst kv, index m, text m))
                             (matches (snd kv))) o).

(** The total number of matches of a detection result. *)
Definition totalMatches (o : Detected) : nat :=
  sum_list (map (fun kv => length (matches (snd kv))) o).

(** The document with the regions of a list of matches, given from right
    to left, replaced: a match whose region ends at or before the start of
    the ones before it in the list. *)
Fixpoint rendered (replacement : PIIMatch -> jsString)
    (rightToLeft : list PIIMatch) (D : jsString) : jsString :=
  match rightToLeft with
  | [] => D
  | m :: ms =>
      rendered replacement ms (take (index m) D)
        ++ replacement m ++ drop (index m + length (text m)) D
  end.

(** The regions of a list of matches lie in the document and do not
    overlap, from right to left: [limit] is where the region to the right
    starts. *)
Fixpoint separated (limit : nat) (rightToLeft : list PIIMatch) : Prop :=
  match rightToLeft with
  | [] => True
  | m :: ms => index m + length (text m) <= limit /\ separated (index m) ms
  end.

(** ** Definitions for the proofs *)

(** [reaches n c c']: position [c'] is at least [n] characters to the right
    of [c] in the same subject. *)
Definition reaches (n : nat) (c c' : cursor) : Prop :=
  exists pre, rest c = pre ++ rest c' /\ pos c' = pos c + length pre
              /\ n <= length pre.

(** A matcher is sound for [n] when the positions it hands to its
    continuation are at least [n] to the right of where it starts. *)
Definition sound (n : nat) (m : matcher) : Prop :=
  forall k c e, m k c = Some e -> exists c', reaches n c c' /\ k c' = Some e.

(** A cursor is a position of the subject. *)
Definition located (subject : jsString) (c : cursor) : Prop :=
  rest c = drop (pos c) subject /\ pos c <= length subject.

(** Two continuations agree from a position on. *)
Definition agree (x : cursor) (k1 k2 : continuation) : Prop :=
  forall y, reaches 0 x y -> k1 y = k2 y.

(** A matcher that looks at its continuation to the right of where it
    starts only. *)
Definition extensional (m : matcher) : Prop :=
  forall k1 k2 c, agree c k1 k2 -> m k1 c = m k2 c.

(** The decision taken on a candidate by the loop body: the three filters
    in their order. *)
Definition accepted (key : string) (pii : PIIPattern) (subject : jsString)
    (m : cursor * cursor) : bool :=
  negb (isJsonStructure
          (substring subject (Nat.max 0 (matchIndex m - 10)) (matchIndex m))
          (matchText m)
          (substring subject (matchIndex m + length (matchText m))
             (matchIndex m + length (matchText m) + 10)))
  && negb (contextAware pii && isCommonWord (matchText m))
  && (if String.eqb key "creditCard" && requiresLuhn pii
      then luhnCheck (matchText m) else true).

Definition recorded (o : nat) (m : cursor * cursor) : PIIMatch :=
  {| text := matchText m; index := matchIndex m + o |}.

(** A match moved by the offset of a chunk. *)
Definition shift (o : nat) (m : PIIMatch) : PIIMatch :=
  {| text := text m; index := index m + o |}.

(** Indices that increase strictly, from [lo] on. *)
Fixpoint increasingFrom (lo : nat) (ms : list PIIMatch) : Prop :=
  match ms with
  | [] => True
  | m :: ms' => lo <= index m /\ increasingFrom (S (index m)) ms'
  end.

(** Every count is the length of its list of matches. *)
Definition countsOk (o : Detected) : Prop :=
  Forall (fun kv => count (snd kv) = length (matches (snd kv))) o.

(** A chunk is a window of a document: its text is a slice of the document
    that starts at its offset. *)
Definition window (D : jsString) (chunk : Chunk) : Prop :=
  exists e, chunkText chunk = slice D (offset chunk) e.

(** An entry as the single pass makes it: matches of the subject at strictly
    increasing indices, and their count. *)
Definition standardEntry (s : jsString) (kv : string * PIIData) : Prop :=
  Forall (matchIn s) (matches (snd kv))
  /\ increasingFrom 0 (matches (snd kv))
  /\ count (snd kv) = length (matches (snd kv)).

(** The patterns of a list cannot match the empty string. *)
Definition consuming (patterns : list (string * PIIPattern)) : Prop :=
  Forall (fun kp => 0 < minLen (source (pattern (snd kp)))) patterns.

(** The window of [size] characters of a document that starts at [i], cut
    at the end of the document. *)
Definition windowAt (size : nat) (D : jsString) (i : nat) : Chunk :=
  {| chunkText := slice D i (Nat.min (i + size) (length D)); offset := i |}.

(** A chunk holds the characters of the document from [a] up to [b]. *)
Definition covers (D : jsString) (a b : nat) (chunk : Chunk) : Prop :=
  offset chunk <= a
  /\ b <= offset chunk + length (chunkText chunk)
  /\ slice D a b = slice (chunkText chunk) (a - offset chunk) (b - offset chunk).

(** The number of matches that belong to enabled categories. *)
Definition enabledTotal (tool : PIITool) : nat :=
  sum_list (map (fun kv => if bool_decide (fst kv ∈ enabledTypes tool)
                           then length (matches (snd kv)) else 0)
                (detectedPII tool)).

(** One splice of [applyEncryption]: the region of [m] in [t] replaced by
    [r]. *)
Definition splice (r : jsString) (t : jsString) (m : PIIMatch) : jsString :=
  slice t 0 (index m) ++ r ++ sliceFrom t (index m + length (text m)).

(** A list of matches in descending order of index. *)
Definition descending (ms : list PIIMatch) : Prop :=
  StronglySorted (fun a b => index b <= index a) ms.

(** The four methods of the selector. *)
Definition knownMethod (how : string) : Prop :=
  how = "mask"%string \/ how = "hash"%string \/ how = "encrypt"%string
  \/ how = "redact"%string.

(** The example document of the specification. *)
Definition emailDocument : jsString := str "Contact john.doe@email.com now".

(** A document of more than [largeTextLimit] characters in which an e-mail
    address starts 17 characters before the end of the first window: the
    first window ends after "john.doe@email.co". *)
Definition boundaryDocument : jsString :=
  "#"%char
  :: (replicate (chunkSize - 18) " "%char ++ str "john.doe@email.com"
      ++ replicate (4 * chunkSize) " "%char)
  ++ ["#"%char].

(** The match that only the first window sees. *)
Definition cutTriple : string * nat * jsString :=
  ("email"%string, chunkSize - 17, str "john.doe@email.co").

(** The tool after the analysis of a document, or the tool as it was when
    the analysis does not end. *)
Definition analyzed (tool : PIITool) (inputValue : jsString) : PIITool :=
  match analyzeText tool inputValue with
  | Some (tool', _) => tool'
  | None => tool
  end.

(** Stand-ins for the two Web Crypto backed functions, where a statement
    needs some. *)
Definition noHash (t : jsString) : jsString := t.
Definition noEncrypt (call : nat) (t password : jsString) : jsString := t.

(** *** What a pattern matches

    A reading of the patterns that does not go through continuations: the
    pairs of positions between which a pattern matches.  A lookahead is read
    through the matcher itself. *)

(** [n] steps of a relation between positions. *)
Fixpoint iterated (R : cursor -> cursor -> Prop) (n : nat) (c c' : cursor)
  : Prop :=
  match n with
  | 0 => c' = c
  | S n' => exists mid, R c mid /\ iterated R n' mid c'
  end.

Definition withinMax (n : nat) (hi : option nat) : Prop :=
  match hi with None => True | Some h => n <= h end.

Fixpoint spans (F : nat) (r : regex) (c c' : cursor) : Prop :=
  match r with
  | Empty => c' = c
  | Chars cls =>
      exists a s, rest c = a :: s /\ cls (code a) = true
                  /\ c' = Cursor (Some a) s (S (pos c))
  | Cat r1 r2 => exists mid, spans F r1 c mid /\ spans F r2 mid c'
  | Or r1 r2 => spans F r1 c c' \/ spans F r2 c c'
  | Repeat _ lo hi r1 =>
      exists n, lo <= n /\ withinMax n hi /\ iterated (spans F r1) n c c'
  | WordBoundary => c' = c /\ xorb (wordBefore c) (wordAfter c) = true
  | NotAhead r1 => c' = c /\ run F r1 Some c = None
  end.

(** A matcher hands to its continuation ends of spans of the pattern
    only. *)
Definition faithful (F : nat) (r : regex) (m : matcher) : Prop :=
  forall k c e, m k c = Some e -> exists c', spans F r c c' /\ k c' = Some e.

(** What the loop body has recorded a match from: a result of [exec] at a
    position of the subject, which the filters accepted. *)
Definition foundBy (key : string) (pii : PIIPattern) (s : jsString)
    (m : PIIMatch) : Prop :=
  exists c mm,
    located s c /\ exec (pattern pii) s c = Some mm
    /\ accepted key pii s mm = true /\ m = recorded 0 mm.

(** The same for a text alone, whatever the subject. *)
Definition candidate (key : string) (pii : PIIPattern) (t : jsString) : Prop :=
  exists s m, foundBy key pii s m /\ t = text m.

(** Matches one after the other: each starts at or after the end of the
    one before, the first at or after [lo]. *)
Fixpoint apartFrom (lo : nat) (ms : list PIIMatch) : Prop :=
  match ms with
  | [] => True
  | m :: ms' => lo <= index m /\ apartFrom (index m + length (text m)) ms'
  end.

(** An entry of a detection result belongs to the catalogue: its key is a
    key of the catalogue and what it carries of the pattern is the pattern
    of that key. *)
Definition listed (kv : string * PIIData) : Prop :=
  (fst kv, info (snd kv)) ∈ sortedPatterns.

(** An entry as the single pass over [D] makes it. *)
Definition singlePassEntry (D : jsString) (kv : string * PIIData) : Prop :=
  listed kv
  /\ Forall (foundBy (fst kv) (info (snd kv)) D) (matches (snd kv))
  /\ apartFrom 0 (matches (snd kv))
  /\ matches (snd kv) <> []
  /\ count (snd kv) = length (matches (snd kv)).

(** An entry as the chunks make it. *)
Definition chunkedEntry (kv : string * PIIData) : Prop :=
  listed kv
  /\ Forall (fun m => candidate (fst kv) (info (snd kv)) (text m))
       (matches (snd kv))
  /\ matches (snd kv) <> []
  /\ count (snd kv) = length (matches (snd kv)).

(** The pattern of a key of the catalogue. *)
Fixpoint patternOf (key : string) (patterns : list (string * PIIPattern))
  : option PIIPattern :=
  match patterns with
  | [] => None
  | (k, pii) :: patterns' =>
      if String.eqb k key then Some pii else patternOf key patterns'
  end.

(** A match is not written as a key in the document: a quote right before
    it and a quote and a colon right after it. *)
Definition writtenAsKey (D : jsString) (m : PIIMatch) : bool :=
  endsWith (take (index m) D) [dquote]
  && startsWith (drop (index m + length (text m)) D) [dquote; ":"%char].

(** The words of a pattern, read as a regular expression: assertions hold
    the empty word. *)
Fixpoint lang (r : regex) (w : jsString) : Prop :=
  match r with
  | Empty => w = []
  | Chars cls => exists a, w = [a] /\ cls (code a) = true
  | Cat r1 r2 => exists w1 w2, w = w1 ++ w2 /\ lang r1 w1 /\ lang r2 w2
  | Or r1 r2 => lang r1 w \/ lang r2 w
  | Repeat _ lo hi r1 =>
      exists ws, lo <= length ws /\ withinMax (length ws) hi
                 /\ Forall (lang r1) ws /\ w = concat ws
  | WordBoundary => w = []
  | NotAhead _ => w = []
  end.

(** The characters between two positions, the second one reached from the
    first. *)
Definition between (c c' : cursor) : jsString :=
  take (pos c' - pos c) (rest c).

(** [detectedPII[key].matches], nothing when the key is absent. *)
Definition matchesOf (key : string) (o : Detected) : list PIIMatch :=
  match getEntry key o with
  | Some data => matches data
  | None => []
  end.

(** The pattern and the priority an entry carries. *)
Definition carried (kv : string * PIIData) : string * PIIPattern :=
  (fst kv, info (snd kv)).

Definition priorityOf (kp : string * PIIPattern) : nat :=
  orElse99 (priority (snd kp)).

(** The doubling step of the Luhn sum on one digit. *)
Definition luhnDouble (digit : nat) : nat :=
  if 9 <? 2 * digit then 2 * digit - 9 else 2 * digit.

(** A position of the document lies in the region of one of the matches. *)
Definition covered (ms : list PIIMatch) (p : nat) : bool :=
  existsb (fun m => (index m <=? p) && (p <? index m + length (text m))) ms.

(** A string of white space only: what [trim] turns into the empty
    string. *)
Definition blank (s : jsString) : bool := forallb (fun c => isSpace (code c)) s.

(** The value of a text as a number in base 31, first character first:
    what [fallbackHash] computes modulo [2 ^ 32]. *)
Definition base31 (text : jsString) : Z :=
  foldl (fun h c => (31 * h + Z.of_N (code c))%Z) 0%Z text.

(** The shape of an e-mail address of the catalogue: a local part, an at
    sign, a domain, a dot and an ending of two characters or more, each
    character of the ending a letter or a bar. *)
Definition addressShape (t : jsString) : Prop :=
  exists local domain ending,
    t = local ++ "@"%char :: domain ++ "."%char :: ending
    /\ 1 <= length local /\ 1 <= length domain /\ 2 <= length ending
    /\ Forall (fun a => either (either upper (oneOf "|")) lower (code a) = true)
         ending.

(** ** Properties *)

(** *** Strings *)

Lemma substring_ordered (s : jsString) (a b : nat) :
  a <= b -> substring s a b = take (b - a) (drop a s).
Proof.
  intros Hab. unfold substring.
  rewrite Nat.max_r, Nat.min_l by lia. reflexivity.
Qed.

Lemma substring_slice (s : jsString) (a b : nat) :
  a <= b -> substring s a b = slice s a b.
Proof. apply substring_ordered. Qed.

Lemma startsWith_spec (s p : jsString) :
  startsWith s p = true <-> exists t, s = p ++ t.
Proof.
  revert s. induction p as [|x p IH]; intros s; simpl.
  - split; [intros _; exists s; reflexivity | reflexivity].
  - destruct s as [|y s]; simpl.
    + split; [discriminate | intros [t Ht]; discriminate].
    + rewrite andb_true_iff, IH. split.
      * intros [Hxy [t ->]]. apply Ascii.eqb_eq in Hxy as ->. eauto.
      * intros [t Ht]. injection Ht as -> ->. rewrite Ascii.eqb_refl. eauto.
Qed.

Lemma endsWith_spec (s p : jsString) :
  endsWith s p = true <-> exists t, s = t ++ p.
Proof.
  unfold endsWith. rewrite startsWith_spec. split.
  - intros [t Ht]. exists (rev t).
    rewrite <- (rev_involutive s), Ht, rev_app_distr, rev_involutive.
    reflexivity.
  - intros [t ->]. exists (rev t). apply rev_app_distr.
Qed.

(** A string with no white space at its ends is what [trim] returns. *)
Lemma trim_clean (a b : ascii) (mid : jsString) :
  isSpace (code a) = false -> isSpace (code b) = false ->
  trim (a :: mid ++ [b]) = a :: mid ++ [b].
Proof.
  intros Ha Hb. unfold trim, trimEnd. cbn [trimStart]. rewrite Ha.
  change (a :: mid ++ [b]) with ((a :: mid) ++ [b]).
  rewrite rev_app_distr. cbn [rev app trimStart]. rewrite Hb.
  change (b :: rev mid ++ [a]) with ([b] ++ rev (a :: mid)).
  rewrite rev_app_distr, rev_involutive. reflexivity.
Qed.

(** *** The checksum *)

Lemma digitValue_code (c : ascii) :
  digitValue c = if digit (code c) then Some (N.to_nat (code c - 48)) else None.
Proof. destruct c as [[] [] [] [] [] [] [] []]; reflexivity. Qed.

Lemma digitsOf_stripped (s : jsString) : digitsOf s = strippedDigits s.
Proof.
  unfold digitsOf, strippedDigits.
  induction s as [|c s IH]; [reflexivity|].
  cbn [List.filter omap list_omap]. rewrite digitValue_code.
  destruct (digit (code c)); cbn [map]; rewrite IH; reflexivity.
Qed.

Lemma luhnLoop_sum (parity : nat) (digits : list nat) (i checksum : nat) :
  luhnLoop parity i digits checksum
  = checksum + sum_list (imap (fun j => luhnTerm parity (i + j)) digits).
Proof.
  revert i checksum. induction digits as [|x digits IH]; intros i checksum.
  - simpl. lia.
  - cbn [luhnLoop imap sum_list sum_list_with]. rewrite IH.
    rewrite Nat.add_0_r. unfold luhnTerm at 2.
    replace (x * 2) with (2 * x) by lia.
    rewrite <- Nat.add_assoc. f_equal. f_equal. f_equal.
    apply imap_ext. intros j y _. simpl. f_equal. lia.
Qed.

(** *** The matcher *)

Lemma reaches_refl (c : cursor) : reaches 0 c c.
Proof. exists []. simpl. split; [reflexivity | split; lia]. Qed.

Lemma reaches_trans (n1 n2 : nat) (c1 c2 c3 : cursor) :
  reaches n1 c1 c2 -> reaches n2 c2 c3 -> reaches (n1 + n2) c1 c3.
Proof.
  intros (p1 & H1 & P1 & L1) (p2 & H2 & P2 & L2). exists (p1 ++ p2).
  rewrite length_app, <- app_assoc, <- H2. repeat split; [assumption | lia | lia].
Qed.

Lemma reaches_weaken (n n' : nat) (c c' : cursor) :
  n' <= n -> reaches n c c' -> reaches n' c c'.
Proof. intros Hn (p & H & P & L). exists p. repeat split; [assumption.. | lia]. Qed.

Lemma repeatMatcher_sound (m : matcher) (mu : nat) (greedy : bool) (lo : nat)
    (hi : option nat) (k : continuation) :
  sound mu m ->
  forall fuel n x e,
    repeatMatcher m greedy lo hi k fuel n x = Some e ->
    exists c', reaches ((lo - n) * mu) x c' /\ k c' = Some e.
Proof.
  intros Hm. induction fuel as [|fuel IH]; intros n x e; [discriminate|].
  cbn [repeatMatcher].
  assert (Hagain : forall e',
    (if belowMax n hi
     then m (fun y => if (lo <=? n) && (pos y <=? pos x) then None
                      else repeatMatcher m greedy lo hi k fuel (S n) y) x
     else None) = Some e' ->
    exists c', reaches ((lo - n) * mu) x c' /\ k c' = Some e').
  { intros e'. destruct (belowMax n hi); [|discriminate].
    intros H. apply Hm in H as (y & Hxy & Hy).
    destruct ((lo <=? n) && (pos y <=? pos x)); [discriminate|].
    apply IH in Hy as (c' & Hyc & Hk). exists c'. split; [|assumption].
    eapply reaches_weaken; [|exact (reaches_trans _ _ _ _ _ Hxy Hyc)].
    destruct (Nat.le_gt_cases lo n) as [Hlo|Hlo].
    - replace (lo - n) with 0 by lia. lia.
    - replace (lo - n) with (S (lo - S n)) by lia. lia. }
  assert (Hstop : forall e', lo <= n -> k x = Some e' ->
    exists c', reaches ((lo - n) * mu) x c' /\ k c' = Some e').
  { intros e' Hlo Hk. exists x. split; [|assumption].
    replace (lo - n) with 0 by lia. apply reaches_refl. }
  destruct (n <? lo) eqn:Hn; [apply Hagain|].
  apply Nat.ltb_ge in Hn.
  destruct greedy.
  - destruct (if belowMax n hi then _ else _) eqn:Ha.
    + intros [= <-]. apply Hagain. first [assumption | reflexivity].
    + apply Hstop. assumption.
  - destruct (k x) eqn:Hk.
    + intros [= <-]. apply Hstop; first [assumption | reflexivity].
    + apply Hagain.
Qed.

Lemma run_sound (F : nat) (r : regex) : sound (minLen r) (run F r).
Proof.
  induction r as [|cls|r1 IH1 r2 IH2|r1 IH1 r2 IH2|greedy lo hi r1 IH1| |r1 IH1];
    intros k c e; cbn [run minLen].
  - intros H. exists c. split; [apply reaches_refl | assumption].
  - destruct (rest c) as [|a s] eqn:Hrest; [discriminate|].
    destruct (cls (code a)); [|discriminate].
    intros H. eexists. split; [|exact H].
    exists [a]. simpl. repeat split; [assumption | lia | lia].
  - intros H. apply IH1 in H as (c1 & H1 & H). apply IH2 in H as (c2 & H2 & H).
    exists c2. split; [exact (reaches_trans _ _ _ _ _ H1 H2) | assumption].
  - destruct (run F r1 k c) eqn:H1.
    + intros [= <-]. apply IH1 in H1 as (c' & Hc & Hk). exists c'.
      split; [|assumption]. eapply reaches_weaken; [|exact Hc]. lia.
    + intros H2. apply IH2 in H2 as (c' & Hc & Hk). exists c'.
      split; [|assumption]. eapply reaches_weaken; [|exact Hc]. lia.
  - intros H. eapply repeatMatcher_sound in H; [|exact IH1].
    rewrite Nat.sub_0_r in H. exact H.
  - destruct (xorb _ _); [|discriminate]. intros H. exists c.
    split; [apply reaches_refl | assumption].
  - destruct (run F r1 Some c); [discriminate|]. intros H. exists c.
    split; [apply reaches_refl | assumption].
Qed.

Lemma search_sound (F : nat) (r : regex) (s : jsString) :
  forall prev i c1 c2,
    search F r prev s i = Some (c1, c2) ->
    (exists pre, s = pre ++ rest c1 /\ pos c1 = i + length pre)
    /\ reaches (minLen r) c1 c2.
Proof.
  induction s as [|a s IH]; intros prev i c1 c2; cbn [search].
  - destruct (run F r Some _) eqn:Hrun.
    + intros [= <- <-]. apply run_sound in Hrun as (c' & Hc & [= ->]).
      split; [|assumption]. exists []. simpl. split; [reflexivity | lia].
    + discriminate.
  - destruct (run F r Some _) eqn:Hrun.
    + intros [= <- <-]. apply run_sound in Hrun as (c' & Hc & [= ->]).
      split; [|assumption]. exists []. simpl. split; [reflexivity | lia].
    + intros H. apply IH in H as ((pre & Hs & Hp) & Hr). split; [|assumption].
      exists (a :: pre). simpl. split; [congruence | lia].
Qed.

Lemma located_startOf (subject : jsString) : located subject (startOf subject).
Proof. split; simpl; [reflexivity | lia]. Qed.

Lemma located_reaches (subject : jsString) (n : nat) (c c' : cursor) :
  located subject c -> reaches n c c' -> located subject c'.
Proof.
  intros [Hr Hp] (pre & H & P & _).
  assert (Hlen : length (rest c) = length subject - pos c)
    by (rewrite Hr; apply length_drop).
  rewrite H, length_app in Hlen.
  split; [|lia].
  rewrite P, <- drop_drop, <- Hr, H, drop_app_length. reflexivity.
Qed.

(** What [exec] returns: a match lies in the subject at or after
    [lastIndex], its text is the part of the subject between its two ends and
    has at least the minimal length of the pattern. *)
Lemma exec_sound (re : RegExp) (subject : jsString) (c : cursor)
    (m : cursor * cursor) :
  located subject c -> exec re subject c = Some m ->
  located subject (snd m)
  /\ pos c <= matchIndex m
  /\ pos (snd m) = matchIndex m + length (matchText m)
  /\ minLen (source re) <= length (matchText m)
  /\ matchText m = take (length (matchText m)) (drop (matchIndex m) subject).
Proof.
  intros Hc. unfold exec. destruct m as [c1 c2]. intros H.
  apply search_sound in H as ((pre & Hs & Hp) & Hr).
  assert (H1 : located subject c1).
  { apply (located_reaches subject 0 c); [assumption|].
    exists pre. repeat split; [assumption.. | lia]. }
  pose proof (located_reaches _ _ _ _ H1 Hr) as H2.
  destruct Hr as (mid & Hm & Pm & Lm).
  assert (Ht : matchText (c1, c2) = mid).
  { unfold matchText. simpl. rewrite Pm, Hm.
    replace (pos c1 + length mid - pos c1) with (length mid) by lia.
    apply take_app_length. }
  unfold matchIndex. simpl. rewrite Ht.
  repeat split; [apply H2 | apply H2 | lia | assumption | assumption |].
  destruct H1 as [<- _]. rewrite Hm. symmetry. apply take_app_length.
Qed.

(** *** The fuel of the matcher *)

Lemma agree_further (x y : cursor) (k1 k2 : continuation) :
  agree x k1 k2 -> reaches 0 x y -> agree y k1 k2.
Proof.
  intros H Hxy z Hyz. apply H. exact (reaches_trans 0 0 _ _ _ Hxy Hyz).
Qed.

Lemma reaches_rest (n : nat) (x y : cursor) :
  reaches n x y ->
  length (rest y) <= length (rest x)
  /\ (pos x < pos y -> length (rest y) < length (rest x)).
Proof.
  intros (pre & H & P & _). rewrite H, length_app. split; lia.
Qed.

(** A repetition hands to its matcher and to its continuation positions to
    the right only, so it depends on them there only. *)
Lemma repeatMatcher_ext (m1 m2 : matcher) (greedy : bool) (lo : nat)
    (hi : option nat) (k1 k2 : continuation) :
  extensional m2 ->
  forall fuel n x,
    (forall k y, reaches 0 x y -> m1 k y = m2 k y) ->
    agree x k1 k2 ->
    repeatMatcher m1 greedy lo hi k1 fuel n x
    = repeatMatcher m2 greedy lo hi k2 fuel n x.
Proof.
  intros Hext. induction fuel as [|fuel IH]; intros n x Hm Hk; [reflexivity|].
  cbn [repeatMatcher].
  assert (Hagain :
    (if belowMax n hi
     then m1 (fun y => if (lo <=? n) && (pos y <=? pos x) then None
                       else repeatMatcher m1 greedy lo hi k1 fuel (S n) y) x
     else None)
    = (if belowMax n hi
       then m2 (fun y => if (lo <=? n) && (pos y <=? pos x) then None
                         else repeatMatcher m2 greedy lo hi k2 fuel (S n) y) x
       else None)).
  { destruct (belowMax n hi); [|reflexivity].
    rewrite (Hm _ x (reaches_refl x)). apply Hext. intros y Hy.
    destruct ((lo <=? n) && (pos y <=? pos x)); [reflexivity|].
    apply IH.
    - intros k z Hz. apply Hm. exact (reaches_trans 0 0 _ _ _ Hy Hz).
    - eapply agree_further; eassumption. }
  rewrite Hagain, (Hk x (reaches_refl x)). reflexivity.
Qed.

Lemma run_extensional (F : nat) (r : regex) : extensional (run F r).
Proof.
  induction r as [|cls|r1 IH1 r2 IH2|r1 IH1 r2 IH2|greedy lo hi r1 IH1| |r1 IH1];
    intros k1 k2 c Hk; cbn [run].
  - apply Hk, reaches_refl.
  - destruct (rest c) as [|a s] eqn:Hrest; [reflexivity|].
    destruct (cls (code a)); [|reflexivity].
    apply Hk. exists [a]. cbn. repeat split; [assumption | lia | lia].
  - apply IH1. intros y Hy. apply IH2. eapply agree_further; eassumption.
  - rewrite (IH1 k1 k2 c Hk), (IH2 k1 k2 c Hk). reflexivity.
  - apply repeatMatcher_ext; [exact IH1 | reflexivity | exact Hk].
  - rewrite (Hk c (reaches_refl c)). reflexivity.
  - rewrite (Hk c (reaches_refl c)). reflexivity.
Qed.

(** Fuel beyond the iterations still to do below the lower bound, plus one
    per character left, changes nothing. *)
Lemma repeatMatcher_fuel (m : matcher) (greedy : bool) (lo : nat)
    (hi : option nat) (k : continuation) :
  extensional m ->
  forall fuel fuel' n x,
    (lo - n) + length (rest x) < fuel ->
    (lo - n) + length (rest x) < fuel' ->
    repeatMatcher m greedy lo hi k fuel n x
    = repeatMatcher m greedy lo hi k fuel' n x.
Proof.
  intros Hext. induction fuel as [|fuel IH]; intros fuel' n x Hf Hf'; [lia|].
  destruct fuel' as [|fuel']; [lia|]. cbn [repeatMatcher].
  assert (Hagain :
    (if belowMax n hi
     then m (fun y => if (lo <=? n) && (pos y <=? pos x) then None
                      else repeatMatcher m greedy lo hi k fuel (S n) y) x
     else None)
    = (if belowMax n hi
       then m (fun y => if (lo <=? n) && (pos y <=? pos x) then None
                        else repeatMatcher m greedy lo hi k fuel' (S n) y) x
       else None)).
  { destruct (belowMax n hi); [|reflexivity].
    apply Hext. intros y Hy. apply reaches_rest in Hy as [Hle Hlt].
    destruct (Nat.leb_spec lo n) as [Hlo|Hlo]; cbn [andb].
    - destruct (Nat.leb_spec (pos y) (pos x)) as [Hp|Hp]; [reflexivity|].
      specialize (Hlt Hp). apply IH; lia.
    - apply IH; lia. }
  rewrite Hagain. reflexivity.
Qed.

(** The result of the matcher does not depend on its fuel, once the fuel
    exceeds the number of characters left in the subject: [exec] gives it
    one more than the length of the subject. *)
Lemma run_fuel (r : regex) :
  forall F F' k c,
    length (rest c) < F -> length (rest c) < F' ->
    run F r k c = run F' r k c.
Proof.
  induction r as [|cls|r1 IH1 r2 IH2|r1 IH1 r2 IH2|greedy lo hi r1 IH1| |r1 IH1];
    intros F F' k c HF HF'; cbn [run]; try reflexivity.
  - rewrite (IH1 F F' _ c HF HF'). apply run_extensional. intros y Hy.
    apply reaches_rest in Hy as [Hle _]. apply IH2; lia.
  - rewrite (IH1 F F' k c HF HF'), (IH2 F F' k c HF HF'). reflexivity.
  - rewrite (repeatMatcher_fuel (run F r1) greedy lo hi k (run_extensional F r1)
               (lo + F) (lo + F') 0 c) by lia.
    apply repeatMatcher_ext; [apply run_extensional | | intros y _; reflexivity].
    intros k' y Hy. apply reaches_rest in Hy as [Hle _]. apply IH1; lia.
  - rewrite (IH1 F F' Some c HF HF'). reflexivity.
Qed.

Lemma search_fuel (r : regex) (s : jsString) :
  forall F F' prev i,
    length s < F -> length s < F' ->
    search F r prev s i = search F' r prev s i.
Proof.
  induction s as [|a s IH]; intros F F' prev i HF HF'; cbn [search].
  - rewrite (run_fuel r F F' Some (Cursor prev [] i)) by assumption. reflexivity.
  - rewrite (run_fuel r F F' Some (Cursor prev (a :: s) i)) by assumption.
    destruct (run F' r Some _); [reflexivity|].
    cbn [length] in HF, HF'. apply IH; lia.
Qed.

(** *** Scanning one category *)

Lemma scanStandard_step (fuel : nat) (key : string) (pii : PIIPattern)
    (s : jsString) (c : cursor) (found : list PIIMatch) :
  scanStandard (S fuel) key pii s c found
  = match exec (pattern pii) s c with
    | None => Some found
    | Some m =>
        let found' :=
          if accepted key pii s m then found ++ [recorded 0 m] else found in
        if global (pattern pii) then scanStandard fuel key pii s (snd m) found'
        else Some found'
    end.
Proof.
  cbn [scanStandard]. destruct (exec (pattern pii) s c) as [m|]; [|reflexivity].
  unfold accepted, recorded. rewrite Nat.add_0_r.
  destruct (isJsonStructure _ _ _); [reflexivity|].
  destruct (contextAware pii && isCommonWord (matchText m)); [reflexivity|].
  destruct (String.eqb key "creditCard" && requiresLuhn pii); [|reflexivity].
  destruct (luhnCheck (matchText m)); reflexivity.
Qed.

Lemma scanChunk_step (fuel : nat) (key : string) (pii : PIIPattern)
    (chunk : Chunk) (c : cursor) (found : list PIIMatch) :
  scanChunk (S fuel) key pii chunk c found
  = match exec (pattern pii) (chunkText chunk) c with
    | None => Some found
    | Some m =>
        let found' :=
          if accepted key pii (chunkText chunk) m
          then found ++ [recorded (offset chunk) m] else found in
        if global (pattern pii) then scanChunk fuel key pii chunk (snd m) found'
        else Some found'
    end.
Proof.
  cbn [scanChunk].
  destruct (exec (pattern pii) (chunkText chunk) c) as [m|]; [|reflexivity].
  unfold accepted, recorded.
  destruct (isJsonStructure _ _ _); [reflexivity|].
  destruct (contextAware pii && isCommonWord (matchText m)); [reflexivity|].
  destruct (String.eqb key "creditCard" && requiresLuhn pii); [|reflexivity].
  destruct (luhnCheck (matchText m)); reflexivity.
Qed.

(** The scan of a chunk finds what the scan of its text finds, moved by its
    offset. *)
Lemma scanChunk_shift (key : string) (pii : PIIPattern) (chunk : Chunk) :
  forall fuel c found,
    scanChunk fuel key pii chunk c (map (shift (offset chunk)) found)
    = map (shift (offset chunk))
        <$> scanStandard fuel key pii (chunkText chunk) c found.
Proof.
  induction fuel as [|fuel IH]; intros c found; [reflexivity|].
  rewrite scanChunk_step, scanStandard_step.
  destruct (exec (pattern pii) (chunkText chunk) c) as [m|]; [|reflexivity].
  cbn zeta.
  assert (Hf : (if accepted key pii (chunkText chunk) m
                then map (shift (offset chunk)) found ++ [recorded (offset chunk) m]
                else map (shift (offset chunk)) found)
               = map (shift (offset chunk))
                   (if accepted key pii (chunkText chunk) m
                    then found ++ [recorded 0 m] else found)).
  { destruct (accepted _ _ _ _); [|reflexivity].
    rewrite map_app. cbn [map]. unfold shift, recorded. cbn [text index].
    rewrite Nat.add_0_r. reflexivity. }
  rewrite Hf. destruct (global (pattern pii)); [apply IH | reflexivity].
Qed.

Lemma increasingFrom_weaken (lo lo' : nat) (ms : list PIIMatch) :
  lo' <= lo -> increasingFrom lo ms -> increasingFrom lo' ms.
Proof. destruct ms as [|m ms]; simpl; [tauto|]. intros ? [? ?]. split; [lia|assumption]. Qed.

Lemma increasingFrom_app (lo : nat) (ms : list PIIMatch) (m : PIIMatch) (ms' : list PIIMatch) :
  increasingFrom lo (m :: ms') -> increasingFrom lo ([m] ++ ms').
Proof. tauto. Qed.

Lemma recorded_matchIn (re : RegExp) (s : jsString) (c : cursor) (m : cursor * cursor) :
  located s c -> exec re s c = Some m -> matchIn s (recorded 0 m).
Proof.
  intros Hc He. destruct (exec_sound _ _ _ _ Hc He) as (_ & _ & _ & _ & Ht).
  unfold matchIn, recorded. cbn [text index]. rewrite Nat.add_0_r.
  rewrite substring_ordered by lia.
  replace (matchIndex m + length (matchText m) - matchIndex m)
    with (length (matchText m)) by lia.
  symmetry. exact Ht.
Qed.

(** What a scan adds: matches of the subject, at strictly increasing
    indices from [lastIndex] on. *)
Lemma scanStandard_sound (key : string) (pii : PIIPattern) (s : jsString) :
  0 < minLen (source (pattern pii)) ->
  forall fuel c found res,
    located s c ->
    scanStandard fuel key pii s c found = Some res ->
    exists new, res = found ++ new /\ Forall (matchIn s) new
                /\ increasingFrom (pos c) new.
Proof.
  intros Hmin. induction fuel as [|fuel IH]; intros c found res Hc; [discriminate|].
  rewrite scanStandard_step.
  destruct (exec (pattern pii) s c) as [m|] eqn:He.
  2:{ intros [= <-]. exists []. rewrite app_nil_r. repeat split. constructor. }
  destruct (exec_sound _ _ _ _ Hc He) as (Hm & Hle & Hend & Hlen & _).
  pose proof (recorded_matchIn _ _ _ _ Hc He) as Hin.
  assert (Hidx : index (recorded 0 m) = matchIndex m)
    by (cbn; lia).
  cbn zeta. destruct (global (pattern pii)).
  - intros H. apply IH in H as (new & -> & Hnew & Hinc); [|assumption].
    assert (Hinc' : increasingFrom (S (matchIndex m)) new)
      by (eapply increasingFrom_weaken; [|exact Hinc]; lia).
    destruct (accepted key pii s m).
    + exists (recorded 0 m :: new). rewrite <- app_assoc.
      split; [reflexivity|]. split; [constructor; assumption|].
      cbn [increasingFrom]. rewrite Hidx. split; [lia | assumption].
    + exists new. split; [reflexivity|]. split; [assumption|].
      eapply increasingFrom_weaken; [|exact Hinc']. lia.
  - intros [= <-]. destruct (accepted key pii s m).
    + exists [recorded 0 m]. split; [reflexivity|].
      split; [constructor; [assumption | constructor]|].
      cbn [increasingFrom]. rewrite Hidx. split; [lia | exact I].
    + exists []. rewrite app_nil_r. repeat split. constructor.
Qed.

(** A scan ends: with a pattern that cannot match the empty string, every
    round moves [lastIndex] to the right. *)
Lemma scanStandard_total (key : string) (pii : PIIPattern) (s : jsString) :
  0 < minLen (source (pattern pii)) ->
  forall fuel c found,
    located s c -> length s - pos c < fuel ->
    exists res, scanStandard fuel key pii s c found = Some res.
Proof.
  intros Hmin. induction fuel as [|fuel IH]; intros c found Hc Hfuel; [lia|].
  rewrite scanStandard_step.
  destruct (exec (pattern pii) s c) as [m|] eqn:He; [|eauto].
  destruct (exec_sound _ _ _ _ Hc He) as (Hm & Hle & Hend & Hlen & _).
  cbn zeta. destruct (global (pattern pii)); [|eauto].
  apply IH; [assumption|]. destruct Hm as [_ Hm]. lia.
Qed.

(** *** The store of detection results *)

Lemma getEntry_setEntry_ne (key k : string) (v : PIIData) (o : Detected) :
  k <> key -> getEntry k (setEntry key v o) = getEntry k o.
Proof.
  intros Hne. induction o as [|[k' w] o IH]; cbn [setEntry getEntry].
  - destruct (String.eqb_spec key k); [congruence | reflexivity].
  - destruct (String.eqb_spec k' key) as [->|Hk]; cbn [getEntry].
    + destruct (String.eqb_spec key k); [congruence | reflexivity].
    + rewrite IH. reflexivity.
Qed.

Lemma setEntry_fresh (key : string) (v : PIIData) (o : Detected) :
  getEntry key o = None -> setEntry key v o = o ++ [(key, v)].
Proof.
  induction o as [|[k w] o IH]; cbn [setEntry getEntry]; [reflexivity|].
  destruct (String.eqb k key); [discriminate|].
  intros H. rewrite IH by assumption. reflexivity.
Qed.

Lemma setEntry_Forall (P : PIIData -> Prop) (key : string) (v : PIIData)
    (o : Detected) :
  Forall (fun kv => P (snd kv)) o -> P v ->
  Forall (fun kv => P (snd kv)) (setEntry key v o).
Proof.
  intros Ho Hv. induction Ho as [|[k w] o Hw Ho IH]; cbn [setEntry].
  - constructor; [assumption | constructor].
  - destruct (String.eqb k key); constructor; assumption.
Qed.

Lemma pushMatches_Forall (P : PIIData -> Prop) (key : string)
    (found : list PIIMatch) (o : Detected) :
  Forall (fun kv => P (snd kv)) o ->
  (forall v, P v ->
     P {| matches := matches v ++ found; count := count v + length found;
          info := info v |}) ->
  Forall (fun kv => P (snd kv)) (pushMatches key found o).
Proof.
  intros Ho Hv. induction Ho as [|[k w] o Hw Ho IH]; cbn [pushMatches].
  - constructor.
  - destruct (String.eqb k key); constructor; try assumption.
    apply Hv. assumption.
Qed.

Lemma pushMatches_fresh (key : string) (found : list PIIMatch) (pii : PIIPattern)
    (o : Detected) :
  getEntry key o = None ->
  pushMatches key found
    (setEntry key {| matches := []; count := 0; info := pii |} o)
  = setEntry key {| matches := found; count := length found; info := pii |} o.
Proof.
  induction o as [|[k w] o IH]; cbn [setEntry getEntry pushMatches].
  - rewrite String.eqb_refl. reflexivity.
  - destruct (String.eqb k key) eqn:Hk; [discriminate|].
    intros H. cbn [pushMatches]. rewrite Hk, IH by assumption. reflexivity.
Qed.

Lemma sumCounts_app (o : Detected) (kv : string * PIIData) :
  sumCounts (o ++ [kv]) = sumCounts o + count (snd kv).
Proof. unfold sumCounts. rewrite foldl_app. reflexivity. Qed.

Lemma sumCounts_from (o : Detected) (n : nat) :
  foldl (fun sum kv => sum + count (snd kv)) n o = n + sumCounts o.
Proof.
  unfold sumCounts. revert n. induction o as [|kv o IH]; intros n; cbn [foldl].
  - lia.
  - rewrite IH, (IH (0 + _)), Nat.add_0_l, Nat.add_assoc. reflexivity.
Qed.

Lemma sumCounts_total (o : Detected) : countsOk o -> sumCounts o = totalMatches o.
Proof.
  unfold totalMatches. induction 1 as [|kv o Hkv Ho IH]; [reflexivity|].
  unfold sumCounts. cbn [foldl map sum_list sum_list_with].
  rewrite sumCounts_from, IH, Hkv. reflexivity.
Qed.

(** *** The single pass *)

Lemma forEachStandard_total (s : jsString) (patterns : list (string * PIIPattern)) :
  consuming patterns ->
  forall st, exists st', forEachStandard patterns s st = Some st'.
Proof.
  induction 1 as [|[key pii] patterns Hp Hps IH]; intros st; cbn [forEachStandard].
  - eauto.
  - destruct (scanStandard_total key pii s Hp (rounds s) (startOf s) [])
      as [found ->]; [apply located_startOf | unfold rounds; simpl; lia |].
    apply IH.
Qed.

Lemma forEachStandard_sound (s : jsString) (patterns : list (string * PIIPattern)) :
  consuming patterns ->
  forall st st',
    Forall (standardEntry s) (fst st) ->
    forEachStandard patterns s st = Some st' ->
    Forall (standardEntry s) (fst st').
Proof.
  induction 1 as [|[key pii] patterns Hp Hps IH]; intros st st' Hst;
    cbn [forEachStandard].
  - intros [= <-]. assumption.
  - destruct (scanStandard _ _ _ _ _ _) as [found|] eqn:Hscan; [|discriminate].
    apply scanStandard_sound in Hscan as (new & -> & Hin & Hinc);
      [|assumption | apply located_startOf].
    apply IH. destruct (0 <? length ([] ++ new)); [|assumption].
    cbn [fst]. apply (setEntry_Forall (fun v => standardEntry s (key, v)));
      [assumption|].
    repeat split; assumption.
Qed.

(** The total of the single pass is the sum of the counts it stores. *)
Lemma forEachStandard_count (s : jsString) (patterns : list (string * PIIPattern)) :
  NoDup (map fst patterns) ->
  forall st st',
    (forall k, k ∈ map fst patterns -> getEntry k (fst st) = None) ->
    forEachStandard patterns s st = Some st' ->
    snd st' + sumCounts (fst st) = snd st + sumCounts (fst st').
Proof.
  induction patterns as [|[key pii] patterns IH]; intros Hnd st st' Hfresh;
    cbn [forEachStandard].
  - intros [= <-]. lia.
  - destruct (scanStandard _ _ _ _ _ _) as [found|]; [|discriminate].
    cbn [map fst] in Hnd. apply NoDup_cons in Hnd as [Hkey Hnd].
    intros H. apply IH in H; [|assumption|].
    + destruct (0 <? length found); [|lia]. cbn [fst snd] in H.
      rewrite setEntry_fresh, sumCounts_app in H; [cbn [snd count] in H; lia|].
      apply Hfresh. cbn [map fst]. apply list_elem_of_here.
    + intros k Hk. destruct (0 <? length found).
      * cbn [fst]. rewrite getEntry_setEntry_ne.
        -- apply Hfresh. cbn [map fst]. apply list_elem_of_further. assumption.
        -- intros ->. contradiction.
      * apply Hfresh. cbn [map fst]. apply list_elem_of_further. assumption.
Qed.

(** *** Chunks *)

Lemma take_take_length {A : Type} (n m : nat) (l t : list A) :
  take n (take m l) = t -> length t = n -> take n l = t.
Proof.
  rewrite take_take. intros H Hlen.
  assert (Hn : n `min` m = n).
  { rewrite <- H, length_take in Hlen. lia. }
  rewrite Hn in H. assumption.
Qed.

Lemma matchIn_take (X : jsString) (i : nat) (t : jsString) :
  matchIn X {| text := t; index := i |} <-> take (length t) (drop i X) = t.
Proof.
  unfold matchIn. cbn [text index]. rewrite substring_ordered by lia.
  replace (i + length t - i) with (length t) by lia. reflexivity.
Qed.

Lemma matchIn_shift (D : jsString) (chunk : Chunk) (m : PIIMatch) :
  window D chunk -> matchIn (chunkText chunk) m ->
  matchIn D (shift (offset chunk) m).
Proof.
  intros [e He]. destruct m as [t i]. unfold shift. cbn [text index].
  rewrite !matchIn_take, He. unfold slice.
  rewrite skipn_firstn_comm, drop_drop, (Nat.add_comm i).
  intros H. eapply take_take_length; [exact H | reflexivity].
Qed.

Lemma forEachChunk_total (chunk : Chunk) (patterns : list (string * PIIPattern)) :
  consuming patterns ->
  forall o, exists o', forEachChunk patterns chunk o = Some o'.
Proof.
  induction 1 as [|[key pii] patterns Hp Hps IH]; intros o; cbn [forEachChunk].
  - eauto.
  - pose proof (scanChunk_shift key pii chunk (rounds (chunkText chunk))
                  (startOf (chunkText chunk)) []) as Hs.
    cbn [map] in Hs. rewrite Hs.
    destruct (scanStandard_total key pii (chunkText chunk) Hp
                (rounds (chunkText chunk)) (startOf (chunkText chunk)) [])
      as [found ->]; [apply located_startOf | unfold rounds; simpl; lia |].
    cbn [fmap option_fmap option_map]. apply IH.
Qed.

Lemma forEachChunk_sound (D : jsString) (chunk : Chunk)
    (patterns : list (string * PIIPattern)) :
  window D chunk -> consuming patterns ->
  forall o o',
    detectedIn D o -> forEachChunk patterns chunk o = Some o' ->
    detectedIn D o'.
Proof.
  intros Hw. induction 1 as [|[key pii] patterns Hp Hps IH]; intros o o' Ho;
    cbn [forEachChunk].
  - intros [= <-]. assumption.
  - pose proof (scanChunk_shift key pii chunk (rounds (chunkText chunk))
                  (startOf (chunkText chunk)) []) as Hs.
    cbn [map] in Hs. rewrite Hs. clear Hs.
    destruct (scanStandard _ _ _ _ _ _) as [found|] eqn:Hscan; [|discriminate].
    cbn [fmap option_fmap option_map].
    apply scanStandard_sound in Hscan as (new & -> & Hin & _);
      [|assumption | apply located_startOf].
    cbn [app]. apply IH.
    destruct (0 <? length (map (shift (offset chunk)) new)); [|assumption].
    apply (pushMatches_Forall (fun v => entryIn D (key, v))).
    + destruct (getEntry key o); [assumption|].
      apply (setEntry_Forall (fun v => entryIn D (key, v))); [assumption|].
      split; [constructor | reflexivity].
    + intros v [Hv Hc]. cbn [snd] in Hv, Hc. split; cbn [snd matches count].
      * apply Forall_app. split; [assumption|].
        apply Forall_map. eapply Forall_impl; [exact Hin|].
        intros m. apply matchIn_shift. assumption.
      * rewrite length_app, Hc. reflexivity.
Qed.

Lemma forChunks_total (chunks : list Chunk) :
  consuming sortedPatterns ->
  forall i o, exists o', forChunks chunks i o = Some o'.
Proof.
  intros Hp. induction chunks as [|chunk chunks IH]; intros i o; cbn [forChunks].
  - eauto.
  - unfold processChunk.
    destruct (forEachChunk_total chunk _ Hp (if i =? 0 then [] else o)) as [o' ->].
    apply IH.
Qed.

Lemma forChunks_sound (D : jsString) (chunks : list Chunk) :
  consuming sortedPatterns -> Forall (window D) chunks ->
  forall i o o',
    detectedIn D o -> forChunks chunks i o = Some o' -> detectedIn D o'.
Proof.
  intros Hp. induction 1 as [|chunk chunks Hw Hws IH]; intros i o o' Ho;
    cbn [forChunks].
  - intros [= <-]. assumption.
  - unfold processChunk.
    destruct (forEachChunk _ _ _) as [o1|] eqn:H1; [|discriminate].
    apply IH. eapply forEachChunk_sound; [exact Hw | exact Hp | | exact H1].
    destruct (i =? 0); [constructor | assumption].
Qed.

(** *** The deduplicator *)

Lemma showNat_digits (n : nat) : "-"%char ∉ showNat n.
Proof.
  unfold showNat, str. generalize (Nat.to_uint n). intros u.
  induction u; cbn [NilEmpty.string_of_uint list_ascii_of_string];
    [apply not_elem_of_nil | ..];
    (apply not_elem_of_cons; split; [discriminate | assumption]).
Qed.

Lemma showNat_inj (n n' : nat) : showNat n = showNat n' -> n = n'.
Proof.
  unfold showNat, str. intros H.
  apply (f_equal string_of_list_ascii) in H.
  rewrite !string_of_list_ascii_of_string in H.
  apply (f_equal NilEmpty.uint_of_string) in H.
  rewrite !NilEmpty.usu in H. injection H as H.
  apply Unsigned.to_uint_inj. assumption.
Qed.

Lemma split_at_first {A : Type} (x : A) (l1 l2 t1 t2 : list A) :
  x ∉ l1 -> x ∉ l2 -> l1 ++ x :: t1 = l2 ++ x :: t2 -> l1 = l2 /\ t1 = t2.
Proof.
  revert l2. induction l1 as [|a l1 IH]; intros [|b l2] H1 H2; cbn [app].
  - intros [= ->]. split; reflexivity.
  - intros [= <- _]. exfalso. apply H2. apply list_elem_of_here.
  - intros [= -> _]. exfalso. apply H1. apply list_elem_of_here.
  - intros [= <- H]. apply not_elem_of_cons in H1 as [_ H1].
    apply not_elem_of_cons in H2 as [_ H2].
    destruct (IH l2 H1 H2 H) as [-> ->]. split; reflexivity.
Qed.

(** The key of the deduplicator tells identities apart. *)
Lemma identifier_identity (m m' : PIIMatch) :
  identifier m = identifier m' <-> identity m = identity m'.
Proof.
  unfold identifier, identity. split.
  - intros H. apply split_at_first in H as [Hi Ht]; try apply showNat_digits.
    apply showNat_inj in Hi. congruence.
  - intros [= -> ->]. reflexivity.
Qed.

Lemma uniqueLoop_dropRepeats (ms : list PIIMatch) :
  forall (seen : gset jsString) (earlier : list (nat * jsString)) acc,
    (forall m, identifier m ∈ seen <-> identity m ∈ earlier) ->
    uniqueLoop ms seen acc = acc ++ dropRepeats earlier ms.
Proof.
  induction ms as [|m ms IH]; intros seen earlier acc Hseen;
    cbn [uniqueLoop dropRepeats].
  - rewrite app_nil_r. reflexivity.
  - destruct (decide (identifier m ∈ seen)) as [Hin|Hin];
      destruct (decide (identity m ∈ earlier)) as [Hin'|Hin'];
      try (exfalso; apply Hseen in Hin || apply Hseen in Hin'; contradiction).
    + apply IH. assumption.
    + rewrite (IH _ (identity m :: earlier)).
      * rewrite <- app_assoc. reflexivity.
      * intros m'. rewrite elem_of_union, elem_of_singleton, elem_of_cons,
          identifier_identity, Hseen. reflexivity.
Qed.

Lemma uniqueLoop_spec (ms : list PIIMatch) :
  uniqueLoop ms ∅ [] = dropRepeats [] ms.
Proof.
  apply (uniqueLoop_dropRepeats ms ∅ [] []). intros m.
  rewrite elem_of_nil. split; [apply not_elem_of_empty | tauto].
Qed.

(** A match is kept exactly when its identity has not been met before. *)
Lemma dropRepeats_snoc (pre : list PIIMatch) (m : PIIMatch) :
  forall earlier,
    dropRepeats earlier (pre ++ [m])
    = dropRepeats earlier pre
      ++ (if decide (identity m ∈ map identity pre ++ earlier) then [] else [m]).
Proof.
  induction pre as [|x pre IH]; intros earlier; cbn [app map dropRepeats].
  - destruct (decide (identity m ∈ earlier)); reflexivity.
  - destruct (decide (identity x ∈ earlier)) as [Hx|Hx].
    + rewrite IH. f_equal. apply decide_ext.
      rewrite elem_of_cons. split; [tauto|].
      intros [->|H]; [|assumption]. apply elem_of_app. tauto.
    + cbn [app]. rewrite IH. f_equal. f_equal. apply decide_ext.
      rewrite elem_of_cons, !elem_of_app, elem_of_cons. tauto.
Qed.

Lemma dropRepeats_sublist (ms : list PIIMatch) :
  forall earlier, dropRepeats earlier ms `sublist_of` ms.
Proof.
  induction ms as [|m ms IH]; intros earlier; cbn [dropRepeats].
  - constructor.
  - destruct (decide _); [apply sublist_cons | apply sublist_skip]; apply IH.
Qed.

Lemma dropRepeats_fresh (ms : list PIIMatch) :
  forall earlier m,
    m ∈ dropRepeats earlier ms -> identity m ∉ earlier.
Proof.
  induction ms as [|x ms IH]; intros earlier m; cbn [dropRepeats].
  - intros H. apply elem_of_nil in H. contradiction.
  - destruct (decide (identity x ∈ earlier)) as [Hx|Hx]; [apply IH|].
    intros [->|H]%elem_of_cons; [assumption|].
    apply IH in H. intros Hm. apply H. apply list_elem_of_further. assumption.
Qed.

Lemma dropRepeats_NoDup (ms : list PIIMatch) :
  forall earlier, NoDup (map identity (dropRepeats earlier ms)).
Proof.
  induction ms as [|x ms IH]; intros earlier; cbn [dropRepeats].
  - constructor.
  - destruct (decide (identity x ∈ earlier)) as [Hx|Hx]; [apply IH|].
    cbn [map]. constructor; [|apply IH].
    intros (m & Hm & Hin)%list_elem_of_fmap.
    apply dropRepeats_fresh in Hin. apply Hin. rewrite <- Hm.
    apply list_elem_of_here.
Qed.

Lemma dropRepeats_complete (ms : list PIIMatch) :
  forall earlier m,
    m ∈ ms ->
    identity m ∈ earlier \/ identity m ∈ map identity (dropRepeats earlier ms).
Proof.
  induction ms as [|x ms IH]; intros earlier m; cbn [dropRepeats].
  - intros H. apply elem_of_nil in H. contradiction.
  - intros [->|H]%elem_of_cons.
    + destruct (decide (identity x ∈ earlier)); [tauto|].
      right. cbn [map]. apply list_elem_of_here.
    + destruct (decide (identity x ∈ earlier)); [apply IH; assumption|].
      destruct (IH (identity x :: earlier) m H) as [[->|H']%elem_of_cons|H'].
      * right. cbn [map]. apply list_elem_of_here.
      * tauto.
      * right. cbn [map]. apply list_elem_of_further. assumption.
Qed.

(** Matches at strictly increasing indices are all kept. *)
Lemma dropRepeats_increasing (ms : list PIIMatch) :
  forall lo earlier,
    increasingFrom lo ms -> Forall (fun p => fst p < lo) earlier ->
    dropRepeats earlier ms = ms.
Proof.
  induction ms as [|m ms IH]; intros lo earlier; cbn [dropRepeats increasingFrom];
    [reflexivity|].
  intros [Hlo Hinc] He.
  destruct (decide (identity m ∈ earlier)) as [Hm|Hm].
  - exfalso. rewrite Forall_forall in He. apply He in Hm. unfold identity in Hm.
    cbn [fst] in Hm. lia.
  - f_equal. apply (IH (S (index m))); [assumption|].
    constructor; [unfold identity; cbn [fst]; lia|].
    eapply Forall_impl; [exact He|]. intros p Hp. cbn beta in Hp. lia.
Qed.

Lemma deduplicateMatches_standard (s : jsString) (o : Detected) :
  Forall (standardEntry s) o -> deduplicateMatches o = o.
Proof.
  unfold deduplicateMatches. induction 1 as [|[k v] o Hkv Ho IH]; [reflexivity|].
  cbn [map]. rewrite IH. f_equal. destruct Hkv as (_ & Hinc & Hc).
  cbn [fst snd] in *. rewrite uniqueLoop_spec.
  rewrite (dropRepeats_increasing _ 0 []); [|assumption | constructor].
  destruct v as [ms n i]. cbn [matches count info] in *. subst n. reflexivity.
Qed.

Lemma Forall_sublist {A : Type} (P : A -> Prop) (l k : list A) :
  l `sublist_of` k -> Forall P k -> Forall P l.
Proof.
  induction 1 as [|x l k _ IH|x l k _ IH]; intros Hk.
  - constructor.
  - apply Forall_cons in Hk as [Hx Hk]. constructor; [assumption | apply IH, Hk].
  - apply Forall_cons in Hk as [_ Hk]. apply IH, Hk.
Qed.

Lemma deduplicateMatches_detectedIn (D : jsString) (o : Detected) :
  detectedIn D o -> detectedIn D (deduplicateMatches o).
Proof.
  unfold detectedIn, deduplicateMatches. intros Ho. apply Forall_map.
  eapply Forall_impl; [exact Ho|]. intros [k v] [Hv _].
  unfold entryIn. cbn [fst snd matches count] in *. split; [|reflexivity].
  rewrite uniqueLoop_spec.
  eapply Forall_sublist; [apply dropRepeats_sublist | assumption].
Qed.

(** *** The chunker *)

Section Chunker.

Variables (size step : nat) (D : jsString).
Hypothesis step_pos : 0 < step.

Lemma chunkLoop_windows (fuel : nat) :
  forall i,
    length D - i <= fuel * step ->
    exists n,
      chunkLoop size step D fuel i
      = map (fun j => windowAt size D (i + j * step)) (seq 0 n)
      /\ length D <= i + n * step
      /\ (n = 0 \/ i + (n - 1) * step < length D).
Proof using step_pos.
  induction fuel as [|fuel IH]; intros i Hfuel.
  - exists 0. cbn. split; [reflexivity|]. split; [lia | left; reflexivity].
  - cbn [chunkLoop]. destruct (Nat.ltb_spec i (length D)) as [Hi|Hi].
    + destruct (IH (i + step)) as (n & -> & Hlen & Hlast); [cbn in Hfuel; lia|].
      exists (S n). cbn [seq map]. split; [|split].
      * cbn [Nat.mul]. rewrite Nat.add_0_r. f_equal.
        rewrite <- seq_shift, map_map. apply map_ext. intros j.
        f_equal. cbn [Nat.mul]. lia.
      * cbn [Nat.mul]. lia.
      * right. destruct Hlast as [->|Hlast]; [cbn; lia|].
        destruct n as [|n]; [cbn; lia|].
        cbn [Nat.sub Nat.mul] in *. rewrite Nat.sub_0_r in *. lia.
    + exists 0. cbn. split; [reflexivity|]. split; [lia | left; reflexivity].
Qed.

Lemma window_index (a : nat) :
  forall n i,
    i <= a < i + n * step ->
    exists j, j < n /\ i + j * step <= a < i + S j * step.
Proof using step_pos.
  induction n as [|n IH]; intros i Ha; [cbn in Ha; lia|].
  destruct (Nat.lt_ge_cases a (i + step)) as [Hlt|Hge].
  - exists 0. cbn. split; lia.
  - destruct (IH (i + step)) as (j & Hj & Hlo & Hhi); [cbn in Ha; lia|].
    exists (S j). cbn [Nat.mul] in *. split; lia.
Qed.

Hypothesis step_le : step <= size.

Lemma windowAt_length (i : nat) :
  i <= length D ->
  offset (windowAt size D i) + length (chunkText (windowAt size D i))
  = Nat.min (i + size) (length D).
Proof using Type.
  clear step_pos step_le.
  intros Hi. unfold windowAt, slice. cbn [offset chunkText].
  rewrite length_take, length_drop. lia.
Qed.

Lemma windowAt_covers (i a b : nat) :
  i <= a -> a <= b -> b <= Nat.min (i + size) (length D) ->
  covers D a b (windowAt size D i).
Proof using Type.
  clear step_pos step_le.
  intros Hia Hab Hb. unfold covers. rewrite windowAt_length by lia.
  split; [exact Hia|]. split; [exact Hb|].
  unfold windowAt, slice. cbn [offset chunkText].
  rewrite skipn_firstn_comm, drop_drop, take_take.
  replace (i + (a - i)) with a by lia. f_equal. lia.
Qed.

(** With windows at [i], [i + step], ... up to the end of the document,
    any stretch of at most [size - step] characters from [i] on lies in one
    of them. *)
Lemma windows_cover (n i a b : nat) :
  length D <= i + n * step ->
  (n = 0 \/ i + (n - 1) * step < length D) ->
  i < length D ->
  i <= a -> a <= b -> b <= length D -> b - a <= size - step ->
  exists j, j < n /\ covers D a b (windowAt size D (i + j * step)).
Proof using step_pos step_le.
  intros Hlen Hlast Hi Hia Hab Hb Hshort.
  destruct (Nat.lt_ge_cases a (length D)) as [Ha|Ha].
  - destruct (window_index a n i) as (j & Hj & Hlo & Hhi); [lia|].
    exists j. split; [assumption|]. cbn [Nat.mul] in Hhi.
    apply windowAt_covers; lia.
  - destruct Hlast as [->|Hlast]; [cbn in Hlen; lia|].
    assert (Hn : 0 < n) by (destruct n; [cbn in Hlen; lia | lia]).
    exists (n - 1). split; [lia|].
    assert (Hmul : n * step = (n - 1) * step + step).
    { destruct n as [|n]; [lia|]. cbn [Nat.sub Nat.mul].
      rewrite Nat.sub_0_r. lia. }
    apply windowAt_covers; lia.
Qed.

End Chunker.

Lemma makeChunks_windows (D : jsString) :
  exists n,
    makeChunks D
    = map (fun j => windowAt chunkSize D (j * (chunkSize - overlap))) (seq 0 n)
    /\ length D <= n * (chunkSize - overlap)
    /\ (n = 0 \/ (n - 1) * (chunkSize - overlap) < length D).
Proof.
  assert (Hstep : 0 < chunkSize - overlap) by (vm_compute; lia).
  destruct (chunkLoop_windows chunkSize (chunkSize - overlap) D Hstep
              (length D) 0) as (n & Heq & Hlen & Hlast).
  - rewrite Nat.sub_0_r. destruct (chunkSize - overlap); [lia|].
    rewrite Nat.mul_succ_r. lia.
  - exists n. cbn [Nat.add] in *. auto.
Qed.

Lemma windowAt_window (size : nat) (D : jsString) (i : nat) :
  window D (windowAt size D i).
Proof. eexists. reflexivity. Qed.

Lemma makeChunks_window (D : jsString) : Forall (window D) (makeChunks D).
Proof.
  destruct (makeChunks_windows D) as (n & -> & _).
  apply Forall_map, Forall_forall. intros j _. apply windowAt_window.
Qed.

(** A document of at most one step is one chunk: itself, at offset 0. *)
Lemma makeChunks_single (D : jsString) :
  D <> [] -> length D <= chunkSize - overlap ->
  makeChunks D = [{| chunkText := D; offset := 0 |}].
Proof.
  intros Hne Hlen. destruct (makeChunks_windows D) as (n & -> & Hn & Hlast).
  assert (Hpos : 0 < length D) by (destruct D; [congruence | cbn; lia]).
  assert (Hsize : length D <= chunkSize).
  { etransitivity; [exact Hlen | apply Nat.le_sub_l]. }
  revert Hlen Hn Hlast. generalize (chunkSize - overlap). intros step Hlen Hn Hlast.
  assert (n = 1) as ->.
  { destruct n as [|[|n]]; [cbn in Hn; lia | reflexivity | exfalso].
    destruct Hlast as [|Hlast]; [discriminate|].
    cbn [Nat.sub Nat.mul] in Hlast. lia. }
  cbn [seq map Nat.mul]. unfold windowAt, slice. cbn [Nat.add drop].
  rewrite Nat.min_r, Nat.sub_0_r, firstn_all by exact Hsize. reflexivity.
Qed.

(** *** Sorting *)

Lemma insertSorted_Permutation {A : Type} (after : A -> A -> bool) (x : A)
    (l : list A) :
  Permutation (insertSorted after x l) (x :: l).
Proof.
  induction l as [|y l IH]; cbn [insertSorted]; [reflexivity|].
  destruct (after x y); [|reflexivity].
  rewrite IH. apply perm_swap.
Qed.

Lemma stableSort_Permutation {A : Type} (after : A -> A -> bool) (l : list A) :
  Permutation (stableSort after l) l.
Proof.
  unfold stableSort. induction l as [|x l IH]; cbn [foldr]; [reflexivity|].
  rewrite insertSorted_Permutation, IH. reflexivity.
Qed.

Lemma insertSorted_descending (x : PIIMatch) (l : list PIIMatch) :
  descending l ->
  descending (insertSorted (fun a b => index a <? index b) x l).
Proof.
  unfold descending. induction 1 as [|y l Hl IH Hy]; cbn [insertSorted].
  - repeat constructor.
  - destruct (Nat.ltb_spec (index x) (index y)) as [Hxy|Hxy].
    + constructor; [assumption|].
      rewrite (insertSorted_Permutation _ x l). constructor; [lia | assumption].
    + constructor; [constructor; assumption|].
      constructor; [assumption|].
      eapply Forall_impl; [exact Hy|]. intros z Hz. cbn beta in Hz. lia.
Qed.

Lemma sortDescending_descending (l : list PIIMatch) : descending (sortDescending l).
Proof.
  unfold sortDescending, stableSort. induction l as [|x l IH]; cbn [foldr].
  - constructor.
  - apply insertSorted_descending, IH.
Qed.

Lemma sortDescending_Permutation (l : list PIIMatch) :
  Permutation (sortDescending l) l.
Proof. apply stableSort_Permutation. Qed.

(** *** The transformer *)

Section TransformerFacts.

Variable secureHash : jsString -> jsString.
Variable secureEncrypt : nat -> jsString -> jsString -> jsString.

Lemma replaceLoop_count (how : string) (password : jsString) (l : list PIIMatch) :
  forall t n, snd (replaceLoop secureHash secureEncrypt how password l t n) = n + length l.
Proof.
  induction l as [|m l IH]; intros t n; cbn [replaceLoop].
  - cbn. lia.
  - rewrite IH. cbn [length]. lia.
Qed.

(** With a replacement that does not depend on the number of the call, the
    loop is a fold of splices. *)
Lemma replaceLoop_splices (how : string) (password : jsString)
    (r : PIIMatch -> jsString) (l : list PIIMatch) :
  (forall n m, replacementFor secureHash secureEncrypt how password n m = r m) ->
  forall t n,
    fst (replaceLoop secureHash secureEncrypt how password l t n)
    = foldl (fun t' m => splice (r m) t' m) t l.
Proof.
  intros Hr. induction l as [|m l IH]; intros t n; cbn [replaceLoop foldl].
  - reflexivity.
  - rewrite IH, Hr. reflexivity.
Qed.

Lemma separated_weaken (limit limit' : nat) (l : list PIIMatch) :
  limit <= limit' -> separated limit l -> separated limit' l.
Proof.
  destruct l as [|m l]; cbn [separated]; [tauto|].
  intros Hle [Hm Hl]. split; [lia | assumption].
Qed.

Lemma splices_prefix (r : PIIMatch -> jsString) (l : list PIIMatch) :
  forall X Y,
    separated (length X) l ->
    foldl (fun t' m => splice (r m) t' m) (X ++ Y) l
    = foldl (fun t' m => splice (r m) t' m) X l ++ Y.
Proof.
  induction l as [|m l IH]; intros X Y; cbn [separated foldl]; [reflexivity|].
  intros [Hm Hl].
  assert (Hs : splice (r m) (X ++ Y) m = splice (r m) X m ++ Y).
  { unfold splice, slice, sliceFrom. rewrite !drop_0, !Nat.sub_0_r.
    rewrite take_app_le, drop_app_le by lia. rewrite <- !app_assoc. reflexivity. }
  rewrite Hs. apply IH. eapply separated_weaken; [|exact Hl].
  unfold splice, slice, sliceFrom. rewrite drop_0.
  rewrite Nat.sub_0_r, !length_app, length_take, length_drop. lia.
Qed.

(** When the regions do not overlap, the splices from right to left
    replace each region of the document. *)
Lemma splices_rendered (r : PIIMatch -> jsString) (l : list PIIMatch) :
  forall D,
    separated (length D) l ->
    foldl (fun t' m => splice (r m) t' m) D l = rendered r l D.
Proof.
  induction l as [|m l IH]; intros D; cbn [separated foldl rendered];
    [reflexivity|].
  intros [Hm Hl].
  assert (Hlen : length (take (index m) D) = index m)
    by (rewrite length_take; lia).
  unfold splice at 2, slice, sliceFrom. rewrite drop_0, Nat.sub_0_r.
  rewrite splices_prefix by (rewrite Hlen; assumption).
  rewrite IH by (rewrite Hlen; assumption). reflexivity.
Qed.

(** A splice that puts the text of a match of the document in place of
    itself changes nothing. *)
Lemma splice_own_text (D : jsString) (m : PIIMatch) :
  matchIn D m -> splice (text m) D m = D.
Proof.
  destruct m as [t i]. rewrite matchIn_take. cbn [text index]. intros H.
  unfold splice, slice, sliceFrom. cbn [text index].
  rewrite drop_0, Nat.sub_0_r.
  transitivity (take i D ++ take (length t) (drop i D)
                  ++ drop (length t) (drop i D)).
  - rewrite H, drop_drop. reflexivity.
  - rewrite take_drop. apply take_drop.
Qed.

Lemma splices_own_text (D : jsString) (l : list PIIMatch) :
  Forall (matchIn D) l -> foldl (fun t' m => splice (text m) t' m) D l = D.
Proof.
  induction 1 as [|m l Hm Hl IH]; cbn [foldl]; [reflexivity|].
  rewrite splice_own_text by assumption. assumption.
Qed.

Lemma enabledMatches_length (tool : PIITool) :
  length (enabledMatches tool) = enabledTotal tool.
Proof.
  unfold enabledMatches, enabledTotal.
  induction (detectedPII tool) as [|kv o IH]; [reflexivity|].
  cbn [map concat sum_list sum_list_with]. rewrite length_app, IH.
  destruct (bool_decide _); reflexivity.
Qed.

Lemma enabledMatches_in (D : jsString) (tool : PIITool) :
  detectedIn D (detectedPII tool) -> Forall (matchIn D) (enabledMatches tool).
Proof.
  unfold enabledMatches, detectedIn.
  induction 1 as [|kv o [Hkv _] Ho IH]; cbn [map concat]; [constructor|].
  apply Forall_app. split; [|assumption].
  destruct (bool_decide _); [assumption | constructor].
Qed.

Lemma detectedIn_countsOk (D : jsString) (o : Detected) :
  detectedIn D o -> countsOk o.
Proof.
  intros H. eapply Forall_impl; [exact H|]. intros kv [_ Hkv]. exact Hkv.
Qed.

Lemma replacementFor_other (how : string) (password : jsString) (n : nat)
    (m : PIIMatch) :
  ~ knownMethod how -> replacementFor secureHash secureEncrypt how password n m = text m.
Proof.
  unfold knownMethod, replacementFor. intros H.
  destruct (String.eqb_spec how "mask") as [->|_]; [exfalso; tauto|].
  destruct (String.eqb_spec how "hash") as [->|_]; [exfalso; tauto|].
  destruct (String.eqb_spec how "encrypt") as [->|_]; [exfalso; tauto|].
  destruct (String.eqb_spec how "redact") as [->|_]; [exfalso; tauto|].
  reflexivity.
Qed.

Lemma getSecurityLevel_other (how : string) :
  ~ knownMethod how ->
  getSecurityLevel how
  = if bool_decide (how ∈ objectPrototypeKeys) then Inherited how
    else JSString "None".
Proof.
  unfold knownMethod, getSecurityLevel, levels. intros H. cbn [ownProperty].
  destruct (String.eqb_spec "encrypt" how) as [<-|_]; [exfalso; tauto|].
  destruct (String.eqb_spec "hash" how) as [<-|_]; [exfalso; tauto|].
  destruct (String.eqb_spec "redact" how) as [<-|_]; [exfalso; tauto|].
  destruct (String.eqb_spec "mask" how) as [<-|_]; [exfalso; tauto|].
  destruct (existsb (String.eqb how) objectPrototypeKeys) eqn:He.
  - rewrite bool_decide_eq_true_2; [reflexivity|].
    apply existsb_exists in He as (k & Hk & ->%String.eqb_eq).
    apply list_elem_of_In. assumption.
  - rewrite bool_decide_eq_false_2; [reflexivity|].
    intros Hin. apply list_elem_of_In in Hin.
    assert (existsb (String.eqb how) objectPrototypeKeys = true) as He'.
    { apply existsb_exists. exists how. split; [assumption | apply String.eqb_refl]. }
    congruence.
Qed.

End TransformerFacts.

(** *** The catalogue *)

Lemma sortedPatterns_consuming : consuming sortedPatterns.
Proof.
  assert (H : forallb (fun kp => 0 <? minLen (source (pattern (snd kp))))
                sortedPatterns = true) by (vm_compute; reflexivity).
  unfold consuming. apply Forall_forall. intros kp Hkp.
  rewrite forallb_forall in H. apply Nat.ltb_lt, H, list_elem_of_In, Hkp.
Qed.

Lemma sortedPatterns_keys : NoDup (map fst sortedPatterns).
Proof. apply (bool_decide_eq_true_1 _). vm_compute. reflexivity. Qed.

(** *** One window *)

Lemma shift_0 (l : list PIIMatch) : map (shift 0) l = l.
Proof.
  induction l as [|[t i] l IH]; [reflexivity|].
  cbn [map]. rewrite IH. unfold shift. cbn [text index].
  rewrite Nat.add_0_r. reflexivity.
Qed.

Lemma forEachChunk_single (s : jsString) (patterns : list (string * PIIPattern)) :
  NoDup (map fst patterns) ->
  forall o n,
    (forall k, k ∈ map fst patterns -> getEntry k o = None) ->
    forEachChunk patterns {| chunkText := s; offset := 0 |} o
    = fst <$> forEachStandard patterns s (o, n).
Proof.
  induction patterns as [|[key pii] patterns IH]; intros Hnd o n Hfresh;
    cbn [forEachChunk forEachStandard]; [reflexivity|].
  cbn [map fst] in Hnd. apply NoDup_cons in Hnd as [Hkey Hnd].
  pose proof (scanChunk_shift key pii {| chunkText := s; offset := 0 |}
                (rounds s) (startOf s) []) as Hs.
  cbn [map chunkText offset] in Hs. cbn [chunkText]. rewrite Hs. clear Hs.
  destruct (scanStandard _ _ _ _ _ _) as [found|]; [|reflexivity].
  cbn [fmap option_fmap option_map]. rewrite shift_0. cbn [fst snd].
  assert (Hk : getEntry key o = None)
    by (apply Hfresh; cbn [map fst]; apply list_elem_of_here).
  destruct (0 <? length found).
  - rewrite Hk, pushMatches_fresh by assumption. apply IH; [assumption|].
    intros k Hin. rewrite getEntry_setEntry_ne.
    + apply Hfresh. cbn [map fst]. apply list_elem_of_further. assumption.
    + intros ->. contradiction.
  - apply IH; [assumption|]. intros k Hin.
    apply Hfresh. cbn [map fst]. apply list_elem_of_further. assumption.
Qed.

Lemma processStandardText_total (D : jsString) :
  exists R n, processStandardText [] D = Some (R, n)
              /\ Forall (standardEntry D) R /\ n = sumCounts R.
Proof.
  unfold processStandardText.
  destruct (forEachStandard_total D _ sortedPatterns_consuming ([], 0))
    as [[R n] H].
  exists R, n. split; [assumption|]. split.
  - apply (forEachStandard_sound D _ sortedPatterns_consuming ([], 0) (R, n));
      [constructor | exact H].
  - pose proof (forEachStandard_count D _ sortedPatterns_keys ([], 0) (R, n)
                  (fun k _ => eq_refl) H) as Hc.
    cbn [fst snd] in Hc. unfold sumCounts at 1 in Hc. cbn [foldl] in Hc. lia.
Qed.

Lemma standardEntry_entryIn (D : jsString) (kv : string * PIIData) :
  standardEntry D kv -> entryIn D kv.
Proof. intros (H & _ & Hc). split; assumption. Qed.

(** ** The claims *)

(** C1.  Every match that the single-pass detector or the chunked detector
    (which adds the offset of the chunk to the index) puts into the
    detection result of a document [D] lies in [D]: the substring of [D]
    from the index of the match, of the length of its text, is its text.
    Both detectors return a result on every document, and every count is
    the length of its list of matches. *)
Theorem matches_lie_in_document (D : jsString) :
  (exists R n, processStandardText [] D = Some (R, n) /\ detectedIn D R)
  /\ (exists R n, processLargeText [] D = Some (R, n) /\ detectedIn D R).
Proof.
  split.
  - destruct (processStandardText_total D) as (R & n & H & HR & _).
    exists R, n. split; [assumption|].
    eapply Forall_impl; [exact HR | apply standardEntry_entryIn].
  - unfold processLargeText.
    destruct (forChunks_total (makeChunks D) sortedPatterns_consuming 0 [])
      as [o Ho].
    rewrite Ho. eexists _, _. split; [reflexivity|].
    apply deduplicateMatches_detectedIn.
    eapply (forChunks_sound D); [apply sortedPatterns_consuming
      | apply makeChunks_window | | exact Ho].
    constructor.
Qed.

(** Where the chunks are transparent: for a document of at most
    [chunkSize - overlap] = 9500 characters, which is one window, splitting
    into chunks, detecting per chunk and merging with the deduplicator yields
    the detection result and the total of the single pass, hence the same
    multiset of triples.  No window ends inside such a document. *)
Theorem chunked_equals_single_pass_in_one_window (D : jsString) :
  length D <= chunkSize - overlap ->
  exists R1 n1 R2 n2,
    processLargeText [] D = Some (R1, n1)
    /\ processStandardText [] D = Some (R2, n2)
    /\ R1 = R2 /\ n1 = n2
    /\ Permutation (triples R1) (triples R2).
Proof.
  intros Hlen. destruct (processStandardText_total D) as (R & n & H & HR & Hn).
  exists R, n, R, n. split; [|repeat split; assumption || reflexivity].
  destruct D as [|c D'] eqn:HD.
  - rewrite <- H. vm_compute. reflexivity.
  - rewrite <- HD in *. unfold processLargeText.
    rewrite makeChunks_single; [|subst D; discriminate | assumption].
    cbn [forChunks Nat.eqb]. unfold processChunk.
    rewrite (forEachChunk_single D _ sortedPatterns_keys [] 0) by reflexivity.
    unfold processStandardText in H. rewrite H.
    cbn [fmap option_fmap option_map fst].
    rewrite (deduplicateMatches_standard D) by assumption.
    rewrite <- Hn. reflexivity.
Qed.

Lemma chunked_equals_single_pass_witness :
  length emailDocument <= chunkSize - overlap
  /\ exists R1 n1 R2 n2,
       processLargeText [] emailDocument = Some (R1, n1)
       /\ processStandardText [] emailDocument = Some (R2, n2)
       /\ R1 = R2 /\ n1 = n2
       /\ Permutation (triples R1) (triples R2).
Proof.
  assert (H : length emailDocument <= chunkSize - overlap)
    by (apply Nat.leb_le; vm_compute; reflexivity).
  split; [exact H | apply (chunked_equals_single_pass_in_one_window _ H)].
Defined.

(** C2.  The chunks are not transparent.  [boundaryDocument] has 50002
    characters and no white space at its ends, so [analyzeText] takes it
    through the chunks.  Its first window ends inside an e-mail address:
    the chunked detector records the cut address "john.doe@email.co" and the
    cut user name "email.co" from the first window, the whole ones from the
    second, and the deduplicator keeps them all since their texts differ.
    It returns five matches where the single pass returns three, so the two
    multisets of triples differ, where the claim says they are the same,
    and with it the comments of [processLargeText] on the overlap ("to
    catch PII spanning chunks") and on the removal of duplicates. *)
Lemma chunked_differs_from_single_pass :
  trim boundaryDocument = boundaryDocument
  /\ largeTextLimit < length boundaryDocument
  /\ exists R1 n1 R2 n2,
       processLargeText [] boundaryDocument = Some (R1, n1)
       /\ processStandardText [] boundaryDocument = Some (R2, n2)
       /\ triples R1
          = [("email"%string, chunkSize - 17, str "john.doe@email.co");
             ("email"%string, chunkSize - 17, str "john.doe@email.com");
             ("username"%string, chunkSize - 17, str "john.doe");
             ("username"%string, chunkSize - 8, str "email.co");
             ("username"%string, chunkSize - 8, str "email.com")]
       /\ n1 = 5
       /\ triples R2
          = [("email"%string, chunkSize - 17, str "john.doe@email.com");
             ("username"%string, chunkSize - 17, str "john.doe");
             ("username"%string, chunkSize - 8, str "email.com")]
       /\ n2 = 3
       /\ (cutTriple ∈ triples R1)
       /\ (cutTriple ∉ triples R2)
       /\ ~ Permutation (triples R1) (triples R2).
Proof.
  split; [apply trim_clean; reflexivity|].
  split; [apply Nat.ltb_lt; vm_compute; reflexivity|].
  assert (H : match processLargeText [] boundaryDocument,
                    processStandardText [] boundaryDocument with
              | Some (R1, n1), Some (R2, n2) =>
                  Some (triples R1, n1, triples R2, n2)
              | _, _ => None
              end
              = Some
                  ([("email"%string, chunkSize - 17, str "john.doe@email.co");
                    ("email"%string, chunkSize - 17, str "john.doe@email.com");
                    ("username"%string, chunkSize - 17, str "john.doe");
                    ("username"%string, chunkSize - 8, str "email.co");
                    ("username"%string, chunkSize - 8, str "email.com")],
                   5,
                   [("email"%string, chunkSize - 17, str "john.doe@email.com");
                    ("username"%string, chunkSize - 17, str "john.doe");
                    ("username"%string, chunkSize - 8, str "email.com")],
                   3)) by (vm_compute; reflexivity).
  destruct (processLargeText [] boundaryDocument) as [[R1 n1]|]; [|discriminate].
  destruct (processStandardText [] boundaryDocument) as [[R2 n2]|]; [|discriminate].
  injection H as H1 Hn1 H2 Hn2.
  exists R1, n1, R2, n2. rewrite H1, H2.
  split; [reflexivity|]. split; [reflexivity|]. split; [reflexivity|].
  split; [assumption|]. split; [reflexivity|]. split; [assumption|].
  split; [apply list_elem_of_here|]. split.
  - unfold cutTriple. intros Hin.
    repeat (apply elem_of_cons in Hin as [Hin|Hin]; [discriminate Hin|]).
    apply elem_of_nil in Hin. exact Hin.
  - intros HP. apply Permutation_length in HP. discriminate HP.
Qed.

(** C3, as amended.  The structural-noise filter discards a candidate if
    and only if the candidate is immediately preceded by a quote character
    and immediately followed by a quote and a colon; whether its text is one
    of the structural field-name tokens does not matter. *)
Theorem isJsonStructure_iff_quote_colon (before match_ after : jsString) :
  isJsonStructure before match_ after = true
  <-> (exists b, before = b ++ [dquote])
      /\ (exists a, after = dquote :: ":"%char :: a).
Proof.
  rewrite <- (endsWith_spec before [dquote]).
  rewrite <- (startsWith_spec after [dquote; ":"%char]).
  unfold isJsonStructure.
  destruct (endsWith before [dquote]); destruct (startsWith after _);
    cbn [andb]; rewrite ?andb_false_r; split; try tauto; try discriminate;
    intros [? ?]; discriminate.
Qed.

(** C3 as stated fails: "john" is not one of the structural tokens, yet in
    quote-colon context the filter discards it; in a document, an e-mail
    address written as a key is not detected. *)
Lemma isJsonStructure_ignores_token_list :
  includes jsonStructureWords (toLowerCase (str "john")) = false
  /\ isJsonStructure [dquote] (str "john") [dquote; ":"%char] = true
  /\ includes jsonStructureWords (toLowerCase (str "john.doe@email.com")) = false
  /\ (fun found => getEntry "email" (fst found))
       <$> processStandardText []
             (dquote :: str "john.doe@email.com" ++ dquote :: str ": 1")
     = Some None.
Proof. vm_compute. repeat split; reflexivity. Qed.

(** C4.  The Luhn validator strips the non-digit characters, rejects when
    the number of digits is outside [13, 19], and otherwise accepts exactly
    when the checksum is 0 modulo 10; the checksum sums the digits from the
    left, the digit at 0-based index [i] being doubled, less 9 when the
    double exceeds 9, exactly when [i mod 2] is the number of digits modulo
    2.  "4111111111111111" is accepted and "4111111111111112" rejected. *)
Theorem luhnCheck_refines_spec :
  (forall s, luhnCheck s = true <-> luhnAccepts s)
  /\ luhnCheck (str "4111111111111111") = true
  /\ luhnCheck (str "4111111111111112") = false.
Proof.
  split; [|split; vm_compute; reflexivity].
  intros s. unfold luhnCheck, luhnAccepts, luhnSum.
  rewrite digitsOf_stripped, luhnLoop_sum. cbn [Nat.add].
  generalize (strippedDigits s). intros ds.
  destruct (Nat.ltb_spec (length ds) 13) as [H13|H13]; cbn [orb].
  - split; [discriminate | lia].
  - destruct (Nat.ltb_spec 19 (length ds)) as [H19|H19].
    + split; [discriminate | lia].
    + rewrite Nat.eqb_eq. split; [intros H; split; [lia | exact H] | tauto].
Qed.

(** Redaction as the code does it: the text is the document after the
    splices of the literal "[REDACTED]" at the enabled matches, made in
    descending order of index; the outcome has [processedCount] equal to the
    number of matches of enabled categories and [originalCount] equal to the
    number of all detected matches, enabled or not. *)
Theorem redact_outcome (secureHash : jsString -> jsString)
    (secureEncrypt : nat -> jsString -> jsString -> jsString)
    (tool : PIITool) (D password : jsString) :
  countsOk (detectedPII tool) ->
  let out := applyEncryption secureHash secureEncrypt tool D "redact" password in
  snd out
  = foldl (fun t m => splice (str "[REDACTED]") t m) D
      (sortDescending (enabledMatches tool))
  /\ Permutation (sortDescending (enabledMatches tool)) (enabledMatches tool)
  /\ descending (sortDescending (enabledMatches tool))
  /\ processedData (fst out)
     = Some {| originalCount := totalMatches (detectedPII tool);
               processedCount := enabledTotal tool;
               method := "redact";
               securityLevel := JSString "Medium" |}.
Proof.
  intros Hc out. subst out. unfold applyEncryption. cbn [fst snd processedData].
  split; [|split; [|split]].
  - apply replaceLoop_splices. reflexivity.
  - apply sortDescending_Permutation.
  - apply sortDescending_descending.
  - rewrite replaceLoop_count, sumCounts_total by assumption.
    rewrite (Permutation_length (sortDescending_Permutation _)).
    rewrite enabledMatches_length. reflexivity.
Qed.

(** When the regions of the enabled matches do not overlap, the redacted
    text is the document with each region replaced. *)
Lemma redact_rendered (secureHash : jsString -> jsString)
    (secureEncrypt : nat -> jsString -> jsString -> jsString)
    (tool : PIITool) (D password : jsString) :
  separated (length D) (sortDescending (enabledMatches tool)) ->
  snd (applyEncryption secureHash secureEncrypt tool D "redact" password)
  = rendered (fun _ => str "[REDACTED]") (sortDescending (enabledMatches tool)) D.
Proof.
  intros Hs. unfold applyEncryption. cbn [snd].
  rewrite (replaceLoop_splices secureHash secureEncrypt "redact" password
             (fun _ => str "[REDACTED]") _ (fun _ _ => eq_refl)).
  apply splices_rendered; assumption.
Qed.

Lemma redact_outcome_witness :
  countsOk (detectedPII (analyzed newTool emailDocument))
  /\ snd (applyEncryption noHash noEncrypt (analyzed newTool emailDocument)
            emailDocument "redact" [])
     = foldl (fun t m => splice (str "[REDACTED]") t m) emailDocument
         (sortDescending (enabledMatches (analyzed newTool emailDocument))).
Proof.
  assert (H : countsOk (detectedPII (analyzed newTool emailDocument))).
  { apply (bool_decide_eq_true_1 _). vm_compute. reflexivity. }
  split; [exact H|].
  apply (redact_outcome noHash noEncrypt _ emailDocument [] H).
Defined.

(** The matches that are spliced are those of the enabled categories: by
    index and text, the triples of the detection result whose key is
    enabled, in their order. *)
Lemma enabledMatches_triples (tool : PIITool) :
  map identity (enabledMatches tool)
  = map (fun t => (snd (fst t), snd t))
      (List.filter (fun t => bool_decide (fst (fst t) ∈ enabledTypes tool))
         (triples (detectedPII tool))).
Proof.
  unfold enabledMatches, triples.
  induction (detectedPII tool) as [|kv o IH]; [reflexivity|].
  cbn [map concat]. rewrite map_app, List.filter_app, map_app, IH. f_equal.
  destruct (bool_decide (fst kv ∈ enabledTypes tool)) eqn:Hk.
  - induction (matches (snd kv)) as [|m ms IHm]; [reflexivity|].
    cbn [map List.filter fst snd]. rewrite Hk. cbn [map fst snd].
    rewrite IHm. reflexivity.
  - induction (matches (snd kv)) as [|m ms IHm]; [reflexivity|].
    cbn [map List.filter fst snd]. rewrite Hk. exact IHm.
Qed.


(** C6, as amended.  With method [encrypt] and a password of fewer than 8
    characters, [processText] ends with an error toast and leaves the state
    as it was: no text is spliced.  The toast is the one about the password
    when the document is not empty (after trimming) and something has been
    detected; an empty document or an empty detection result is reported
    first. *)
Theorem short_password_rejected (secureHash : jsString -> jsString)
    (secureEncrypt : nat -> jsString -> jsString -> jsString)
    (tool : PIITool) (inputValue password : jsString) :
  length password < 8 ->
  processText secureHash secureEncrypt tool inputValue "encrypt" password
  = (tool,
     (if bool_decide (trim inputValue = []) then NoTextToProcess
      else if length (detectedPII tool) =? 0 then NoPIIDetected
      else if bool_decide (password = []) then PasswordRequired
      else PasswordTooShort,
      error)).
Proof.
  intros Hlen. unfold processText. cbn [String.eqb Ascii.eqb Bool.eqb andb].
  destruct (bool_decide (trim inputValue = [])); [reflexivity|].
  destruct (length (detectedPII tool) =? 0); [reflexivity|].
  destruct (bool_decide (password = [])); [reflexivity|].
  apply Nat.ltb_lt in Hlen. rewrite Hlen. reflexivity.
Qed.

Lemma short_password_rejected_witness :
  length (str "1234567") < 8
  /\ processText noHash noEncrypt (analyzed newTool emailDocument)
       emailDocument "encrypt" (str "1234567")
     = (analyzed newTool emailDocument, (PasswordTooShort, error)).
Proof.
  assert (H : length (str "1234567") < 8) by (vm_compute; lia).
  split; [exact H|].
  rewrite (short_password_rejected noHash noEncrypt _ emailDocument _ H).
  reflexivity.
Defined.

(** C6 as stated fails on the empty document: the toast is the one about
    the missing text, not one about the password. *)
Lemma short_password_empty_document :
  length (str "1234567") < 8
  /\ processText noHash noEncrypt newTool [] "encrypt" (str "1234567")
     = (newTool, (NoTextToProcess, error))
  /\ NoTextToProcess <> PasswordRequired
  /\ NoTextToProcess <> PasswordTooShort.
Proof.
  split; [vm_compute; lia|]. split; [reflexivity|]. split; discriminate.
Qed.

(** C7.  For the sequence of matches of a category, the deduplicator keeps a
    match exactly when no earlier match of the sequence has the same pair of
    index and text, so two matches that differ in index or in text both
    survive; the matches it keeps are in first-seen order; afterwards the
    count of each category is the length of its list of matches. *)
Theorem deduplicator_keeps_first_occurrences :
  (forall ms, uniqueLoop ms ∅ [] = dropRepeats [] ms)
  /\ (forall pre m,
        uniqueLoop (pre ++ [m]) ∅ []
        = uniqueLoop pre ∅ []
          ++ (if decide (identity m ∈ map identity pre) then [] else [m]))
  /\ (forall ms, uniqueLoop ms ∅ [] `sublist_of` ms)
  /\ (forall ms, NoDup (map identity (uniqueLoop ms ∅ [])))
  /\ (forall ms,
        Forall (fun m => identity m ∈ map identity (uniqueLoop ms ∅ [])) ms)
  /\ (forall o,
        deduplicateMatches o
        = map (fun kv =>
                 (fst kv,
                  {| matches := uniqueLoop (matches (snd kv)) ∅ [];
                     count := length (uniqueLoop (matches (snd kv)) ∅ []);
                     info := info (snd kv) |})) o)
  /\ (forall o, countsOk (deduplicateMatches o)).
Proof.
  split; [exact uniqueLoop_spec|]. split; [|split; [|split; [|split; [|split]]]].
  - intros pre m. rewrite !uniqueLoop_spec, dropRepeats_snoc, app_nil_r.
    reflexivity.
  - intros ms. rewrite uniqueLoop_spec. apply dropRepeats_sublist.
  - intros ms. rewrite uniqueLoop_spec. apply dropRepeats_NoDup.
  - intros ms. rewrite uniqueLoop_spec. apply Forall_forall. intros m Hm.
    destruct (dropRepeats_complete ms [] m Hm) as [H|H]; [|exact H].
    apply elem_of_nil in H. contradiction.
  - reflexivity.
  - intros o. unfold countsOk, deduplicateMatches. apply Forall_map.
    apply Forall_forall. intros kv _. reflexivity.
Qed.

(** C8, as amended.  On "Contact john.doe@email.com now" detection yields
    exactly one match of the e-mail category, "john.doe@email.com" at index
    8.  Masking replaces each enabled match by as many asterisks as its
    text has characters: with the e-mail category alone enabled the output
    is "Contact ****************** now", with 18 asterisks; with every
    category enabled, as after construction, "Contact" is masked as well (it
    is a match of the first-name category). *)
Theorem email_example_masked (secureHash : jsString -> jsString)
    (secureEncrypt : nat -> jsString -> jsString -> jsString) :
  (fun found => matches <$> getEntry "email" (fst found))
    <$> processStandardText [] emailDocument
  = Some (Some [{| text := str "john.doe@email.com"; index := 8 |}])
  /\ (let tool :=
        togglePIIType (unselectAllPIITypes (analyzed newTool emailDocument))
          "email" in
      let out := processText secureHash secureEncrypt tool emailDocument "mask" [] in
      processedText (fst out) = str "Contact ****************** now"
      /\ snd out = (Processed 1 "mask", success))
  /\ (let out := processText secureHash secureEncrypt
                   (analyzed newTool emailDocument) emailDocument "mask" [] in
      processedText (fst out) = str "******* ****************** now"
      /\ snd out = (Processed 4 "mask", success)).
Proof. vm_compute. repeat split; reflexivity. Qed.

(** C8 as stated fails: the output that the specification gives has 19
    asterisks, one more than the text of the match has characters; the
    masked document is not that string, whether the e-mail category alone
    is enabled or all of them. *)
Lemma email_example_spec_output_wrong :
  length (str "john.doe@email.com") = 18
  /\ processedText
       (fst (processText noHash noEncrypt
               (togglePIIType
                  (unselectAllPIITypes (analyzed newTool emailDocument)) "email")
               emailDocument "mask" []))
     <> str "Contact ******************* now"
  /\ processedText
       (fst (processText noHash noEncrypt (analyzed newTool emailDocument)
               emailDocument "mask" []))
     <> str "Contact ******************* now".
Proof.
  split; [reflexivity|].
  split; apply (bool_decide_eq_false_1 _); vm_compute; reflexivity.
Qed.

(** C9.  With [chunkSize] 10000 and [overlap] 500 the windows of the
    chunker start at the multiples of [chunkSize - overlap] = 9500 below the
    length of the document, each is cut at the end of the document, and the
    last one ends there; so every stretch of fewer than [overlap] characters
    of a (non-empty) document lies within one window, which holds it at the
    place that the offset of the window gives. *)
Theorem chunker_windows_cover (D : jsString) (a b : nat) :
  D <> [] -> a <= b -> b <= length D -> b - a < overlap ->
  (chunkSize = 10 * 1000 /\ overlap = 500 /\ chunkSize - overlap = 95 * 100)
  /\ (exists n,
        makeChunks D
        = map (fun j => windowAt chunkSize D (j * (chunkSize - overlap)))
            (seq 0 n)
        /\ (n - 1) * (chunkSize - overlap) < length D <= n * (chunkSize - overlap)
        /\ offset (windowAt chunkSize D ((n - 1) * (chunkSize - overlap)))
           + length (chunkText
                       (windowAt chunkSize D ((n - 1) * (chunkSize - overlap))))
           = length D)
  /\ (exists chunk, chunk ∈ makeChunks D /\ covers D a b chunk).
Proof.
  intros Hne Hab Hb Hshort.
  split; [repeat split; vm_compute; reflexivity|].
  assert (Hpos : 0 < length D) by (destruct D; [congruence | cbn; lia]).
  destruct (makeChunks_windows D) as (n & Heq & Hn & Hlast).
  assert (Hstep : 0 < chunkSize - overlap) by (vm_compute; lia).
  assert (Hle : chunkSize - overlap <= chunkSize) by apply Nat.le_sub_l.
  assert (Hov : b - a <= chunkSize - (chunkSize - overlap)).
  { replace (chunkSize - (chunkSize - overlap)) with overlap
      by (vm_compute; reflexivity). lia. }
  revert Heq Hn Hlast Hstep Hle Hov. generalize (chunkSize - overlap).
  intros step Heq Hn Hlast Hstep Hle Hov.
  assert (Hn1 : n <> 0) by (intros ->; cbn in Hn; lia).
  destruct Hlast as [Hlast|Hlast]; [contradiction|].
  split.
  - exists n. split; [exact Heq|]. split; [lia|].
    rewrite windowAt_length by lia.
    assert (Hmul : n * step = (n - 1) * step + step).
    { destruct n as [|n]; [contradiction|]. cbn [Nat.sub Nat.mul].
      rewrite Nat.sub_0_r. lia. }
    lia.
  - destruct (windows_cover chunkSize step D Hstep Hle n 0 a b)
      as (j & Hj & Hc); try lia.
    exists (windowAt chunkSize D (j * step)). split; [|exact Hc].
    rewrite Heq. apply list_elem_of_fmap. exists j. split; [reflexivity|].
    apply elem_of_seq. lia.
Qed.

Lemma chunker_windows_cover_witness :
  boundaryDocument <> []
  /\ chunkSize - 17 <= chunkSize + 1 /\ chunkSize + 1 <= length boundaryDocument
  /\ chunkSize + 1 - (chunkSize - 17) < overlap
  /\ exists chunk,
       chunk ∈ makeChunks boundaryDocument
       /\ covers boundaryDocument (chunkSize - 17) (chunkSize + 1) chunk.
Proof.
  assert (H1 : boundaryDocument <> []) by discriminate.
  assert (H2 : chunkSize - 17 <= chunkSize + 1) by lia.
  assert (H3 : chunkSize + 1 <= length boundaryDocument)
    by (apply Nat.leb_le; vm_compute; reflexivity).
  assert (H4 : chunkSize + 1 - (chunkSize - 17) < overlap)
    by (apply Nat.ltb_lt; vm_compute; reflexivity).
  repeat (split; [assumption|]).
  apply (chunker_windows_cover boundaryDocument _ _ H1 H2 H3 H4).
Defined.

(** What the code does for a method outside mask, hash, encrypt and
    redact: the transformer returns the document as it is (each enabled
    match of the document is replaced by its own text) and still reports
    [processedCount] equal to the number of matches of enabled categories.
    The security level is read from the table of levels through its
    prototype: it is "None" for a method that names no property that every
    object inherits, and the inherited value for one that does. *)
Theorem unknown_method_outcome (secureHash : jsString -> jsString)
    (secureEncrypt : nat -> jsString -> jsString -> jsString)
    (tool : PIITool) (D password : jsString) (how : string) :
  ~ knownMethod how -> detectedIn D (detectedPII tool) ->
  let out := applyEncryption secureHash secureEncrypt tool D how password in
  snd out = D
  /\ processedData (fst out)
     = Some {| originalCount := totalMatches (detectedPII tool);
               processedCount := enabledTotal tool;
               method := how;
               securityLevel :=
                 if bool_decide (how ∈ objectPrototypeKeys) then Inherited how
                 else JSString "None" |}.
Proof.
  intros Hhow HD out. subst out. unfold applyEncryption.
  cbn [fst snd processedData]. split.
  - rewrite (replaceLoop_splices secureHash secureEncrypt how password text _
               (fun n m => replacementFor_other secureHash secureEncrypt how
                             password n m Hhow)).
    apply splices_own_text. apply Forall_forall. intros m Hm.
    rewrite sortDescending_Permutation in Hm.
    pose proof (enabledMatches_in D tool HD) as Hall.
    rewrite Forall_forall in Hall. apply Hall. assumption.
  - rewrite replaceLoop_count, getSecurityLevel_other by assumption.
    rewrite sumCounts_total by (eapply detectedIn_countsOk; eassumption).
    rewrite (Permutation_length (sortDescending_Permutation _)).
    rewrite enabledMatches_length. reflexivity.
Qed.

Lemma unknown_method_outcome_witness :
  ~ knownMethod "rot13"
  /\ detectedIn emailDocument (detectedPII (analyzed newTool emailDocument))
  /\ snd (applyEncryption noHash noEncrypt (analyzed newTool emailDocument)
            emailDocument "rot13" [])
     = emailDocument.
Proof.
  assert (H1 : ~ knownMethod "rot13")
    by (intros [H|[H|[H|H]]]; discriminate).
  assert (H2 : detectedIn emailDocument
                 (detectedPII (analyzed newTool emailDocument))).
  { vm_compute. repeat constructor. }
  split; [exact H1|]. split; [exact H2|].
  apply (unknown_method_outcome noHash noEncrypt _ emailDocument [] "rot13" H1 H2).
Defined.

(** C10.  For the method "constructor", which is none of the four, the
    text comes back as it is and the counts are those of a real processing,
    as the claim says, but the security level that is reported is not
    "None": [levels[method]] finds the property [constructor] that the
    table of levels inherits, which is a function and truthy, so the
    fallback [|| 'None'] of [getSecurityLevel] is not taken and the result
    is not the string that its [@returns] announces. *)
Lemma unknown_method_inherited_level :
  ~ knownMethod "constructor"
  /\ getSecurityLevel "constructor" = Inherited "constructor"
  /\ (let out := processText noHash noEncrypt
                   (analyzed newTool emailDocument) emailDocument
                   "constructor" [] in
      processedText (fst out) = emailDocument
      /\ processedData (fst out)
         = Some {| originalCount := 4;
                   processedCount := 4;
                   method := "constructor";
                   securityLevel := Inherited "constructor" |}
      /\ snd out = (Processed 4 "constructor", success))
  /\ Inherited "constructor" <> JSString "None".
Proof.
  split; [intros [H|[H|[H|H]]]; discriminate|].
  split; [reflexivity|]. split; [|discriminate].
  vm_compute. repeat split; reflexivity.
Qed.

(** ** Further properties

    Properties of the code that the claims do not state. *)

(** *** The matcher and the spans of a pattern *)

Lemma repeatMatcher_faithful (F : nat) (r1 : regex) (m : matcher)
    (greedy : bool) (lo : nat) (hi : option nat) (k : continuation) :
  faithful F r1 m ->
  forall fuel n x e,
    withinMax n hi ->
    repeatMatcher m greedy lo hi k fuel n x = Some e ->
    exists j c', iterated (spans F r1) j x c' /\ lo <= n + j
                 /\ withinMax (n + j) hi /\ k c' = Some e.
Proof.
  intros Hm. induction fuel as [|fuel IH]; intros n x e Hmax; [discriminate|].
  cbn [repeatMatcher].
  assert (Hagain : forall e',
    (if belowMax n hi
     then m (fun y => if (lo <=? n) && (pos y <=? pos x) then None
                      else repeatMatcher m greedy lo hi k fuel (S n) y) x
     else None) = Some e' ->
    exists j c', iterated (spans F r1) j x c' /\ lo <= n + j
                 /\ withinMax (n + j) hi /\ k c' = Some e').
  { intros e'. destruct (belowMax n hi) eqn:Hb; [|discriminate].
    intros H. apply Hm in H as (y & Hxy & Hy).
    destruct ((lo <=? n) && (pos y <=? pos x)); [discriminate|].
    apply IH in Hy as (j & c' & Hit & Hlo & Hhi & Hk).
    - exists (S j), c'. cbn [iterated]. rewrite Nat.add_succ_r.
      repeat split; [exists y; split; assumption | assumption.. ].
    - destruct hi as [h|]; [|exact I]. cbn in Hb |- *.
      apply Nat.ltb_lt in Hb. lia. }
  assert (Hstop : forall e', lo <= n -> k x = Some e' ->
    exists j c', iterated (spans F r1) j x c' /\ lo <= n + j
                 /\ withinMax (n + j) hi /\ k c' = Some e').
  { intros e' Hlo Hk. exists 0, x. rewrite Nat.add_0_r.
    repeat split; assumption. }
  destruct (n <? lo) eqn:Hn; [apply Hagain|].
  apply Nat.ltb_ge in Hn.
  destruct greedy.
  - destruct (if belowMax n hi then _ else _) eqn:Ha.
    + intros [= <-]. apply Hagain. first [assumption | reflexivity].
    + apply Hstop. assumption.
  - destruct (k x) eqn:Hk.
    + intros [= <-]. apply Hstop; first [assumption | reflexivity].
    + apply Hagain.
Qed.

Lemma run_faithful (F : nat) (r : regex) : faithful F r (run F r).
Proof.
  induction r as [|cls|r1 IH1 r2 IH2|r1 IH1 r2 IH2|greedy lo hi r1 IH1| |r1 IH1];
    intros k c e; cbn [run spans].
  - intros H. exists c. split; [reflexivity | assumption].
  - destruct (rest c) as [|a s] eqn:Hrest; [discriminate|].
    destruct (cls (code a)) eqn:Hcls; [|discriminate].
    intros H. eexists. split; [|exact H]. exists a, s. repeat split; assumption.
  - intros H. apply IH1 in H as (c1 & H1 & H). apply IH2 in H as (c2 & H2 & H).
    exists c2. split; [exists c1; split; assumption | assumption].
  - destruct (run F r1 k c) eqn:H1.
    + intros [= <-]. apply IH1 in H1 as (c' & Hc & Hk). exists c'.
      split; [left; assumption | assumption].
    + intros H2. apply IH2 in H2 as (c' & Hc & Hk). exists c'.
      split; [right; assumption | assumption].
  - intros H. eapply repeatMatcher_faithful in H as (j & c' & Hit & Hlo & Hhi & Hk);
      [| exact IH1 | destruct hi; cbn; [lia | exact I]].
    exists c'. split; [|assumption]. exists j. repeat split; assumption.
  - destruct (xorb _ _) eqn:Hx; [|discriminate]. intros H. exists c.
    repeat split; assumption.
  - destruct (run F r1 Some c) eqn:Hr; [discriminate|]. intros H. exists c.
    repeat split; assumption.
Qed.

Lemma search_run (F : nat) (r : regex) (s : jsString) :
  forall prev i c1 c2,
    search F r prev s i = Some (c1, c2) -> spans F r c1 c2.
Proof.
  induction s as [|a s IH]; intros prev i c1 c2; cbn [search].
  - destruct (run F r Some _) eqn:Hrun; [|discriminate].
    intros [= <- <-]. apply run_faithful in Hrun as (c' & Hc & [= ->]). exact Hc.
  - destruct (run F r Some _) eqn:Hrun.
    + intros [= <- <-]. apply run_faithful in Hrun as (c' & Hc & [= ->]). exact Hc.
    + apply IH.
Qed.

(** *** What the scan records *)

Lemma scanStandard_foundBy (key : string) (pii : PIIPattern) (s : jsString) :
  forall fuel c found res,
    located s c ->
    scanStandard fuel key pii s c found = Some res ->
    exists new, res = found ++ new /\ Forall (foundBy key pii s) new
                /\ apartFrom (pos c) new.
Proof.
  induction fuel as [|fuel IH]; intros c found res Hc; [discriminate|].
  rewrite scanStandard_step.
  destruct (exec (pattern pii) s c) as [m|] eqn:He.
  2:{ intros [= <-]. exists []. rewrite app_nil_r. repeat split. constructor. }
  destruct (exec_sound _ _ _ _ Hc He) as (Hm & Hle & Hend & Hlen & _).
  assert (Hidx : index (recorded 0 m) = matchIndex m) by (cbn; lia).
  assert (Hfound : accepted key pii s m = true -> foundBy key pii s (recorded 0 m)).
  { intros Ha. exists c, m. split; [exact Hc|]. split; [exact He|].
    split; [exact Ha | reflexivity]. }
  cbn zeta. destruct (global (pattern pii)).
  - intros H. apply IH in H as (new & -> & Hnew & Hap); [|assumption].
    destruct (accepted key pii s m) eqn:Ha.
    + exists (recorded 0 m :: new). rewrite <- app_assoc.
      split; [reflexivity|]. split; [constructor; auto|].
      cbn [apartFrom]. rewrite Hidx. cbn [recorded text]. split; [lia|].
      rewrite <- Hend. assumption.
    + exists new. split; [reflexivity|]. split; [assumption|].
      destruct new as [|m' new]; [exact I|]. cbn [apartFrom] in *.
      destruct Hap as [Hap1 Hap2]. split; [lia | assumption].
  - intros [= <-]. destruct (accepted key pii s m) eqn:Ha.
    + exists [recorded 0 m]. split; [reflexivity|].
      split; [constructor; auto|]. cbn [apartFrom]. rewrite Hidx. split; [lia | exact I].
    + exists []. rewrite app_nil_r. repeat split. constructor.
Qed.

(** *** What a recorded match satisfies *)

Lemma foundBy_matchIn (key : string) (pii : PIIPattern) (s : jsString)
    (m : PIIMatch) :
  foundBy key pii s m -> matchIn s m.
Proof.
  intros (c & mm & Hc & He & _ & ->). eapply recorded_matchIn; eassumption.
Qed.

Lemma foundBy_length (key : string) (pii : PIIPattern) (s : jsString)
    (m : PIIMatch) :
  foundBy key pii s m -> minLen (source (pattern pii)) <= length (text m).
Proof.
  intros (c & mm & Hc & He & _ & ->).
  destruct (exec_sound _ _ _ _ Hc He) as (_ & _ & _ & Hlen & _). exact Hlen.
Qed.

Lemma startsWith_take (p : jsString) :
  forall n X, length p <= n -> startsWith (take n X) p = startsWith X p.
Proof.
  induction p as [|x p IH]; intros n X Hn; [reflexivity|].
  destruct n as [|n]; [cbn in Hn; lia|].
  destruct X as [|y X]; [reflexivity|].
  cbn [take startsWith]. rewrite IH by (cbn in Hn; lia). reflexivity.
Qed.

Lemma endsWith_app (A B : jsString) (q : ascii) :
  B <> [] -> endsWith (A ++ B) [q] = endsWith B [q].
Proof.
  intros HB. unfold endsWith. rewrite rev_app_distr.
  destruct (rev B) as [|b B'] eqn:Hrev.
  - apply (f_equal (@rev ascii)) in Hrev. rewrite rev_involutive in Hrev.
    contradiction.
  - reflexivity.
Qed.

(** The ten characters on each side that the loop body cuts out decide the
    same as the whole of the two sides. *)
Lemma context_before (s : jsString) (i : nat) (q : ascii) :
  i <= length s ->
  endsWith (substring s (Nat.max 0 (i - 10)) i) [q] = endsWith (take i s) [q].
Proof.
  intros Hi. rewrite Nat.max_r, substring_ordered by lia.
  destruct (decide (i = 0)) as [->|Hpos]; [reflexivity|].
  replace (take i s) with (take ((i - 10) + (i - (i - 10))) s)
    by (f_equal; lia).
  rewrite <- take_take_drop. symmetry. apply endsWith_app.
  intros H. apply (f_equal (@length ascii)) in H.
  rewrite length_take, length_drop in H. cbn [length] in H. lia.
Qed.

Lemma context_after (s : jsString) (e : nat) (p : jsString) :
  length p <= 10 ->
  startsWith (substring s e (e + 10)) p = startsWith (drop e s) p.
Proof.
  intros Hp. rewrite substring_ordered by lia.
  replace (e + 10 - e) with 10 by lia. apply startsWith_take. assumption.
Qed.

Lemma foundBy_accepted (key : string) (pii : PIIPattern) (s : jsString)
    (m : PIIMatch) :
  foundBy key pii s m ->
  writtenAsKey s m = false
  /\ (contextAware pii = true -> isCommonWord (text m) = false)
  /\ (String.eqb key "creditCard" && requiresLuhn pii = true ->
      luhnCheck (text m) = true).
Proof.
  intros (c & mm & Hc & He & Ha & ->).
  destruct (exec_sound _ _ _ _ Hc He) as (Hm & _ & Hend & _ & _).
  unfold accepted in Ha. apply andb_true_iff in Ha as [Ha Hluhn].
  apply andb_true_iff in Ha as [Hjson Hcommon].
  apply negb_true_iff in Hjson, Hcommon.
  unfold recorded. cbn [text index]. rewrite Nat.add_0_r. split; [|split].
  - unfold writtenAsKey. cbn [text index].
    rewrite <- (context_before s (matchIndex mm) dquote) by (destruct Hm; lia).
    rewrite <- (context_after s _ [dquote; ":"%char]) by (cbn; lia).
    unfold isJsonStructure in Hjson.
    destruct (endsWith _ [dquote] && startsWith _ [dquote; ":"%char]);
      [discriminate | reflexivity].
  - intros Hctx. rewrite Hctx in Hcommon. exact Hcommon.
  - intros Hcc. rewrite Hcc in Hluhn. exact Hluhn.
Qed.

Lemma foundBy_spans (key : string) (pii : PIIPattern) (s : jsString)
    (m : PIIMatch) :
  foundBy key pii s m ->
  exists c1 c2,
    spans (S (length s)) (source (pattern pii)) c1 c2
    /\ text m = take (pos c2 - pos c1) (rest c1).
Proof.
  intros (c & [c1 c2] & Hc & He & _ & ->). exists c1, c2.
  split; [|reflexivity]. unfold exec in He. eapply search_run. exact He.
Qed.

Lemma iterated_reaches (R : cursor -> cursor -> Prop) (mu : nat) :
  (forall c c', R c c' -> reaches mu c c') ->
  forall n c c', iterated R n c c' -> reaches (n * mu) c c'.
Proof.
  intros HR. induction n as [|n IH]; intros c c'; cbn [iterated Nat.mul].
  - intros ->. apply reaches_refl.
  - intros (mid & H1 & H2). eapply reaches_trans; [apply HR, H1 | apply IH, H2].
Qed.

Lemma spans_reaches (F : nat) (r : regex) :
  forall c c', spans F r c c' -> reaches (minLen r) c c'.
Proof.
  induction r as [|cls|r1 IH1 r2 IH2|r1 IH1 r2 IH2|greedy lo hi r1 IH1| |r1 IH1];
    intros c c'; cbn [spans minLen].
  - intros ->. apply reaches_refl.
  - intros (a & s & Hrest & _ & ->). exists [a]. cbn.
    repeat split; [assumption | lia | lia].
  - intros (mid & H1 & H2). eapply reaches_trans; [apply IH1, H1 | apply IH2, H2].
  - intros [H|H]; [apply IH1 in H | apply IH2 in H];
      (eapply reaches_weaken; [|exact H]); lia.
  - intros (n & Hlo & _ & Hit).
    apply (iterated_reaches _ _ IH1) in Hit.
    eapply reaches_weaken; [|exact Hit]. apply Nat.mul_le_mono_r. assumption.
  - intros [-> _]. apply reaches_refl.
  - intros [-> _]. apply reaches_refl.
Qed.

(** *** The catalogue, by key *)

Lemma patternOf_elem (key : string) (pii : PIIPattern)
    (patterns : list (string * PIIPattern)) :
  NoDup (map fst patterns) -> (key, pii) ∈ patterns ->
  patternOf key patterns = Some pii.
Proof.
  induction patterns as [|[k p] patterns IH]; intros Hnd Hin.
  - apply elem_of_nil in Hin. contradiction.
  - cbn [map fst] in Hnd. apply NoDup_cons in Hnd as [Hk Hnd].
    cbn [patternOf]. apply elem_of_cons in Hin as [[= -> ->]|Hin].
    + rewrite String.eqb_refl. reflexivity.
    + destruct (String.eqb_spec k key) as [->|_]; [|apply IH; assumption].
      exfalso. apply Hk. apply list_elem_of_fmap. exists (key, pii).
      split; [reflexivity | assumption].
Qed.

Lemma listed_patternOf (kv : string * PIIData) :
  listed kv -> patternOf (fst kv) sortedPatterns = Some (info (snd kv)).
Proof. apply patternOf_elem, sortedPatterns_keys. Qed.

(** *** The entries of the two detectors *)

Lemma setEntry_Forall_key (P : string * PIIData -> Prop) (key : string)
    (v : PIIData) (o : Detected) :
  Forall P o -> P (key, v) -> Forall P (setEntry key v o).
Proof.
  intros Ho Hv. induction Ho as [|[k w] o Hw Ho IH]; cbn [setEntry].
  - constructor; [assumption | constructor].
  - destruct (String.eqb_spec k key) as [->|_]; constructor; assumption.
Qed.

Lemma pushMatches_Forall_key (P : string * PIIData -> Prop) (key : string)
    (found : list PIIMatch) (o : Detected) :
  Forall P o ->
  (forall v, P (key, v) ->
     P (key, {| matches := matches v ++ found;
                count := count v + length found; info := info v |})) ->
  Forall P (pushMatches key found o).
Proof.
  intros Ho Hv. induction Ho as [|[k w] o Hw Ho IH]; cbn [pushMatches].
  - constructor.
  - destruct (String.eqb_spec k key) as [->|_]; constructor; try assumption.
    apply Hv. assumption.
Qed.

Lemma nonempty_length {A : Type} (l : list A) : (0 <? length l) = true -> l <> [].
Proof. destruct l; [discriminate | discriminate]. Qed.

Lemma forEachStandard_entries (s : jsString)
    (patterns : list (string * PIIPattern)) :
  Forall (fun kp => kp ∈ sortedPatterns) patterns ->
  forall st st',
    Forall (singlePassEntry s) (fst st) ->
    forEachStandard patterns s st = Some st' ->
    Forall (singlePassEntry s) (fst st').
Proof.
  induction 1 as [|[key pii] patterns Hp Hps IH]; intros st st' Hst;
    cbn [forEachStandard].
  - intros [= <-]. assumption.
  - destruct (scanStandard _ _ _ _ _ _) as [found|] eqn:Hscan; [|discriminate].
    apply scanStandard_foundBy in Hscan as (new & -> & Hin & Hap);
      [|apply located_startOf].
    cbn [app]. apply IH. destruct (0 <? length new) eqn:Hlen; [|assumption].
    cbn [fst]. apply setEntry_Forall_key; [assumption|].
    repeat split; cbn [fst snd matches info count]; try assumption.
    apply nonempty_length. assumption.
Qed.

Lemma forEachStandard_order (s : jsString)
    (patterns : list (string * PIIPattern)) :
  NoDup (map fst patterns) ->
  forall st st',
    (forall k, k ∈ map fst patterns -> getEntry k (fst st) = None) ->
    forEachStandard patterns s st = Some st' ->
    exists ks, map carried (fst st') = map carried (fst st) ++ ks
               /\ ks `sublist_of` patterns.
Proof.
  induction patterns as [|[key pii] patterns IH]; intros Hnd st st' Hfresh;
    cbn [forEachStandard].
  - intros [= <-]. exists []. rewrite app_nil_r. split; [reflexivity | constructor].
  - destruct (scanStandard _ _ _ _ _ _) as [found|]; [|discriminate].
    cbn [map fst] in Hnd. apply NoDup_cons in Hnd as [Hkey Hnd].
    assert (Hk : getEntry key (fst st) = None)
      by (apply Hfresh; cbn [map fst]; apply list_elem_of_here).
    intros H. apply IH in H as (ks & Heq & Hsub); [|assumption|].
    + destruct (0 <? length found).
      * cbn [fst] in Heq. rewrite setEntry_fresh, map_app in Heq by assumption.
        cbn [map] in Heq. rewrite <- app_assoc in Heq.
        exists ((key, pii) :: ks). split; [exact Heq|].
        apply sublist_skip. assumption.
      * exists ks. split; [exact Heq|]. apply sublist_cons. assumption.
    + intros k Hin. destruct (0 <? length found).
      * cbn [fst]. rewrite getEntry_setEntry_ne.
        -- apply Hfresh. cbn [map fst]. apply list_elem_of_further. assumption.
        -- intros ->. contradiction.
      * apply Hfresh. cbn [map fst]. apply list_elem_of_further. assumption.
Qed.

Lemma getEntry_Some (key : string) (v : PIIData) (o : Detected)
    (P : string * PIIData -> Prop) :
  Forall P o -> getEntry key o = Some v -> P (key, v).
Proof.
  induction 1 as [|[k w] o Hw Ho IH]; cbn [getEntry]; [discriminate|].
  destruct (String.eqb_spec k key) as [->|_]; [|assumption].
  intros [= <-]. assumption.
Qed.

Lemma listed_unique (key : string) (v : PIIData) (pii : PIIPattern) :
  listed (key, v) -> (key, pii) ∈ sortedPatterns -> info v = pii.
Proof.
  intros Hv Hp. apply listed_patternOf in Hv. cbn [fst snd] in Hv.
  rewrite (patternOf_elem _ _ _ sortedPatterns_keys Hp) in Hv.
  injection Hv as <-. reflexivity.
Qed.

Lemma forEachChunk_entries (chunk : Chunk)
    (patterns : list (string * PIIPattern)) :
  Forall (fun kp => kp ∈ sortedPatterns) patterns ->
  forall o o',
    Forall chunkedEntry o -> forEachChunk patterns chunk o = Some o' ->
    Forall chunkedEntry o'.
Proof.
  induction 1 as [|[key pii] patterns Hp Hps IH]; intros o o' Ho;
    cbn [forEachChunk].
  - intros [= <-]. assumption.
  - pose proof (scanChunk_shift key pii chunk (rounds (chunkText chunk))
                  (startOf (chunkText chunk)) []) as Hs.
    cbn [map] in Hs. rewrite Hs. clear Hs.
    destruct (scanStandard _ _ _ _ _ _) as [found|] eqn:Hscan; [|discriminate].
    cbn [fmap option_fmap option_map].
    apply scanStandard_foundBy in Hscan as (new & -> & Hin & _);
      [|apply located_startOf].
    cbn [app]. apply IH.
    destruct (0 <? length (map (shift (offset chunk)) new)) eqn:Hlen;
      [|assumption].
    assert (Hcand : Forall (fun m => candidate key pii (text m))
                      (map (shift (offset chunk)) new)).
    { apply Forall_map. eapply Forall_impl; [exact Hin|].
      intros m Hm. cbn. exists (chunkText chunk), m.
      split; [assumption | reflexivity]. }
    destruct (getEntry key o) as [v|] eqn:Hget.
    + apply pushMatches_Forall_key; [assumption|].
      intros w (Hl & Hw & Hne & Hc). cbn [fst snd] in *.
      pose proof (listed_unique _ _ _ Hl Hp) as Hinfo.
      repeat split; cbn [fst snd matches info count].
      * exact Hl.
      * apply Forall_app. split; [assumption|]. rewrite Hinfo. assumption.
      * intros [H _]%app_eq_nil. contradiction.
      * rewrite length_app, Hc. reflexivity.
    + rewrite pushMatches_fresh by assumption.
      apply setEntry_Forall_key; [assumption|].
      repeat split; cbn [fst snd matches info count]; try assumption.
      apply nonempty_length. assumption.
Qed.

Lemma forChunks_entries (chunks : list Chunk) :
  forall i o o',
    Forall chunkedEntry o -> forChunks chunks i o = Some o' ->
    Forall chunkedEntry o'.
Proof.
  induction chunks as [|chunk chunks IH]; intros i o o' Ho; cbn [forChunks].
  - intros [= <-]. assumption.
  - unfold processChunk.
    destruct (forEachChunk _ _ _) as [o1|] eqn:H1; [|discriminate].
    apply IH. eapply forEachChunk_entries; [| |exact H1].
    + apply Forall_forall. intros kp Hkp. exact Hkp.
    + destruct (i =? 0); [constructor | assumption].
Qed.

Lemma dropRepeats_nonempty (ms : list PIIMatch) :
  ms <> [] -> dropRepeats [] ms <> [].
Proof.
  destruct ms as [|m ms]; [contradiction|]. intros _. cbn [dropRepeats].
  destruct (decide (identity m ∈ [])) as [H|_]; [|discriminate].
  apply elem_of_nil in H. contradiction.
Qed.

Lemma deduplicateMatches_entries (o : Detected) :
  Forall chunkedEntry o ->
  Forall (fun kv => chunkedEntry kv /\ NoDup (map identity (matches (snd kv))))
    (deduplicateMatches o).
Proof.
  unfold deduplicateMatches. intros Ho. apply Forall_map.
  eapply Forall_impl; [exact Ho|]. intros [k v] (Hl & Hv & Hne & _).
  cbn [fst snd matches count info] in *. rewrite uniqueLoop_spec.
  split; [|apply dropRepeats_NoDup].
  repeat split; cbn [fst snd matches count info].
  - exact Hl.
  - eapply Forall_sublist; [apply dropRepeats_sublist | assumption].
  - apply dropRepeats_nonempty. assumption.
Qed.

(** What the two detectors return, entry by entry. *)
Lemma processStandardText_entries (D : jsString) (R : Detected) (n : nat) :
  processStandardText [] D = Some (R, n) -> Forall (singlePassEntry D) R.
Proof.
  unfold processStandardText. intros H.
  apply (forEachStandard_entries D sortedPatterns) with (st := ([], 0))
                                                         (st' := (R, n)).
  - apply Forall_forall. intros kp Hkp. exact Hkp.
  - constructor.
  - exact H.
Qed.

Lemma processStandardText_order (D : jsString) (R : Detected) (n : nat) :
  processStandardText [] D = Some (R, n) ->
  map carried R `sublist_of` sortedPatterns.
Proof.
  unfold processStandardText. intros H.
  destruct (forEachStandard_order D _ sortedPatterns_keys ([], 0) (R, n)
              (fun k _ => eq_refl) H) as (ks & Heq & Hsub).
  change (map carried R = ks) in Heq. rewrite Heq. exact Hsub.
Qed.

(** *** Matches are words of their patterns *)

Lemma between_reaches (n : nat) (c c' : cursor) :
  reaches n c c' ->
  rest c = between c c' ++ rest c' /\ pos c' = pos c + length (between c c').
Proof.
  intros (p & Hrest & Hpos & _). unfold between. rewrite Hrest, Hpos.
  replace (pos c + length p - pos c) with (length p) by lia.
  rewrite take_app_length. split; reflexivity.
Qed.

Lemma between_refl (c : cursor) : between c c = [].
Proof. unfold between. rewrite Nat.sub_diag. reflexivity. Qed.

Lemma between_trans (n1 n2 : nat) (c mid c' : cursor) :
  reaches n1 c mid -> reaches n2 mid c' ->
  between c c' = between c mid ++ between mid c'.
Proof.
  intros H1 H2.
  destruct (between_reaches _ _ _ H1) as [Hr1 Hp1].
  destruct (between_reaches _ _ _ H2) as [Hr2 Hp2].
  unfold between at 1. rewrite Hr1, Hr2, Hp2, Hp1, app_assoc.
  replace (pos c + length (between c mid) + length (between mid c') - pos c)
    with (length (between c mid ++ between mid c'))
    by (rewrite length_app; lia).
  apply take_app_length.
Qed.

Lemma iterated_lang (F : nat) (r : regex) :
  (forall c c', spans F r c c' -> lang r (between c c')) ->
  forall n c c',
    iterated (spans F r) n c c' ->
    exists ws, length ws = n /\ Forall (lang r) ws /\ between c c' = concat ws.
Proof.
  intros IH. induction n as [|n IHn]; intros c c'; cbn [iterated].
  - intros ->. exists []. rewrite between_refl. repeat split. constructor.
  - intros (mid & H1 & H2).
    destruct (IHn _ _ H2) as (ws & Hlen & Hws & Heq).
    exists (between c mid :: ws). cbn [length concat]. rewrite Hlen, <- Heq.
    split; [reflexivity|]. split; [constructor; [apply IH, H1 | assumption]|].
    eapply between_trans.
    + apply (spans_reaches F r), H1.
    + eapply iterated_reaches; [apply (spans_reaches F r) | exact H2].
Qed.

Lemma spans_lang (F : nat) (r : regex) :
  forall c c', spans F r c c' -> lang r (between c c').
Proof.
  induction r as [|cls|r1 IH1 r2 IH2|r1 IH1 r2 IH2|greedy lo hi r1 IH1| |r1 IH1];
    intros c c'; cbn [spans lang].
  - intros ->. apply between_refl.
  - intros (a & s & Hrest & Hcls & ->). exists a. split; [|assumption].
    unfold between. cbn [pos]. rewrite Hrest.
    replace (S (pos c) - pos c) with 1 by lia. reflexivity.
  - intros (mid & H1 & H2). exists (between c mid), (between mid c').
    split; [|split; [apply IH1, H1 | apply IH2, H2]].
    eapply between_trans; [apply (spans_reaches F r1), H1 | apply (spans_reaches F r2), H2].
  - intros [H|H]; [left; apply IH1, H | right; apply IH2, H].
  - intros (n & Hlo & Hhi & Hit).
    destruct (iterated_lang F r1 IH1 _ _ _ Hit) as (ws & Hlen & Hws & Heq).
    exists ws. rewrite Hlen. repeat split; assumption.
  - intros [-> _]. apply between_refl.
  - intros [-> _]. apply between_refl.
Qed.

Lemma foundBy_lang (key : string) (pii : PIIPattern) (s : jsString)
    (m : PIIMatch) :
  foundBy key pii s m -> lang (source (pattern pii)) (text m).
Proof.
  intros H. apply foundBy_spans in H as (c1 & c2 & Hs & ->).
  apply (spans_lang _ _ _ _ Hs).
Qed.

(** *** The social security numbers *)

Lemma code_eqb (a b : ascii) : (code a =? code b)%N = Ascii.eqb a b.
Proof.
  destruct (Ascii.eqb_spec a b) as [->|Hne]; [apply N.eqb_refl|].
  apply N.eqb_neq. intros H. apply Hne.
  rewrite <- (ascii_N_embedding a), <- (ascii_N_embedding b).
  unfold code in H. rewrite H. reflexivity.
Qed.

Lemma ssnRe_prefix (F : nat) (c c' : cursor) :
  spans F ssnRe c c' ->
  startsWith (between c c') (str "000") = false
  /\ startsWith (between c c') (str "666") = false
  /\ startsWith (between c c') (str "9") = false.
Proof.
  unfold ssnRe, wb.
  match goal with
  | |- spans F (_ +> _ +> _ +> ?t) _ _ -> _ => generalize t
  end.
  intros tail. cbn [spans].
  intros (m1 & [-> _] & m2 & [-> Hna] & m3 & Hd & Hrest).
  apply (spans_reaches F) in Hrest.
  destruct Hd as (n & Hlo & Hhi & Hit). cbn [withinMax] in Hhi.
  assert (n = 3) as -> by lia. cbn [iterated] in Hit.
  destruct Hit as (x1 & (a1 & s1 & Hr1 & Hc1 & ->) & x2
                   & (a2 & s2 & Hr2 & Hc2 & ->) & x3
                   & (a3 & s3 & Hr3 & Hc3 & ->) & ->).
  cbn [rest pos] in *. subst s1 s2.
  assert (Hreach : reaches 3 c (Cursor (Some a3) s3 (S (S (S (pos c)))))).
  { exists [a1; a2; a3]. cbn [rest pos length app].
    repeat split; first [assumption | lia]. }
  rewrite (between_trans _ _ _ _ _ Hreach Hrest).
  assert (Hb : between c (Cursor (Some a3) s3 (S (S (S (pos c)))))
               = [a1; a2; a3]).
  { unfold between. cbn [pos]. rewrite Hr1.
    replace (S (S (S (pos c))) - pos c) with 3 by lia. reflexivity. }
  rewrite Hb. cbn [app startsWith str String.list_ascii_of_string].
  unfold alts, lit in Hna.
  cbn [str String.list_ascii_of_string lit_chars] in Hna.
  unfold chr, dgt in Hna, Hc2, Hc3. destruct c as [b0 r0 p0].
  cbn [rest pos] in Hr1. subst r0. cbn [run rest pos] in Hna.
  rewrite Hc2, Hc3 in Hna. unfold only in Hna. cbn zeta in Hna.
  rewrite <- !code_eqb, !andb_true_r.
  destruct (code "0" =? code a1)%N; destruct (code "0" =? code a2)%N;
    destruct (code "0" =? code a3)%N; try discriminate;
    destruct (code "6" =? code a1)%N; destruct (code "6" =? code a2)%N;
    destruct (code "6" =? code a3)%N; try discriminate;
    destruct (code "9" =? code a1)%N; try discriminate;
    repeat split; reflexivity.
Qed.

(** *** From the entries to the matches of a key *)

Lemma singlePassEntry_chunkedEntry (D : jsString) (kv : string * PIIData) :
  singlePassEntry D kv -> chunkedEntry kv.
Proof.
  intros (Hl & Hv & _ & Hne & Hc). repeat split; try assumption.
  eapply Forall_impl; [exact Hv|]. intros m Hm. exists D, m.
  split; [assumption | reflexivity].
Qed.

Lemma matchesOf_Forall (P : string * PIIData -> Prop) (Q : PIIMatch -> Prop)
    (key : string) (o : Detected) :
  Forall P o ->
  (forall v, P (key, v) -> Forall Q (matches v)) ->
  Forall Q (matchesOf key o).
Proof.
  intros Ho HPQ. unfold matchesOf.
  destruct (getEntry key o) as [v|] eqn:Hget; [|constructor].
  apply HPQ. eapply getEntry_Some; eassumption.
Qed.

Lemma candidate_texts (Q : jsString -> Prop) (key : string) (p : PIIPattern) :
  patternOf key sortedPatterns = Some p ->
  (forall s m, foundBy key p s m -> Q (text m)) ->
  forall v, chunkedEntry (key, v) -> Forall (fun m => Q (text m)) (matches v).
Proof.
  intros Hp HQ v (Hl & Hv & _). cbn [fst snd] in *.
  apply listed_patternOf in Hl. cbn [fst snd] in Hl. rewrite Hp in Hl.
  injection Hl as Hl. rewrite <- Hl in Hv. eapply Forall_impl; [exact Hv|].
  intros m (s & m' & Hm' & ->). cbn beta. eapply HQ. exact Hm'.
Qed.

Lemma processLargeText_total (D : jsString) :
  exists R n, processLargeText [] D = Some (R, n)
              /\ Forall (fun kv => chunkedEntry kv
                                   /\ NoDup (map identity (matches (snd kv)))) R
              /\ n = sumCounts R.
Proof.
  unfold processLargeText.
  destruct (forChunks_total (makeChunks D) sortedPatterns_consuming 0 [])
    as [o Ho].
  rewrite Ho. eexists _, _. split; [reflexivity|]. split; [|reflexivity].
  apply deduplicateMatches_entries.
  eapply forChunks_entries; [|exact Ho]. constructor.
Qed.

(** A property of the texts of one key holds in the results of both
    detectors when it holds of what the loop body records. *)
Lemma detectors_texts (Q : jsString -> Prop) (key : string) (p : PIIPattern)
    (D : jsString) :
  patternOf key sortedPatterns = Some p ->
  (forall s m, foundBy key p s m -> Q (text m)) ->
  (exists R n, processStandardText [] D = Some (R, n)
               /\ Forall (fun m => Q (text m)) (matchesOf key R))
  /\ (exists R n, processLargeText [] D = Some (R, n)
                  /\ Forall (fun m => Q (text m)) (matchesOf key R)).
Proof.
  intros Hp HQ. split.
  - destruct (processStandardText_total D) as (R & n & H & _).
    exists R, n. split; [assumption|].
    apply (matchesOf_Forall chunkedEntry); [|apply (candidate_texts Q key p Hp HQ)].
    eapply Forall_impl; [apply (processStandardText_entries D R n H)|].
    apply singlePassEntry_chunkedEntry.
  - destruct (processLargeText_total D) as (R & n & H & HR & _).
    exists R, n. split; [assumption|].
    apply (matchesOf_Forall chunkedEntry); [|apply (candidate_texts Q key p Hp HQ)].
    eapply Forall_impl; [exact HR|]. intros kv [Hkv _]. exact Hkv.
Qed.

Lemma catalogue_firstName :
  exists p, patternOf "firstName" sortedPatterns = Some p
            /\ contextAware p = true.
Proof. eexists. split; [vm_compute; reflexivity | reflexivity]. Qed.

Lemma catalogue_creditCard :
  exists p, patternOf "creditCard" sortedPatterns = Some p
            /\ requiresLuhn p = true.
Proof. eexists. split; [vm_compute; reflexivity | reflexivity]. Qed.

Lemma catalogue_ssn :
  exists p, patternOf "ssn" sortedPatterns = Some p
            /\ source (pattern p) = ssnRe.
Proof. eexists. split; [vm_compute; reflexivity | vm_compute; reflexivity]. Qed.

(** *** What the detectors record *)

(** X1.  Whatever the document, the text of every match that either
    detector records is a word of the pattern of its category in the
    catalogue, read as a regular expression. *)
Theorem detectors_record_pattern_words (D : jsString) :
  (exists R n, processStandardText [] D = Some (R, n)
     /\ Forall (fun kv =>
                  patternOf (fst kv) sortedPatterns = Some (info (snd kv))
                  /\ Forall (fun m => lang (source (pattern (info (snd kv))))
                                        (text m))
                       (matches (snd kv))) R)
  /\ (exists R n, processLargeText [] D = Some (R, n)
        /\ Forall (fun kv =>
                     patternOf (fst kv) sortedPatterns = Some (info (snd kv))
                     /\ Forall (fun m => lang (source (pattern (info (snd kv))))
                                           (text m))
                          (matches (snd kv))) R).
Proof.
  assert (Hc : forall kv, chunkedEntry kv ->
            patternOf (fst kv) sortedPatterns = Some (info (snd kv))
            /\ Forall (fun m => lang (source (pattern (info (snd kv)))) (text m))
                 (matches (snd kv))).
  { intros kv (Hl & Hv & _). split; [apply listed_patternOf, Hl|].
    eapply Forall_impl; [exact Hv|]. intros m (s & m' & Hm' & ->).
    eapply foundBy_lang. exact Hm'. }
  split.
  - destruct (processStandardText_total D) as (R & n & H & _).
    exists R, n. split; [assumption|].
    eapply Forall_impl; [apply (processStandardText_entries D R n H)|].
    intros kv Hkv. eapply Hc, singlePassEntry_chunkedEntry, Hkv.
  - destruct (processLargeText_total D) as (R & n & H & HR & _).
    exists R, n. split; [assumption|].
    eapply Forall_impl; [exact HR|]. intros kv [Hkv _]. apply Hc, Hkv.
Qed.

(** X2.  The single pass records no match that is written as a key in the
    document, that is with a quote right before it and a quote and a colon
    right after it. *)
Theorem single_pass_skips_json_keys (D : jsString) :
  exists R n, processStandardText [] D = Some (R, n)
    /\ Forall (fun kv => Forall (fun m => writtenAsKey D m = false)
                           (matches (snd kv))) R.
Proof.
  destruct (processStandardText_total D) as (R & n & H & _).
  exists R, n. split; [assumption|].
  eapply Forall_impl; [apply (processStandardText_entries D R n H)|].
  intros kv (_ & Hv & _). eapply Forall_impl; [exact Hv|].
  intros m Hm. apply (foundBy_accepted _ _ _ _ Hm).
Qed.

(** X3.  No first name that either detector records is one of the common
    words, whatever the document. *)
Theorem first_names_exclude_common_words (D : jsString) :
  (exists R n, processStandardText [] D = Some (R, n)
     /\ Forall (fun m => isCommonWord (text m) = false)
          (matchesOf "firstName" R))
  /\ (exists R n, processLargeText [] D = Some (R, n)
        /\ Forall (fun m => isCommonWord (text m) = false)
             (matchesOf "firstName" R)).
Proof.
  destruct catalogue_firstName as (p & Hp & Hctx).
  apply (detectors_texts (fun t => isCommonWord t = false) _ p D Hp).
  intros s m Hm. apply (foundBy_accepted _ _ _ _ Hm). exact Hctx.
Qed.

(** X4.  Every credit card number that either detector records passes the
    Luhn check, whatever the document. *)
Theorem credit_cards_pass_luhn (D : jsString) :
  (exists R n, processStandardText [] D = Some (R, n)
     /\ Forall (fun m => luhnCheck (text m) = true) (matchesOf "creditCard" R))
  /\ (exists R n, processLargeText [] D = Some (R, n)
        /\ Forall (fun m => luhnCheck (text m) = true)
             (matchesOf "creditCard" R)).
Proof.
  destruct catalogue_creditCard as (p & Hp & Hluhn).
  apply (detectors_texts (fun t => luhnCheck t = true) _ p D Hp).
  intros s m Hm. apply (foundBy_accepted _ _ _ _ Hm).
  rewrite Hluhn. reflexivity.
Qed.

(** X5.  No social security number that either detector records starts
    with 000, with 666 or with a 9. *)
Theorem ssn_matches_exclude_reserved_prefixes (D : jsString) :
  (exists R n, processStandardText [] D = Some (R, n)
     /\ Forall (fun m => startsWith (text m) (str "000") = false
                         /\ startsWith (text m) (str "666") = false
                         /\ startsWith (text m) (str "9") = false)
          (matchesOf "ssn" R))
  /\ (exists R n, processLargeText [] D = Some (R, n)
        /\ Forall (fun m => startsWith (text m) (str "000") = false
                            /\ startsWith (text m) (str "666") = false
                            /\ startsWith (text m) (str "9") = false)
             (matchesOf "ssn" R)).
Proof.
  destruct catalogue_ssn as (p & Hp & Hre).
  apply (detectors_texts
           (fun t => startsWith t (str "000") = false
                     /\ startsWith t (str "666") = false
                     /\ startsWith t (str "9") = false) _ p D Hp).
  intros s m Hm. apply foundBy_spans in Hm as (c1 & c2 & Hs & ->).
  rewrite Hre in Hs. apply (ssnRe_prefix _ _ _ Hs).
Qed.

(** *** Order *)

Lemma stableSort_sorted {A : Type} (key : A -> nat) (l : list A) :
  StronglySorted (fun a b => key a <= key b)
    (stableSort (fun a b => key b <? key a) l).
Proof.
  unfold stableSort. induction l as [|x l IH]; cbn [foldr]; [constructor|].
  revert IH. generalize (foldr (insertSorted (fun a b => key b <? key a)) [] l).
  intros sorted. induction 1 as [|y sorted Hs IH Hy]; cbn [insertSorted].
  - repeat constructor.
  - destruct (Nat.ltb_spec (key y) (key x)) as [Hxy|Hxy].
    + constructor; [assumption|].
      rewrite (insertSorted_Permutation _ x sorted).
      constructor; [lia | assumption].
    + constructor; [constructor; assumption|].
      constructor; [assumption|].
      eapply Forall_impl; [exact Hy|]. intros z Hz. cbn beta in Hz. lia.
Qed.

Lemma StronglySorted_sublist {A : Type} (R : A -> A -> Prop) (l1 l2 : list A) :
  l1 `sublist_of` l2 -> StronglySorted R l2 -> StronglySorted R l1.
Proof.
  induction 1 as [|x l1 l2 Hsub IH|x l1 l2 Hsub IH]; intros Hs.
  - constructor.
  - apply StronglySorted_inv in Hs as [Hs Hx]. constructor; [apply IH, Hs|].
    eapply Forall_sublist; eassumption.
  - apply StronglySorted_inv in Hs as [Hs _]. apply IH, Hs.
Qed.

Lemma StronglySorted_map {A B : Type} (R : B -> B -> Prop) (f : A -> B)
    (l : list A) :
  StronglySorted R (map f l) -> StronglySorted (fun a b => R (f a) (f b)) l.
Proof.
  induction l as [|x l IH]; cbn [map]; intros Hs; [constructor|].
  apply StronglySorted_inv in Hs as [Hs Hx]. constructor; [apply IH, Hs|].
  rewrite Forall_forall in Hx. apply Forall_forall. intros b Hb. apply Hx.
  apply list_elem_of_fmap. exists b. split; [reflexivity | assumption].
Qed.

(** X6.  In the result of the single pass the matches of a category come
    in the order of the document and do not overlap: each starts at or
    after the end of the one before it, and none is empty. *)
Theorem single_pass_matches_in_order (D : jsString) :
  exists R n, processStandardText [] D = Some (R, n)
    /\ Forall (fun kv => apartFrom 0 (matches (snd kv))
                         /\ Forall (fun m => 0 < length (text m))
                              (matches (snd kv))) R.
Proof.
  destruct (processStandardText_total D) as (R & n & H & _).
  exists R, n. split; [assumption|].
  eapply Forall_impl; [apply (processStandardText_entries D R n H)|].
  intros kv (Hl & Hv & Hap & _). split; [assumption|].
  eapply Forall_impl; [exact Hv|]. intros m Hm. apply foundBy_length in Hm.
  pose proof sortedPatterns_consuming as Hcons. unfold consuming in Hcons.
  rewrite Forall_forall in Hcons. specialize (Hcons _ Hl). cbn [snd] in Hcons.
  lia.
Qed.

Lemma totals (R : Detected) :
  Forall chunkedEntry R ->
  sumCounts R = totalMatches R
  /\ Forall (fun kv => 0 < length (matches (snd kv))) R
  /\ (sumCounts R = 0 <-> R = []).
Proof.
  intros HR.
  assert (Hpos : Forall (fun kv => 0 < length (matches (snd kv))) R).
  { eapply Forall_impl; [exact HR|]. intros kv (_ & _ & Hne & _).
    destruct (matches (snd kv)); [contradiction | cbn; lia]. }
  assert (Htot : sumCounts R = totalMatches R).
  { apply sumCounts_total. eapply Forall_impl; [exact HR|].
    intros kv (_ & _ & _ & Hc). exact Hc. }
  split; [assumption|]. split; [assumption|]. rewrite Htot.
  destruct Hpos as [|kv R Hkv _]; [split; reflexivity|].
  unfold totalMatches. cbn [map sum_list sum_list_with].
  match goal with |- context [sum_list_with ?f ?l] =>
    generalize (sum_list_with f l)
  end.
  intros t. unfold id. split; [intros Hz; exfalso; lia | discriminate].
Qed.

(** X7.  The total that either detector reports is the number of matches
    in its result; no entry of the result has an empty list of matches, so
    the total is zero exactly when the result has no entry. *)
Theorem detection_totals (D : jsString) :
  (exists R n, processStandardText [] D = Some (R, n)
     /\ n = totalMatches R
     /\ Forall (fun kv => 0 < length (matches (snd kv))) R
     /\ (n = 0 <-> R = []))
  /\ (exists R n, processLargeText [] D = Some (R, n)
        /\ n = totalMatches R
        /\ Forall (fun kv => 0 < length (matches (snd kv))) R
        /\ (n = 0 <-> R = [])).
Proof.
  split.
  - destruct (processStandardText_total D) as (R & n & H & _ & ->).
    exists R, (sumCounts R). split; [assumption|]. apply totals.
    eapply Forall_impl; [apply (processStandardText_entries D R _ H)|].
    apply singlePassEntry_chunkedEntry.
  - destruct (processLargeText_total D) as (R & n & H & HR & ->).
    exists R, (sumCounts R). split; [assumption|]. apply totals.
    eapply Forall_impl; [exact HR|]. intros kv [Hkv _]. exact Hkv.
Qed.

(** X8.  The entries of the result of the single pass are in the order of
    the catalogue sorted by priority: what they carry is a sublist of the
    sorted catalogue, so no key comes twice and priorities never go down
    from one entry to the next. *)
Theorem single_pass_entries_by_priority (D : jsString) :
  exists R n, processStandardText [] D = Some (R, n)
    /\ map carried R `sublist_of` sortedPatterns
    /\ NoDup (map fst R)
    /\ StronglySorted
         (fun a b => priorityOf (carried a) <= priorityOf (carried b)) R.
Proof.
  destruct (processStandardText_total D) as (R & n & H & _).
  exists R, n. split; [assumption|].
  pose proof (processStandardText_order D R n H) as Hsub.
  split; [assumption|]. split.
  - replace (map fst R) with (map fst (map carried R))
      by (rewrite map_map; reflexivity).
    eapply sublist_NoDup; [apply sortedPatterns_keys | apply (fmap_sublist fst _ _ Hsub)].
  - apply (StronglySorted_map (fun a b => priorityOf a <= priorityOf b) carried).
    eapply StronglySorted_sublist; [exact Hsub|].
    apply (stableSort_sorted priorityOf).
Qed.

(** *** The e-mail addresses *)

Lemma lang_run (greedy : bool) (lo : nat) (hi : option nat) (cls : charClass)
    (w : jsString) :
  lang (Repeat greedy lo hi (Chars cls)) w ->
  lo <= length w /\ Forall (fun a => cls (code a) = true) w.
Proof.
  cbn [lang]. intros (ws & Hlo & _ & Hws & ->).
  assert (H : length (concat ws) = length ws
              /\ Forall (fun a => cls (code a) = true) (concat ws)).
  { clear Hlo. induction Hws as [|x ws (a & -> & Ha) _ [IH1 IH2]].
    - split; [reflexivity | constructor].
    - cbn [concat app length]. rewrite IH1.
      split; [reflexivity | constructor; assumption]. }
  destruct H as [-> H]. split; assumption.
Qed.

Lemma lang_chr (a : ascii) (w : jsString) : lang (chr a) w -> w = [a].
Proof.
  unfold chr, only. cbn [lang]. intros (b & -> & Hb). cbn zeta in Hb.
  rewrite code_eqb in Hb. apply Ascii.eqb_eq in Hb. rewrite Hb. reflexivity.
Qed.

Lemma emailRe_shape (w : jsString) : lang emailRe w -> addressShape w.
Proof.
  unfold emailRe, wb, plus, atLeast.
  intros (w0 & r0 & -> & -> & w1 & r1 & -> & H1 & w2 & r2 & -> & H2
          & w3 & r3 & -> & H3 & w4 & r4 & -> & H4 & w5 & w6 & -> & H5 & ->).
  apply lang_run in H1 as [L1 _], H3 as [L3 _], H5 as [L5 C5].
  apply lang_chr in H2 as ->, H4 as ->.
  exists w1, w3, w5. cbn [app]. rewrite app_nil_r.
  repeat split; assumption.
Qed.

Lemma catalogue_email :
  exists p, patternOf "email" sortedPatterns = Some p
            /\ source (pattern p) = emailRe.
Proof. eexists. split; [vm_compute; reflexivity | vm_compute; reflexivity]. Qed.

(** X9.  Every e-mail address that either detector records has a local
    part, an at sign, a domain, a dot and an ending of two characters or
    more; the characters of the ending are letters or bars, the bar being
    in the class [A-Z|a-z] of the pattern. *)
Theorem email_matches_have_address_shape (D : jsString) :
  (exists R n, processStandardText [] D = Some (R, n)
     /\ Forall (fun m => addressShape (text m)) (matchesOf "email" R))
  /\ (exists R n, processLargeText [] D = Some (R, n)
        /\ Forall (fun m => addressShape (text m)) (matchesOf "email" R)).
Proof.
  destruct catalogue_email as (p & Hp & Hre).
  apply (detectors_texts addressShape _ p D Hp).
  intros s m Hm. apply foundBy_lang in Hm. rewrite Hre in Hm.
  apply emailRe_shape, Hm.
Qed.

(** *** Errors that the Luhn check catches *)

Lemma digitsOf_app (a b : jsString) : digitsOf (a ++ b) = digitsOf a ++ digitsOf b.
Proof. unfold digitsOf. rewrite List.filter_app, map_app. reflexivity. Qed.

Lemma digitsOf_digit (d : ascii) (b : jsString) :
  digit (code d) = true ->
  digitsOf (d :: b) = N.to_nat (code d - 48) :: digitsOf b.
Proof. intros H. unfold digitsOf. cbn [List.filter]. rewrite H. reflexivity. Qed.

Lemma digit_value (d : ascii) :
  digit (code d) = true -> N.to_nat (code d - 48) <= 9.
Proof.
  unfold digit, inRange. cbn zeta. intros [H1 H2]%andb_true_iff.
  apply N.leb_le in H1, H2. change (code "0") with 48%N in H1.
  change (code "9") with 57%N in H2. lia.
Qed.

Lemma digit_value_inj (d d' : ascii) :
  digit (code d) = true -> digit (code d') = true ->
  N.to_nat (code d - 48) = N.to_nat (code d' - 48) -> d = d'.
Proof.
  unfold digit, inRange. cbn zeta.
  intros [H1 _]%andb_true_iff [H1' _]%andb_true_iff Heq.
  apply N.leb_le in H1, H1'. change (code "0") with 48%N in H1, H1'.
  assert (Hc : code d = code d') by lia.
  rewrite <- (ascii_N_embedding d), <- (ascii_N_embedding d').
  unfold code in Hc. rewrite Hc. reflexivity.
Qed.

(** The sum of the loop with one digit set apart. *)
Lemma luhnLoop_one (parity : nat) (A B : list nat) (x : nat) :
  luhnLoop parity 0 (A ++ x :: B) 0
  = luhnLoop parity 0 (A ++ 0 :: B) 0 + luhnTerm parity (length A) x.
Proof.
  rewrite !luhnLoop_sum, !imap_app. cbn [imap].
  rewrite !sum_list_with_app. cbn [sum_list_with]. cbn [Nat.add].
  rewrite !Nat.add_0_r.
  assert (H0 : luhnTerm parity (length A) 0 = 0)
    by (unfold luhnTerm; destruct (_ =? _); reflexivity).
  unfold id. rewrite H0.
  generalize (sum_list (imap (fun j => luhnTerm parity j) A)).
  generalize (sum_list (imap ((fun n => luhnTerm parity (length A + n)) ∘ S) B)).
  intros; lia.
Qed.

Lemma mod10_same (s u v : nat) :
  (s + u) mod 10 = 0 -> (s + v) mod 10 = 0 -> u mod 10 = v mod 10.
Proof.
  intros Hu Hv.
  pose proof (Nat.div_mod_eq (s + u) 10) as Eu.
  pose proof (Nat.div_mod_eq (s + v) 10) as Ev.
  pose proof (Nat.div_mod_eq u 10) as Fu.
  pose proof (Nat.div_mod_eq v 10) as Fv.
  pose proof (Nat.mod_upper_bound u 10). pose proof (Nat.mod_upper_bound v 10).
  lia.
Qed.

Lemma luhnDouble_inj (x y : nat) :
  x <= 9 -> y <= 9 -> luhnDouble x mod 10 = luhnDouble y mod 10 -> x = y.
Proof.
  intros Hx Hy.
  assert (Hx' : x ∈ seq 0 10) by (apply elem_of_seq; lia).
  assert (Hy' : y ∈ seq 0 10) by (apply elem_of_seq; lia).
  revert y Hy' Hy. revert x Hx' Hx.
  assert (T : forallb (fun x => forallb (fun y =>
                implb (luhnDouble x mod 10 =? luhnDouble y mod 10) (x =? y))
                (seq 0 10)) (seq 0 10) = true) by reflexivity.
  intros x Hx _ y Hy _ H. rewrite forallb_forall in T.
  apply list_elem_of_In, T in Hx. rewrite forallb_forall in Hx.
  apply list_elem_of_In, Hx in Hy. apply Nat.eqb_eq in H. rewrite H in Hy.
  apply Nat.eqb_eq. exact Hy.
Qed.

Lemma luhnTerm_double (parity i x : nat) :
  luhnTerm parity i x = if i mod 2 =? parity then luhnDouble x else x.
Proof. reflexivity. Qed.

(** X10.  The Luhn check catches every error in one digit: when a number is
    accepted, the number with one of its digits replaced by another digit
    is rejected, whatever other characters stand between the digits. *)
Theorem luhnCheck_catches_one_wrong_digit (a b : jsString) (d d' : ascii) :
  digit (code d) = true -> digit (code d') = true -> d <> d' ->
  luhnCheck (a ++ d :: b) = true ->
  luhnCheck (a ++ d' :: b) = false.
Proof.
  intros Hd Hd' Hne. unfold luhnCheck.
  rewrite !digitsOf_app, (digitsOf_digit d b Hd), (digitsOf_digit d' b Hd').
  set (A := digitsOf a). set (B := digitsOf b).
  set (x := N.to_nat (code d - 48)). set (x' := N.to_nat (code d' - 48)).
  rewrite !length_app. cbn [length].
  destruct ((length A + S (length B) <? 13) || (19 <? length A + S (length B)));
    [discriminate|].
  set (p := (length A + S (length B)) mod 2).
  rewrite (luhnLoop_one p A B x), (luhnLoop_one p A B x').
  intros H%Nat.eqb_eq. apply Nat.eqb_neq. intros H'.
  pose proof (mod10_same _ _ _ H H') as Hm.
  assert (Hx : x <= 9) by (apply digit_value; assumption).
  assert (Hx' : x' <= 9) by (apply digit_value; assumption).
  apply Hne. apply digit_value_inj; try assumption. fold x x'.
  rewrite !luhnTerm_double in Hm. destruct (length A mod 2 =? p).
  - apply luhnDouble_inj; assumption.
  - rewrite !Nat.mod_small in Hm by lia. assumption.
Qed.

Lemma luhnCheck_catches_one_wrong_digit_witness :
  luhnCheck (str "4111-1111 1111 111" ++ "1"%char :: str "") = true
  /\ luhnCheck (str "4111-1111 1111 111" ++ "7"%char :: str "") = false.
Proof.
  split; [reflexivity|].
  apply (luhnCheck_catches_one_wrong_digit _ _ "1" "7");
    [reflexivity | reflexivity | discriminate | reflexivity].
Defined.

Lemma luhnLoop_two (parity : nat) (A B : list nat) (x y : nat) :
  luhnLoop parity 0 (A ++ x :: y :: B) 0
  = luhnLoop parity 0 (A ++ 0 :: 0 :: B) 0
    + (luhnTerm parity (length A) x + luhnTerm parity (S (length A)) y).
Proof.
  replace (A ++ x :: y :: B) with ((A ++ [x]) ++ y :: B)
    by (rewrite <- app_assoc; reflexivity).
  rewrite (luhnLoop_one parity (A ++ [x]) B y).
  replace ((A ++ [x]) ++ 0 :: B) with (A ++ x :: 0 :: B)
    by (rewrite <- app_assoc; reflexivity).
  rewrite (luhnLoop_one parity A (0 :: B) x).
  rewrite length_app. cbn [length]. rewrite Nat.add_1_r. lia.
Qed.

Lemma luhn_swap (x y : nat) :
  x <= 9 -> y <= 9 ->
  (luhnDouble x + y) mod 10 = (luhnDouble y + x) mod 10 ->
  x = y \/ (x = 0 /\ y = 9) \/ (x = 9 /\ y = 0).
Proof.
  intros Hx Hy.
  assert (Hx' : x ∈ seq 0 10) by (apply elem_of_seq; lia).
  assert (Hy' : y ∈ seq 0 10) by (apply elem_of_seq; lia).
  assert (T : forallb (fun x => forallb (fun y =>
                implb ((luhnDouble x + y) mod 10 =? (luhnDouble y + x) mod 10)
                  ((x =? y) || (x =? 0) && (y =? 9) || (x =? 9) && (y =? 0)))
                (seq 0 10)) (seq 0 10) = true) by reflexivity.
  intros H. rewrite forallb_forall in T.
  apply list_elem_of_In, T in Hx'. rewrite forallb_forall in Hx'.
  apply list_elem_of_In, Hx' in Hy'. apply Nat.eqb_eq in H. rewrite H in Hy'.
  cbn [implb] in Hy'.
  apply orb_true_iff in Hy' as [[Hxy|H09]%orb_true_iff|H90].
  - left. apply Nat.eqb_eq. assumption.
  - right. left. apply andb_true_iff in H09 as [->%Nat.eqb_eq ->%Nat.eqb_eq].
    split; reflexivity.
  - right. right. apply andb_true_iff in H90 as [->%Nat.eqb_eq ->%Nat.eqb_eq].
    split; reflexivity.
Qed.

(** X11.  The Luhn check catches the exchange of two digits that stand
    next to each other, except 0 and 9: when a number is accepted, the
    number with two adjacent different digits exchanged is rejected, unless
    the two are 0 and 9. *)
Theorem luhnCheck_catches_adjacent_exchange (a b : jsString) (d e : ascii) :
  digit (code d) = true -> digit (code e) = true -> d <> e ->
  (d, e) <> ("0"%char, "9"%char) -> (d, e) <> ("9"%char, "0"%char) ->
  luhnCheck (a ++ d :: e :: b) = true ->
  luhnCheck (a ++ e :: d :: b) = false.
Proof.
  intros Hd He Hne H09 H90. unfold luhnCheck.
  rewrite !digitsOf_app.
  rewrite (digitsOf_digit d (e :: b) Hd), (digitsOf_digit e b He).
  rewrite (digitsOf_digit e (d :: b) He), (digitsOf_digit d b Hd).
  set (A := digitsOf a). set (B := digitsOf b).
  set (x := N.to_nat (code d - 48)). set (y := N.to_nat (code e - 48)).
  rewrite !length_app. cbn [length].
  destruct ((length A + S (S (length B)) <? 13)
            || (19 <? length A + S (S (length B)))); [discriminate|].
  set (p := (length A + S (S (length B))) mod 2).
  rewrite (luhnLoop_two p A B x y), (luhnLoop_two p A B y x).
  intros H%Nat.eqb_eq. apply Nat.eqb_neq. intros H'.
  pose proof (mod10_same _ _ _ H H') as Hm.
  assert (Hx : x <= 9) by (apply digit_value; assumption).
  assert (Hy : y <= 9) by (apply digit_value; assumption).
  assert (Hp : p < 2) by (apply Nat.mod_upper_bound; lia).
  rewrite !luhnTerm_double in Hm.
  assert (Hcases : x = y \/ (x = 0 /\ y = 9) \/ (x = 9 /\ y = 0)).
  { pose proof (Nat.mod_upper_bound (length A) 2) as Hi.
    replace (S (length A) mod 2) with (1 - length A mod 2) in Hm.
    2:{ replace (S (length A)) with (1 + length A) by lia.
        rewrite Nat.Div0.add_mod by lia. 
        destruct (length A mod 2) as [|[|k]]; [reflexivity | reflexivity | lia]. }
    destruct (Nat.eqb_spec (length A mod 2) p) as [Ei|Ei];
      destruct (Nat.eqb_spec (1 - length A mod 2) p) as [Ej|Ej]; try lia.
    - apply luhn_swap; assumption.
    - assert (Hs : y = x \/ (y = 0 /\ x = 9) \/ (y = 9 /\ x = 0)).
      { apply luhn_swap; try assumption.
        rewrite (Nat.add_comm y), (Nat.add_comm x) in Hm. exact Hm. }
      destruct Hs as [->|[[-> ->]|[-> ->]]]; auto. }
  assert (Hchar : forall c n, digit (code c) = true ->
                    N.to_nat (code c - 48) = n ->
                    forall c', digit (code c') = true ->
                      N.to_nat (code c' - 48) = n -> c = c').
  { intros c n Hc <- c' Hc' Heq. apply digit_value_inj; auto. }
  destruct Hcases as [Hxy|[[Hx0 Hy9]|[Hx9 Hy0]]].
  - apply Hne. apply digit_value_inj; assumption.
  - apply H09. f_equal.
    + apply (Hchar d 0 Hd Hx0 "0"%char); reflexivity.
    + apply (Hchar e 9 He Hy9 "9"%char); reflexivity.
  - apply H90. f_equal.
    + apply (Hchar d 9 Hd Hx9 "9"%char); reflexivity.
    + apply (Hchar e 0 He Hy0 "0"%char); reflexivity.
Qed.

Lemma luhnCheck_catches_adjacent_exchange_witness :
  luhnCheck (str "4012 8888 8888 " ++ "1"%char :: "8"%char :: str "81") = true
  /\ luhnCheck (str "4012 8888 8888 " ++ "8"%char :: "1"%char :: str "81")
     = false.
Proof.
  split; [reflexivity|].
  apply (luhnCheck_catches_adjacent_exchange _ _ "1" "8");
    [reflexivity | reflexivity | discriminate | discriminate | discriminate
    | reflexivity].
Defined.

(** *** The chunks, put together *)

Lemma chunkLoop_reassemble (size step : nat) (D : jsString) :
  0 < step -> step <= size ->
  forall fuel i,
    length D - i <= fuel * step ->
    concat (map (fun c => take step (chunkText c))
              (chunkLoop size step D fuel i))
    = drop i D.
Proof.
  intros Hpos Hle. induction fuel as [|fuel IH]; intros i Hfuel; cbn [chunkLoop].
  - cbn [map concat]. symmetry. apply drop_ge. lia.
  - destruct (Nat.ltb_spec i (length D)) as [Hi|Hi].
    + cbn [map concat chunkText]. rewrite IH by lia.
      unfold slice. rewrite take_take.
      rewrite <- (take_drop step (drop i D)) at 2. rewrite drop_drop. f_equal.
      destruct (Nat.le_ge_cases step (length D - i)) as [Hs|Hs].
      * f_equal. lia.
      * rewrite !take_ge; [reflexivity | | ]; rewrite ?length_drop; lia.
    + cbn [map concat]. symmetry. apply drop_ge. lia.
Qed.

Lemma chunkLoop_sizes (size step : nat) (D : jsString) :
  0 < size ->
  forall fuel i,
    Forall (fun c => 0 < length (chunkText c) <= size
                     /\ offset c + length (chunkText c) <= length D)
      (chunkLoop size step D fuel i).
Proof.
  intros Hsize. induction fuel as [|fuel IH]; intros i; cbn [chunkLoop].
  - constructor.
  - destruct (Nat.ltb_spec i (length D)) as [Hi|Hi]; [|constructor].
    constructor; [|apply IH]. cbn [chunkText offset]. unfold slice.
    rewrite length_take, length_drop. lia.
Qed.

(** X12.  The chunks of a document hold the whole of it: the first
    [chunkSize - overlap] characters of each chunk, one after the other,
    are the document.  No chunk is empty, none is longer than [chunkSize],
    and none goes past the end of the document. *)
Theorem chunks_reassemble (D : jsString) :
  concat (map (fun c => take (chunkSize - overlap) (chunkText c)) (makeChunks D))
  = D
  /\ Forall (fun c => 0 < length (chunkText c) <= chunkSize
                      /\ offset c + length (chunkText c) <= length D)
       (makeChunks D).
Proof.
  unfold makeChunks. split.
  - rewrite chunkLoop_reassemble.
    + apply drop_0.
    + unfold chunkSize, overlap. lia.
    + unfold chunkSize, overlap. lia.
    + assert (0 < chunkSize - overlap) by (unfold chunkSize, overlap; lia).
      generalize dependent (chunkSize - overlap). intros step Hstep. nia.
  - apply chunkLoop_sizes. unfold chunkSize. lia.
Qed.

(** *** Removing duplicates again *)

Lemma dropRepeats_NoDup_same (ms : list PIIMatch) :
  forall earlier,
    NoDup (map identity ms) ->
    (forall m, m ∈ ms -> identity m ∉ earlier) ->
    dropRepeats earlier ms = ms.
Proof.
  induction ms as [|m ms IH]; intros earlier Hnd Hfresh; cbn [dropRepeats];
    [reflexivity|].
  cbn [map] in Hnd. apply NoDup_cons in Hnd as [Hm Hnd].
  destruct (decide (identity m ∈ earlier)) as [Hin|_].
  - exfalso. apply (Hfresh m); [apply list_elem_of_here | assumption].
  - f_equal. apply IH; [assumption|]. intros x Hx [Heq|Hin]%elem_of_cons.
    + apply Hm. rewrite <- Heq. apply list_elem_of_fmap. exists x.
      split; [reflexivity | assumption].
    + apply (Hfresh x); [apply list_elem_of_further; assumption | assumption].
Qed.

(** X13.  Removing duplicates twice is removing them once. *)
Theorem deduplicateMatches_idempotent (o : Detected) :
  deduplicateMatches (deduplicateMatches o) = deduplicateMatches o.
Proof.
  unfold deduplicateMatches. rewrite map_map. apply map_ext. intros [k v].
  cbn [fst snd matches info]. rewrite !uniqueLoop_spec.
  rewrite (dropRepeats_NoDup_same (dropRepeats [] (matches v)) []).
  - reflexivity.
  - apply dropRepeats_NoDup.
  - intros m _ H. apply elem_of_nil in H. contradiction.
Qed.

(** *** Masking and processing *)

Lemma matchIn_bound (D : jsString) (m : PIIMatch) :
  matchIn D m ->
  length (text m) = 0 \/ index m + length (text m) <= length D.
Proof.
  unfold matchIn. intros H. apply (f_equal (@length ascii)) in H.
  rewrite substring_ordered, length_take, length_drop in H by lia. lia.
Qed.

(** One splice of a run of stars: the length stays, and the characters of
    the region become stars. *)
Lemma splice_mask (t : jsString) (m : PIIMatch) :
  length (text m) = 0 \/ index m + length (text m) <= length t ->
  length (splice (repeatChar "*" (length (text m))) t m) = length t
  /\ forall p,
       splice (repeatChar "*" (length (text m))) t m !! p
       = if (index m <=? p) && (p <? index m + length (text m))
         then Some "*"%char else t !! p.
Proof.
  intros Hb.
  assert (Hlen : length (splice (repeatChar "*" (length (text m))) t m)
                 = length t).
  { unfold splice, slice, sliceFrom, repeatChar.
    rewrite !length_app, length_take, length_replicate, !length_drop. lia. }
  split; [exact Hlen|]. intros p. unfold jsString in *.
  destruct (decide (p < length t)) as [Hp|Hp].
  - unfold splice, slice, sliceFrom, repeatChar, jsString in *.
    rewrite drop_0, Nat.sub_0_r.
    destruct (Nat.leb_spec (index m) p) as [Hip|Hip]; cbn [andb].
    + rewrite lookup_app_r by (rewrite length_take; lia).
      rewrite length_take, Nat.min_l by lia.
      destruct (Nat.ltb_spec p (index m + length (text m))) as [Hq|Hq].
      * rewrite lookup_app_l by (rewrite length_replicate; lia).
        apply lookup_replicate_2. lia.
      * rewrite lookup_app_r by (rewrite length_replicate; lia).
        rewrite length_replicate, lookup_drop. f_equal. lia.
    + rewrite lookup_app_l by (rewrite length_take; lia).
      apply lookup_take_lt. lia.
  - rewrite (lookup_ge_None_2 _ p) by (rewrite Hlen; lia).
    rewrite (lookup_ge_None_2 t p) by lia.
    destruct (Nat.leb_spec (index m) p) as [Hip|Hip]; cbn [andb];
      [|reflexivity].
    destruct (Nat.ltb_spec p (index m + length (text m))) as [Hq|Hq];
      [exfalso; lia | reflexivity].
Qed.

Lemma splices_mask (l : list PIIMatch) :
  forall t,
    Forall (fun m => length (text m) = 0
                     \/ index m + length (text m) <= length t) l ->
    length (foldl (fun t' m => splice (repeatChar "*" (length (text m))) t' m)
              t l) = length t
    /\ forall p,
         foldl (fun t' m => splice (repeatChar "*" (length (text m))) t' m)
           t l !! p
         = if covered l p then Some "*"%char else t !! p.
Proof.
  induction l as [|m l IH]; intros t Hl; cbn [foldl covered existsb].
  - split; reflexivity.
  - apply Forall_cons in Hl as [Hm Hl].
    destruct (splice_mask t m Hm) as [Hlen Hlook].
    destruct (IH (splice (repeatChar "*" (length (text m))) t m)) as [IH1 IH2].
    { rewrite Hlen. exact Hl. }
    split; [rewrite IH1; exact Hlen|].
    intros p. rewrite IH2, Hlook. fold (covered l p).
    destruct (covered l p); [rewrite orb_true_r; reflexivity|].
    rewrite orb_false_r. reflexivity.
Qed.

Lemma covered_Permutation (l l' : list PIIMatch) (p : nat) :
  Permutation l l' -> covered l p = covered l' p.
Proof.
  intros H. unfold covered.
  induction H as [|x l l' H IH|x y l|l l' l'' H1 IH1 H2 IH2]; cbn [existsb].
  - reflexivity.
  - rewrite IH. reflexivity.
  - rewrite !orb_assoc, (orb_comm (_ && _) (_ && _)). reflexivity.
  - rewrite IH1. exact IH2.
Qed.

(** X14.  Masking hides exactly the regions of the enabled matches: the
    processed text has the length of the document, a star at every
    position that lies in the region of an enabled match, and the
    character of the document everywhere else.  This holds whether or not
    regions overlap. *)
Theorem mask_hides_the_enabled_regions (secureHash : jsString -> jsString)
    (secureEncrypt : nat -> jsString -> jsString -> jsString)
    (tool : PIITool) (D password : jsString) :
  detectedIn D (detectedPII tool) ->
  let out := snd (applyEncryption secureHash secureEncrypt tool D "mask" password) in
  length out = length D
  /\ forall p, out !! p = if covered (enabledMatches tool) p
                          then Some "*"%char else D !! p.
Proof.
  intros HD. unfold applyEncryption. cbn [snd]. cbn zeta.
  rewrite (replaceLoop_splices secureHash secureEncrypt "mask" password
             (fun m => repeatChar "*" (length (text m))))
    by (intros n m; reflexivity).
  destruct (splices_mask (sortDescending (enabledMatches tool)) D) as [H1 H2].
  - rewrite sortDescending_Permutation.
    eapply Forall_impl; [apply enabledMatches_in, HD|]. apply matchIn_bound.
  - split; [exact H1|]. intros p. rewrite H2.
    rewrite (covered_Permutation _ _ p (sortDescending_Permutation _)).
    reflexivity.
Qed.

Lemma mask_hides_the_enabled_regions_witness :
  detectedIn emailDocument (detectedPII (analyzed newTool emailDocument))
  /\ (let out := snd (applyEncryption noHash noEncrypt
                        (analyzed newTool emailDocument) emailDocument
                        "mask" []) in
      length out = length emailDocument
      /\ forall p,
           out !! p
           = if covered (enabledMatches (analyzed newTool emailDocument)) p
             then Some "*"%char else emailDocument !! p).
Proof.
  assert (H : detectedIn emailDocument
                (detectedPII (analyzed newTool emailDocument))).
  { vm_compute. repeat constructor. }
  split; [exact H|].
  apply (mask_hides_the_enabled_regions noHash noEncrypt _ emailDocument [] H).
Defined.

Lemma sum_list_cons (x : nat) (l : list nat) :
  sum_list (x :: l) = x + sum_list l.
Proof. reflexivity. Qed.









(** *** Analysis and selection *)

Lemma trimStart_blank (s : jsString) : blank s = true -> trimStart s = [].
Proof.
  induction s as [|c s IH]; cbn [blank forallb trimStart]; [reflexivity|].
  intros [Hc Hs]%andb_true_iff. rewrite Hc. apply IH, Hs.
Qed.

Lemma blank_app (a b : jsString) : blank (a ++ b) = blank a && blank b.
Proof. apply forallb_app. Qed.

Lemma trimStart_nil (s : jsString) : trimStart s = [] -> blank s = true.
Proof.
  induction s as [|c s IH]; cbn [blank forallb trimStart]; [reflexivity|].
  destruct (isSpace (code c)); [apply IH | discriminate].
Qed.

Lemma trimStart_suffix (s : jsString) :
  exists pre, s = pre ++ trimStart s /\ blank pre = true.
Proof.
  induction s as [|c s (pre & Hs & Hpre)]; cbn [trimStart].
  - exists []. split; reflexivity.
  - destruct (isSpace (code c)) eqn:Hc.
    + exists (c :: pre). cbn [app blank forallb]. rewrite Hc. fold (blank pre).
      rewrite Hpre. split; [f_equal; exact Hs | reflexivity].
    + exists []. split; reflexivity.
Qed.

Lemma blank_rev (s : jsString) : blank (rev s) = blank s.
Proof.
  induction s as [|c s IH]; [reflexivity|].
  cbn [rev]. rewrite blank_app, IH. cbn [blank forallb].
  rewrite andb_true_r. apply andb_comm.
Qed.

(** [trim] gives the empty string on white space and on nothing else. *)
Lemma trim_blank (s : jsString) : trim s = [] <-> blank s = true.
Proof.
  unfold trim, trimEnd. split.
  - intros H. apply (f_equal (@rev ascii)) in H. rewrite rev_involutive in H.
    cbn [rev] in H. apply trimStart_nil in H. rewrite blank_rev in H.
    destruct (trimStart_suffix s) as (pre & Hs & Hpre).
    rewrite Hs, blank_app, Hpre, H. reflexivity.
  - intros H. rewrite (trimStart_blank s H). reflexivity.
Qed.

Lemma processLargeText_detectedIn (D : jsString) (R : Detected) (n : nat) :
  processLargeText [] D = Some (R, n) -> detectedIn D R.
Proof.
  unfold processLargeText.
  destruct (forChunks (makeChunks D) 0 []) as [o|] eqn:Ho; [|discriminate].
  intros [= <- _]. apply deduplicateMatches_detectedIn.
  eapply (forChunks_sound D); [apply sortedPatterns_consuming
    | apply makeChunks_window | | exact Ho].
  constructor.
Qed.

(** What either detector returns for [analyzeText], whichever is taken. *)
Lemma detection (D : jsString) (large : bool) :
  exists R n,
    (if large then processLargeText [] D else processStandardText [] D)
    = Some (R, n)
    /\ detectedIn D R /\ Forall chunkedEntry R /\ n = sumCounts R.
Proof.
  destruct large.
  - destruct (processLargeText_total D) as (R & n & H & HR & Hn).
    exists R, n. split; [assumption|].
    split; [apply (processLargeText_detectedIn D R n H)|].
    split; [|assumption].
    eapply Forall_impl; [exact HR|]. intros kv [Hkv _]. exact Hkv.
  - destruct (processStandardText_total D) as (R & n & H & HR & Hn).
    exists R, n. split; [assumption|].
    split; [eapply Forall_impl; [exact HR | apply standardEntry_entryIn]|].
    split; [|assumption].
    eapply Forall_impl; [apply (processStandardText_entries D R n H)|].
    apply singlePassEntry_chunkedEntry.
Qed.

(** X16.  An analysis always ends.  It refuses the input, with the state
    as it was, exactly when the input is white space only; otherwise it
    succeeds, the matches of the new detection result are matches of the
    trimmed input, the total of the toast is their number, and nothing
    else of the state changes. *)
Theorem analyzeText_outcome (tool : PIITool) (inputValue : jsString) :
  exists tool' toast,
    analyzeText tool inputValue = Some (tool', toast)
    /\ if blank inputValue
       then tool' = tool /\ toast = (EnterTextToAnalyze, error)
       else detectedIn (trim inputValue) (detectedPII tool')
            /\ toast = (AnalysisComplete (totalMatches (detectedPII tool')),
                        success)
            /\ enabledTypes tool' = enabledTypes tool
            /\ processedText tool' = processedText tool
            /\ processedData tool' = processedData tool.
Proof.
  unfold analyzeText. cbn zeta.
  destruct (blank inputValue) eqn:Hb.
  - apply trim_blank in Hb. rewrite (bool_decide_eq_true_2 _ Hb).
    eexists _, _. split; [reflexivity|]. split; reflexivity.
  - assert (Hne : trim inputValue <> []).
    { intros H. apply trim_blank in H. congruence. }
    rewrite (bool_decide_eq_false_2 _ Hne).
    destruct (detection (trim inputValue)
                (largeTextLimit <? length (trim inputValue)))
      as (R & n & -> & HD & HR & ->).
    eexists _, _. split; [reflexivity|]. cbn [detectedPII enabledTypes
                                              processedText processedData].
    split; [exact HD|]. split; [|repeat split].
    destruct (totals R HR) as [-> _]. reflexivity.
Qed.

Lemma listed_key (kv : string * PIIData) :
  listed kv -> fst kv ∈ map fst piiPatterns.
Proof.
  intros H. unfold listed in H.
  assert (Hs : fst kv ∈ map fst sortedPatterns).
  { apply list_elem_of_fmap. exists (fst kv, info (snd kv)).
    split; [reflexivity | exact H]. }
  unfold sortedPatterns in Hs. rewrite stableSort_Permutation in Hs. exact Hs.
Qed.

(** X17.  After the analysis of an input that is not blank, Select All
    enables every match: the number of matches in enabled categories is the
    total of the detection result, whatever was enabled before.  After
    Unselect All that number is zero. *)
Theorem select_all_enables_every_match (tool : PIITool) (inputValue : jsString) :
  exists tool' toast,
    analyzeText tool inputValue = Some (tool', toast)
    /\ (if blank inputValue then tool' = tool
        else enabledTotal (selectAllPIITypes tool')
             = totalMatches (detectedPII tool'))
    /\ enabledTotal (unselectAllPIITypes tool') = 0.
Proof.
  assert (Hall : forall t : PIITool,
            Forall listed (detectedPII t) ->
            enabledTotal (selectAllPIITypes t) = totalMatches (detectedPII t)).
  { intros t Ht. unfold enabledTotal, totalMatches, selectAllPIITypes, withEnabled.
    cbn [detectedPII enabledTypes]. f_equal. apply Forall_fmap_ext_1.
    eapply Forall_impl; [exact Ht|]. intros kv Hkv.
    apply listed_key in Hkv. rewrite bool_decide_eq_true_2; [reflexivity|].
    apply elem_of_union_l, elem_of_list_to_set. exact Hkv. }
  assert (Hnone : forall t : PIITool, enabledTotal (unselectAllPIITypes t) = 0).
  { intros t. unfold enabledTotal, unselectAllPIITypes, withEnabled.
    cbn [detectedPII enabledTypes].
    induction (detectedPII t) as [|kv o IH]; [reflexivity|].
    cbn [map]. rewrite sum_list_cons, IH.
    rewrite bool_decide_eq_false_2; [reflexivity | apply not_elem_of_empty]. }
  unfold analyzeText. cbn zeta.
  destruct (blank inputValue) eqn:Hb.
  - apply trim_blank in Hb. rewrite (bool_decide_eq_true_2 _ Hb).
    eexists _, _. split; [reflexivity|]. split; [reflexivity | apply Hnone].
  - assert (Hne : trim inputValue <> []).
    { intros H. apply trim_blank in H. congruence. }
    rewrite (bool_decide_eq_false_2 _ Hne).
    destruct (detection (trim inputValue)
                (largeTextLimit <? length (trim inputValue)))
      as (R & n & -> & HD & HR & ->).
    eexists _, _. split; [reflexivity|]. split; [|apply Hnone].
    apply Hall. cbn [detectedPII]. eapply Forall_impl; [exact HR|].
    intros kv (Hl & _). exact Hl.
Qed.

(** X18.  A toggle flips the category it is given and no other, and two
    toggles of the same category restore the state. *)
Theorem togglePIIType_flips_one_type (tool : PIITool) (type : string) :
  togglePIIType (togglePIIType tool type) type = tool
  /\ (type ∈ enabledTypes (togglePIIType tool type)
      <-> type ∉ enabledTypes tool)
  /\ forall other, other <> type ->
       (other ∈ enabledTypes (togglePIIType tool type)
        <-> other ∈ enabledTypes tool).
Proof.
  destruct tool as [o E t d]. unfold togglePIIType, withEnabled.
  cbn [detectedPII enabledTypes processedText processedData].
  split; [|split].
  - f_equal. destruct (decide (type ∈ E)) as [Hin|Hout].
    + rewrite decide_False
        by (rewrite elem_of_difference, elem_of_singleton; tauto).
      apply set_eq. intros x.
      rewrite elem_of_union, elem_of_difference, elem_of_singleton.
      destruct (decide (x = type)) as [->|Hx]; tauto.
    + rewrite decide_True
        by (rewrite elem_of_union, elem_of_singleton; tauto).
      apply set_eq. intros x.
      rewrite elem_of_difference, elem_of_union, elem_of_singleton.
      destruct (decide (x = type)) as [->|Hx]; tauto.
  - destruct (decide (type ∈ E)) as [Hin|Hout].
    + rewrite elem_of_difference, elem_of_singleton. tauto.
    + rewrite elem_of_union, elem_of_singleton. tauto.
  - intros other Hne. destruct (decide (type ∈ E)) as [Hin|Hout].
    + rewrite elem_of_difference, elem_of_singleton. tauto.
    + rewrite elem_of_union, elem_of_singleton. tauto.
Qed.

(** *** The hashes and the tokens *)

Lemma toInt32_add (z k : Z) : toInt32 (z + k * 2 ^ 32) = toInt32 z.
Proof.
  unfold toInt32. f_equal.
  replace (z + k * 2 ^ 32 + 2 ^ 31)%Z with (z + 2 ^ 31 + k * 2 ^ 32)%Z by lia.
  apply Z.mod_add. lia.
Qed.

Lemma toInt32_spec (z : Z) : exists k, toInt32 z = (z + k * 2 ^ 32)%Z.
Proof.
  exists (- ((z + 2 ^ 31) / 2 ^ 32))%Z. unfold toInt32.
  pose proof (Z.div_mod (z + 2 ^ 31) (2 ^ 32)) as H. lia.
Qed.

Lemma toInt32_range (z : Z) : (- 2 ^ 31 <= toInt32 z < 2 ^ 31)%Z.
Proof.
  unfold toInt32. pose proof (Z.mod_pos_bound (z + 2 ^ 31) (2 ^ 32)). lia.
Qed.

Lemma toInt32_small (z : Z) : (- 2 ^ 31 <= z < 2 ^ 31)%Z -> toInt32 z = z.
Proof. intros H. unfold toInt32. rewrite Z.mod_small by lia. lia. Qed.

(** One round of the loop is one step in base 31, in 32 bits. *)
Lemma hashLoop_step (h : Z) (c : ascii) :
  toInt32 (toInt32 (Z.shiftl (toInt32 h) 5) - toInt32 h + Z.of_N (code c))
  = toInt32 (31 * h + Z.of_N (code c)).
Proof.
  rewrite Z.shiftl_mul_pow2 by lia.
  destruct (toInt32_spec h) as [k1 ->].
  destruct (toInt32_spec ((h + k1 * 2 ^ 32) * 2 ^ 5)) as [k2 ->].
  replace ((h + k1 * 2 ^ 32) * 2 ^ 5 + k2 * 2 ^ 32 - (h + k1 * 2 ^ 32)
           + Z.of_N (code c))%Z
    with (31 * h + Z.of_N (code c) + (31 * k1 + k2) * 2 ^ 32)%Z by lia.
  apply toInt32_add.
Qed.

Lemma hashLoop_base31 (text : jsString) :
  forall h,
    hashLoop text (toInt32 h)
    = toInt32 (foldl (fun h c => (31 * h + Z.of_N (code c))%Z) h text).
Proof.
  induction text as [|c text IH]; intros h; cbn [hashLoop foldl]; [reflexivity|].
  cbn zeta. rewrite hashLoop_step. apply IH.
Qed.

Lemma hashLoop_app (a s : jsString) :
  forall h, hashLoop (a ++ s) h = hashLoop s (hashLoop a h).
Proof.
  induction a as [|c a IH]; intros h; cbn [app hashLoop]; [reflexivity|].
  apply IH.
Qed.

Lemma hexLoop_length (fuel : nat) :
  forall k n digits,
    (n < 16 ^ N.of_nat k)%N ->
    length digits <= length (hexLoop fuel n digits) <= length digits + k.
Proof.
  induction fuel as [|fuel IH]; intros k n digits Hn; cbn [hexLoop]; [lia|].
  destruct (N.eqb_spec n 0) as [_|Hne]; [lia|].
  destruct k as [|k]; [cbn in Hn; lia|].
  specialize (IH k (n / 16)%N (hexChar (n mod 16) :: digits)).
  cbn [length] in IH.
  assert (Hdiv : (n / 16 < 16 ^ N.of_nat k)%N).
  { apply N.Div0.div_lt_upper_bound.
    rewrite Nat2N.inj_succ, N.pow_succ_r' in Hn. exact Hn. }
  specialize (IH Hdiv). lia.
Qed.

Lemma toString16_length (n : N) :
  (n < 16 ^ 8)%N -> 1 <= length (toString16 n) <= 8.
Proof.
  intros Hn. unfold toString16.
  destruct (N.eqb_spec n 0) as [->|Hne]; [cbn; lia|].
  destruct n as [|p]; [contradiction|].
  unfold N.size_nat. destruct (Pos.size_nat p) as [|fuel] eqn:Hsize.
  { destruct p; discriminate. }
  cbn [hexLoop]. cbn [N.eqb].
  pose proof (hexLoop_length fuel 7 (N.pos p / 16)
                [hexChar (N.pos p mod 16)]) as H.
  cbn [length] in H.
  assert (Hdiv : (N.pos p / 16 < 16 ^ N.of_nat 7)%N).
  { apply N.Div0.div_lt_upper_bound. exact Hn. }
  specialize (H Hdiv). lia.
Qed.

Lemma substring_all (s : jsString) (n : nat) :
  length s <= n -> substring s 0 n = s.
Proof.
  intros H. rewrite substring_ordered by lia.
  rewrite drop_0, Nat.sub_0_r. apply take_ge. assumption.
Qed.

(** X19.  [fallbackHash] is the hash in base 31, in 32 bits: the value of
    its loop is the text read as a number in base 31, brought to 32 bits.
    The result is the hexadecimal writing of the absolute value of that
    number; it has between 1 and 8 digits, so the cut at 8 characters never
    removes anything. *)
Theorem fallbackHash_is_base31 (text : jsString) :
  hashLoop text 0 = toInt32 (base31 text)
  /\ fallbackHash text = toString16 (Z.abs_N (toInt32 (base31 text)))
  /\ 1 <= length (fallbackHash text) <= 8.
Proof.
  assert (Hloop : hashLoop text 0 = toInt32 (base31 text)).
  { rewrite <- (toInt32_small 0) at 1 by lia. apply hashLoop_base31. }
  assert (Hlen : 1 <= length (toString16 (Z.abs_N (toInt32 (base31 text))))
                 <= 8).
  { apply toString16_length. pose proof (toInt32_range (base31 text)). lia. }
  unfold fallbackHash. rewrite Hloop, substring_all by lia.
  split; [reflexivity|]. split; [reflexivity | exact Hlen].
Qed.

(** X20.  Two texts on which the loop of [fallbackHash] ends with the same
    value keep the same hash when the same text is added at the end of
    both. *)
Theorem fallbackHash_collisions_extend (a b s : jsString) :
  hashLoop a 0 = hashLoop b 0 -> fallbackHash (a ++ s) = fallbackHash (b ++ s).
Proof.
  intros H. unfold fallbackHash. rewrite !hashLoop_app, H. reflexivity.
Qed.

Lemma fallbackHash_collisions_extend_witness :
  hashLoop (str "Aa") 0 = hashLoop (str "BB") 0
  /\ str "Aa" <> str "BB"
  /\ fallbackHash (str "Aa" ++ str "@email.com")
     = fallbackHash (str "BB" ++ str "@email.com").
Proof.
  assert (H : hashLoop (str "Aa") 0 = hashLoop (str "BB") 0) by reflexivity.
  split; [exact H|]. split; [discriminate|].
  apply (fallbackHash_collisions_extend _ _ _ H).
Defined.

Lemma byteHex_take (d : jsString) :
  forall n, take (2 * n) (concat (map byteHex d)) = concat (map byteHex (take n d)).
Proof.
  induction d as [|b d IH]; intros n.
  - cbn [map concat]. rewrite !take_nil. reflexivity.
  - destruct n as [|n]; [reflexivity|].
    replace (2 * S n) with (S (S (2 * n))) by lia.
    cbn [map concat take byteHex app]. rewrite IH. reflexivity.
Qed.

(** X21.  The token of the method hash holds the first 8 bytes of the
    digest and nothing else of it: 16 hexadecimal digits. *)
Theorem secureHash_keeps_eight_bytes (hashBuffer text : jsString) :
  8 <= length hashBuffer ->
  secureHashWith (Some hashBuffer) text
  = concat (map byteHex (take 8 hashBuffer))
  /\ length (secureHashWith (Some hashBuffer) text) = 16.
Proof.
  intros Hlen.
  assert (Heq : secureHashWith (Some hashBuffer) text
                = concat (map byteHex (take 8 hashBuffer))).
  { unfold secureHashWith.
    rewrite substring_ordered by lia. rewrite drop_0, Nat.sub_0_r.
    apply (byteHex_take hashBuffer 8). }
  split; [exact Heq|]. rewrite Heq.
  assert (H : forall l : jsString, length (concat (map byteHex l)) = 2 * length l).
  { induction l as [|b l IH]; [reflexivity|].
    cbn [map concat byteHex app length]. rewrite IH. lia. }
  rewrite H, length_take. lia.
Qed.

Lemma secureHash_keeps_eight_bytes_witness :
  8 <= length (str "0123456789abcdef0123456789abcdef")
  /\ secureHashWith (Some (str "0123456789abcdef0123456789abcdef")) []
     = str "3031323334353637".
Proof.
  split; [cbn; lia|].
  apply (secureHash_keeps_eight_bytes
           (str "0123456789abcdef0123456789abcdef") []).
  cbn. lia.
Defined.

Lemma btoa_blocks (n : nat) :
  forall x y,
    length x = 3 * n ->
    btoa (x ++ y) = btoa x ++ btoa y /\ length (btoa x) = 4 * n.
Proof.
  induction n as [|n IH]; intros x y Hx.
  - destruct x; [|discriminate]. split; reflexivity.
  - destruct x as [|a [|b [|c x]]]; cbn [length] in Hx; try lia.
    destruct (IH x y) as [Happ Hlen]; [lia|].
    cbn [app btoa]. cbn zeta. rewrite Happ. cbn [length]. rewrite Hlen.
    split; [reflexivity | lia].
Qed.

Lemma btoa_take (n : nat) (s : jsString) :
  3 * n <= length s -> take (4 * n) (btoa s) = btoa (take (3 * n) s).
Proof.
  intros Hs. rewrite <- (take_drop (3 * n) s) at 1.
  destruct (btoa_blocks n (take (3 * n) s) (drop (3 * n) s)) as [-> Hlen].
  { rewrite length_take. lia. }
  rewrite <- Hlen. apply take_app_length.
Qed.

(** X22.  The token of the method encrypt holds nothing of the
    ciphertext: when the cipher returns, the token is made of the salt and
    the first two bytes of the IV, whatever the text, the password and the
    ciphertext are. *)
Theorem secureEncrypt_token_is_salt_and_iv (salt iv bytes text password : jsString) :
  length salt = 16 -> length iv = 12 ->
  secureEncryptWith salt iv (Some bytes) text password
  = str "[ENC:" ++ btoa (salt ++ take 2 iv) ++ str "...]".
Proof.
  intros Hsalt Hiv. unfold secureEncryptWith. cbn zeta. f_equal. f_equal.
  rewrite substring_ordered by lia. rewrite drop_0, Nat.sub_0_r.
  change 24 with (4 * 6). rewrite (btoa_take 6) by (rewrite !length_app; lia).
  f_equal. change (3 * 6) with 18.
  rewrite take_app_ge by lia. f_equal.
  rewrite Hsalt. change (18 - 16) with 2. rewrite take_app_le by lia.
  reflexivity.
Qed.

Lemma secureEncrypt_token_is_salt_and_iv_witness :
  length (str "0123456789abcdef") = 16 /\ length (str "0123456789ab") = 12
  /\ secureEncryptWith (str "0123456789abcdef") (str "0123456789ab")
       (Some (str "one")) (str "john.doe@email.com") (str "password")
     = secureEncryptWith (str "0123456789abcdef") (str "0123456789ab")
         (Some (str "another")) (str "jane") (str "12345678").
Proof.
  split; [reflexivity|]. split; [reflexivity|].
  rewrite (secureEncrypt_token_is_salt_and_iv (str "0123456789abcdef")
             (str "0123456789ab") (str "one") (str "john.doe@email.com")
             (str "password") eq_refl eq_refl).
  reflexivity.
Defined.




